(** * convert.py: slicing NIfTI volumes into PNG images

    A shallow embedding of [src/convert.py] and the properties of its two
    functions, [slice_image] (the Volume Slicer) and [process_dataset] (the
    Dataset Walker).

    Conventions of the model.
    - Python [str] values are [string]s; paths are compared as strings, the
      way the program builds them (no normalisation of [.] or doubled
      separators by the file system).
    - The output file system is a set of directory paths and a finite map
      from file paths to the images stored there (a regular file of
      another kind is any entry of the map).  The input dataset (what
      [os.walk] lists and what [sitk.ReadImage] returns) is a read-only
      environment: what the program writes does not change what it reads.
    - A volume is a numpy array of one of the ten scalar sample types of
      SimpleITK (integers of 8 to 64 bits, [float32], [float64]) with a
      shape and a flat, row-major buffer of words.  Integer arithmetic wraps
      as numpy's does.  A floating-point sample is its IEEE 754 word in
      sign-magnitude reading, which keeps the order of the values.  The
      true division and the product by [255.0] are those of IEEE 754,
      rounding to nearest with ties to even, gradual underflow, infinities
      and NaN: in [float32] for a [float32] volume and in [float64]
      otherwise.  The sign of a zero is not kept (no result depends on it),
      and the conversion of a NaN to [uint8], which C leaves open, gives 0
      as on x86-64 and AArch64.
    - Exceptions are explicit: a computation returns [Ok] or [Raise], next to
      the world it leaves behind. *)

From Stdlib Require Import ZArith QArith Qround Qabs Qpower String Ascii List.
From Stdlib Require Import Lia Lqa.
From Stdlib Require Import DecimalString DecimalNat.
From Stdlib Require OrderedTypeEx.
From stdpp Require Import gmap strings list fin_maps.

Local Open Scope Z_scope.
#[local] Set Warnings "-clear-no-such-hyp".

(* ===================================================================== *)
(** * Python strings and [os.path] *)
(* ===================================================================== *)

Module Py.

(** [os.sep] on POSIX. *)
Definition sep : ascii := "/"%char.
Definition sep_str : string := "/".

(** [s.startswith(p)] *)
Definition startswith (s p : string) : bool := String.prefix p s.

(** [s.endswith(suffix)] *)
Definition endswith (s suffix : string) : bool :=
  (String.length suffix <=? String.length s)%nat
  && String.eqb
       (String.substring (String.length s - String.length suffix)
                         (String.length suffix) s)
       suffix.

(** [s.split(os.sep)]: cut at every separator, empty pieces kept. *)
Fixpoint split (s : string) : list string :=
  match s with
  | EmptyString => [EmptyString]
  | String c s' =>
      if Ascii.eqb c sep then EmptyString :: split s'
      else match split s' with
           | h :: t => String c h :: t
           | [] => [String c EmptyString]
           end
  end.

(** [x in l] for a list of strings. *)
Definition contains (l : list string) (x : string) : bool :=
  existsb (String.eqb x) l.

(** [s.replace(old, new)]: the occurrences of [old] are replaced from the
    left, without overlap.  [skip] counts the characters of an occurrence
    that are still to be dropped. *)
Fixpoint replace_go (old new : string) (skip : nat) (s : string) : string :=
  match s with
  | EmptyString => EmptyString
  | String c s' =>
      match skip with
      | S k => replace_go old new k s'
      | O =>
          if String.prefix old s
          then new +:+ replace_go old new (String.length old - 1) s'
          else String c (replace_go old new 0 s')
      end
  end.

(** Only called with a non-empty [old] (Python inserts [new] between all
    characters when [old] is empty). *)
Definition replace (s old new : string) : string := replace_go old new 0 s.

(** [os.path.join(a, b)] of [posixpath]. *)
Definition join (a b : string) : string :=
  if startswith b sep_str || String.eqb a EmptyString then b
  else if endswith a sep_str then a +:+ b
  else a +:+ sep_str +:+ b.

(** [sep.join(comps)] *)
Fixpoint sep_join (comps : list string) : string :=
  match comps with
  | [] => EmptyString
  | [c] => c
  | c :: cs => c +:+ sep_str +:+ sep_join cs
  end.

(** The loop of [posixpath.normpath] over the components, for a path with
    or without initial slashes; [acc] is [new_comps] reversed. *)
Fixpoint normpath_comps (initial_slashes : bool) (acc : list string)
         (comps : list string) : list string :=
  match comps with
  | [] => rev acc
  | comp :: rest =>
      if String.eqb comp EmptyString || String.eqb comp "." then
        normpath_comps initial_slashes acc rest
      else if negb (String.eqb comp "..")
              || (negb initial_slashes && match acc with [] => true | _ => false end)
              || match acc with top :: _ => String.eqb top ".." | [] => false end
      then normpath_comps initial_slashes (comp :: acc) rest
      else match acc with
           | _ :: acc' => normpath_comps initial_slashes acc' rest
           | [] => normpath_comps initial_slashes acc rest
           end
  end.

(** The components of [os.path.abspath(path)], that is of
    [normpath(join(cwd, path))], with the empty ones removed: what
    [relpath] computes as [start_list] and [path_list]. *)
Definition abs_comps (cwd path : string) : list string :=
  let p := join cwd path in
  normpath_comps (startswith p sep_str) [] (split p).

(** Length of the common prefix of two component lists. *)
Fixpoint common_len (l1 l2 : list string) : nat :=
  match l1, l2 with
  | x :: l1', y :: l2' => if String.eqb x y then S (common_len l1' l2') else O
  | _, _ => O
  end.

(** [os.path.relpath(path, start)] in the working directory [cwd];
    [None] is the [ValueError] raised for an empty [path]. *)
Definition relpath (cwd path start : string) : option string :=
  if String.eqb path EmptyString then None
  else
    let start_list := abs_comps cwd start in
    let path_list := abs_comps cwd path in
    let i := common_len start_list path_list in
    let rel_list :=
      repeat ".."%string (length start_list - i) ++ drop i path_list in
    match rel_list with
    | [] => Some "."%string
    | _ => Some (sep_join rel_list)
    end.

(** [f"{i:03d}"]: decimal digits, padded with zeros on the left to a width
    of at least three. *)
Definition str_of_nat (i : nat) : string :=
  NilZero.string_of_uint (Nat.to_uint i).

Definition zfill (width : nat) (s : string) : string :=
  String.concat EmptyString (repeat "0"%string (width - String.length s)) +:+ s.

Definition format_03d (i : nat) : string := zfill 3 (str_of_nat i).

End Py.

(* ===================================================================== *)
(** * IEEE 754 binary arithmetic *)
(* ===================================================================== *)

Module Fl.

(** A binary format of IEEE 754: the precision (the bits of the
    significand, the hidden one included) and the width of the exponent
    field. *)
Record format := Format { prec : Z; ebits : Z }.

Definition binary32 : format := Format 24 8.
Definition binary64 : format := Format 53 11.

(** Finite values are below [2 ^ emax]; the least positive one is
    [2 ^ emin]. *)
Definition emax (f : format) : Z := 2 ^ (ebits f - 1).
Definition emin (f : format) : Z := 3 - emax f - prec f.

(** A floating-point datum: a finite value (the sign of a zero is not
    kept), an infinity, or a NaN. *)
Inductive fval :=
| Fin (q : Q)
| Inf (neg : bool)
| NaN.

Definition pow2 (e : Z) : Q := (2 ^ e)%Q.

(** [floor (log2 x)] for a positive [x]. *)
Definition ilog2 (x : Q) : Z :=
  let g := Z.log2 (Qnum x) - Z.log2 (Zpos (Qden x)) in
  if Qle_bool (pow2 g) x then g else g - 1.

(** The nearest integer, a tie going to the even one. *)
Definition round_even (y : Q) : Z :=
  let n := Qfloor y in
  match (y - inject_Z n ?= 1 # 2)%Q with
  | Lt => n
  | Gt => n + 1
  | Eq => if Z.even n then n else n + 1
  end.

(** Rounding to nearest, ties to even, of a positive number: to a multiple
    of [2 ^ e], where [e] leaves [prec] bits to the significand and is not
    below [emin] (gradual underflow). *)
Definition round_pos (f : format) (x : Q) : Q :=
  let e := Z.max (ilog2 x - prec f + 1) (emin f) in
  Qred (inject_Z (round_even (x / pow2 e)) * pow2 e).

Definition round_fin (f : format) (x : Q) : Q :=
  match (x ?= 0)%Q with
  | Eq => 0%Q
  | Gt => round_pos f x
  | Lt => (- round_pos f (- x))%Q
  end.

(** The result of an operation whose exact value is [x]: [x] rounded, or
    an infinity when that is out of range. *)
Definition fround (f : format) (x : Q) : fval :=
  let r := round_fin f x in
  if Qle_bool (pow2 (emax f)) (Qabs r)
  then Inf (match (r ?= 0)%Q with Lt => true | _ => false end)
  else Fin r.

Definition is_zero (q : Q) : bool := Qeq_bool q 0.
Definition is_neg (q : Q) : bool :=
  match (q ?= 0)%Q with Lt => true | _ => false end.

(** [x - y] *)
Definition fsub (f : format) (x y : fval) : fval :=
  match x, y with
  | NaN, _ | _, NaN => NaN
  | Inf a, Inf b => if Bool.eqb a b then NaN else Inf a
  | Inf a, Fin _ => Inf a
  | Fin _, Inf b => Inf (negb b)
  | Fin p, Fin q => fround f (p - q)
  end.

(** [x * y] *)
Definition fmul (f : format) (x y : fval) : fval :=
  match x, y with
  | NaN, _ | _, NaN => NaN
  | Inf a, Inf b => Inf (xorb a b)
  | Inf a, Fin q | Fin q, Inf a =>
      if is_zero q then NaN else Inf (xorb a (is_neg q))
  | Fin p, Fin q => fround f (p * q)
  end.

(** [x / y]; a finite zero counts as positive when it divides. *)
Definition fdiv (f : format) (x y : fval) : fval :=
  match x, y with
  | NaN, _ | _, NaN => NaN
  | Inf _, Inf _ => NaN
  | Inf a, Fin q => Inf (xorb a (is_neg q))
  | Fin _, Inf _ => Fin 0
  | Fin p, Fin q =>
      if is_zero q
      then (if is_zero p then NaN else Inf (is_neg p))
      else fround f (p / q)
  end.

(** [x > 0] *)
Definition fgt0 (x : fval) : bool :=
  match x with
  | Fin q => match (q ?= 0)%Q with Gt => true | _ => false end
  | Inf neg => negb neg
  | NaN => false
  end.

(** The value of a word in sign-magnitude reading: the sign of the integer
    is the sign bit, its magnitude the exponent field followed by the
    fraction. *)
Definition decode (f : format) (s : Z) : fval :=
  let w := Z.abs s in
  let m := w mod 2 ^ (prec f - 1) in
  let e := w / 2 ^ (prec f - 1) in
  let sgn := if s <? 0 then (-1)%Z else 1%Z in
  if 2 ^ ebits f - 1 <=? e then
    (if m =? 0 then Inf (s <? 0) else NaN)
  else if e =? 0 then
    Fin (Qred (inject_Z (sgn * m) * pow2 (emin f)))
  else
    Fin (Qred (inject_Z (sgn * (2 ^ (prec f - 1) + m)) * pow2 (e - 1 + emin f))).

Definition is_nan (x : fval) : bool :=
  match x with NaN => true | _ => false end.

(** Conversion of an integer. *)
Definition of_int (f : format) (n : Z) : fval := fround f (inject_Z n).

End Fl.

(* ===================================================================== *)
(** * numpy arrays and PIL images *)
(* ===================================================================== *)

Module Np.

(** The sample types of the scalar images [sitk.GetArrayFromImage]
    returns. *)
Inductive dtype :=
| UInt8 | Int8 | UInt16 | Int16 | UInt32 | Int32 | UInt64 | Int64
| Float32 | Float64.

Definition bits (t : dtype) : Z :=
  match t with
  | UInt8 | Int8 => 8
  | UInt16 | Int16 => 16
  | UInt32 | Int32 | Float32 => 32
  | UInt64 | Int64 | Float64 => 64
  end.

Definition is_float (t : dtype) : bool :=
  match t with
  | Float32 | Float64 => true
  | _ => false
  end.

(** The words of a signed type have a sign; those of a floating-point type
    have one too, the sign bit. *)
Definition signed (t : dtype) : bool :=
  match t with
  | UInt8 | UInt16 | UInt32 | UInt64 => false
  | _ => true
  end.

(** The least and the greatest word of a type. *)
Definition hi (t : dtype) : Z :=
  if signed t then 2 ^ (bits t - 1) - 1 else 2 ^ bits t - 1.
Definition lo (t : dtype) : Z :=
  if is_float t then - hi t
  else if signed t then - 2 ^ (bits t - 1) else 0.

(** Arithmetic in an integer type [t] wraps around. *)
Definition wrap (t : dtype) (z : Z) : Z :=
  if signed t
  then (z + 2 ^ (bits t - 1)) mod 2 ^ bits t - 2 ^ (bits t - 1)
  else z mod 2 ^ bits t.

(** The format of the division and of the product: that of the array for a
    floating-point array, [float64] for an integer one (true division of
    integers gives [float64]; the Python float [255.0] adapts to the
    array). *)
Definition format_of (t : dtype) : Fl.format :=
  match t with
  | Float32 => Fl.binary32
  | _ => Fl.binary64
  end.

(** The value of a sample of a floating-point type. *)
Definition value (t : dtype) (v : Z) : Fl.fval := Fl.decode (format_of t) v.

Definition is_nan (t : dtype) (v : Z) : bool :=
  is_float t && Fl.is_nan (value t v).

(** A 3-dimensional array: sample type, shape (depth, height, width) and
    the samples in row-major order. *)
Record ndarray := Ndarray {
  dt : dtype;
  shape : nat * nat * nat;
  data : list Z
}.

Definition depth (a : ndarray) : nat := fst (fst (shape a)).
Definition height (a : ndarray) : nat := snd (fst (shape a)).
Definition width (a : ndarray) : nat := snd (shape a).

(** One step of [np.min] and of [np.max]: a NaN wins. *)
Definition sample_min (t : dtype) (x y : Z) : Z :=
  if is_nan t x then x else if is_nan t y then y else Z.min x y.
Definition sample_max (t : dtype) (x y : Z) : Z :=
  if is_nan t x then x else if is_nan t y then y else Z.max x y.

(** [np.min(a)] and [np.max(a)]; [None] is the [ValueError] of a reduction
    over an array without elements. *)
Definition amin (a : ndarray) : option Z :=
  match data a with
  | [] => None
  | x :: xs => Some (fold_left (sample_min (dt a)) xs x)
  end.

Definition amax (a : ndarray) : option Z :=
  match data a with
  | [] => None
  | x :: xs => Some (fold_left (sample_max (dt a)) xs x)
  end.

(** [x - y] for two samples, as the division meets it: the difference in
    the sample type, which wraps for integers and is then converted to
    [float64]. *)
Definition diff (t : dtype) (x y : Z) : Fl.fval :=
  if is_float t
  then Fl.fsub (format_of t) (value t x) (value t y)
  else Fl.of_int Fl.binary64 (wrap t (x - y)).

(** The test [max_val - min_val > 0]. *)
Definition range_positive (t : dtype) (min_val max_val : Z) : bool :=
  if is_float t
  then Fl.fgt0 (Fl.fsub (format_of t) (value t max_val) (value t min_val))
  else 0 <? wrap t (max_val - min_val).

(** One sample of [(np_image - min_val) / (max_val - min_val) * 255.0]. *)
Definition rescale (t : dtype) (min_val max_val v : Z) : Fl.fval :=
  Fl.fmul (format_of t)
          (Fl.fdiv (format_of t) (diff t v min_val) (diff t max_val min_val))
          (Fl.Fin 255).

(** Truncation toward zero. *)
Definition Qtrunc (q : Q) : Z := Z.quot (Qnum q) (Zpos (Qden q)).

(** [astype(np.uint8)] of a float: the fraction is dropped.  (Outside
    [0, 256) the C conversion is platform dependent; the model reduces a
    finite value modulo 256 and takes a NaN or an infinity to 0.) *)
Definition uint8_of_float (x : Fl.fval) : Z :=
  match x with
  | Fl.Fin q => Qtrunc q mod 256
  | _ => 0
  end.

(** [astype(np.uint8)] of an integer. *)
Definition uint8_of_int (z : Z) : Z := z mod 256.

(** Step 3 of [slice_image], given the extrema: the normalised volume, of
    type [uint8]. *)
Definition normalize (a : ndarray) (min_val max_val : Z) : ndarray :=
  if range_positive (dt a) min_val max_val then
    {| dt := UInt8; shape := shape a;
       data := map (fun v => uint8_of_float (rescale (dt a) min_val max_val v))
                   (data a) |}
  else
    {| dt := UInt8; shape := shape a;
       data := map (fun _ => uint8_of_int 0) (data a) |}.

(** [a[i, j, k]] *)
Definition get (a : ndarray) (i j k : nat) : Z :=
  nth ((i * height a + j) * width a + k)%nat (data a) 0.

(** A 2-dimensional [uint8] array, and the greyscale image
    [Image.fromarray] makes of it: [rows] lines of [cols] pixels. *)
Record image := Image {
  rows : nat;
  cols : nat;
  pixels : list Z
}.

Definition tabulate2 (r c : nat) (f : nat -> nat -> Z) : image :=
  {| rows := r; cols := c;
     pixels := flat_map (fun y => map (fun x => f y x) (seq 0 c)) (seq 0 r) |}.

(** [a[i, :, :]], [a[:, i, :]] and [a[:, :, i]] *)
Definition axial (a : ndarray) (i : nat) : image :=
  tabulate2 (height a) (width a) (fun j k => get a i j k).
Definition coronal (a : ndarray) (i : nat) : image :=
  tabulate2 (depth a) (width a) (fun z k => get a z i k).
Definition sagittal (a : ndarray) (i : nat) : image :=
  tabulate2 (depth a) (height a) (fun z j => get a z j i).

(** [img_shape im = (r, c)]: the array behind the image has shape (r, c). *)
Definition img_shape (im : image) : nat * nat := (rows im, cols im).

(** What [sitk.GetArrayFromImage] can return: the buffer fills the shape,
    no extent is zero, every sample is a value of the sample type. *)
Definition volume_ok (a : ndarray) : Prop :=
  length (data a) = (depth a * height a * width a)%nat
  /\ (0 < depth a)%nat /\ (0 < height a)%nat /\ (0 < width a)%nat
  /\ Forall (fun v => lo (dt a) <= v <= hi (dt a)) (data a).

End Np.
(* ===================================================================== *)
(** * The world: output file system, messages, exceptions *)
(* ===================================================================== *)

(** The exceptions the program can meet. *)
Inductive exn :=
| RuntimeError (path : string)   (* [sitk.ReadImage] cannot load the file *)
| ValueError                     (* reduction of an empty array, empty path *)
| OSError (path : string).       (* [os.makedirs] or [img.save] refused *)

(** What the program does to the outside, in the order it does it: one
    constructor per [print] of [convert.py], and one per successful call of
    [os.makedirs] and of [img.save]. *)
Inductive event :=
| EvMissingInput (input_root : string)       (* stderr, line 80 *)
| EvStart (input_root : string)              (* stdout, line 83 *)
| EvOutputTo (output_root : string)          (* stdout, line 84 *)
| EvFound (file_path : string)               (* stdout, line 97 *)
| EvSliced (output_dir_base : string)        (* stdout, line 65 *)
| EvError (input_path : string) (e : exn)    (* stderr, line 68 *)
| EvComplete                                 (* stdout, line 114 *)
| EvMakedirs (path : string)
| EvSave (path : string) (img : Np.image).

Record world := World {
  dirs : gset string;
  files : gmap string Np.image;
  trace : list event
}.

Inductive outcome (A : Type) :=
| Ok (a : A)
| Raise (e : exn).
Arguments Ok {A} a.
Arguments Raise {A} e.

(** A computation: runs in a world, returns or raises, leaves a world. *)
Definition M (A : Type) : Type := world -> outcome A * world.

Definition ret {A} (a : A) : M A := fun w => (Ok a, w).

Definition bind {A B} (c : M A) (k : A -> M B) : M B :=
  fun w => match c w with
           | (Ok a, w') => k a w'
           | (Raise e, w') => (Raise e, w')
           end.

Definition raise {A} (e : exn) : M A := fun w => (Raise e, w).

(** [try: c except Exception as e: handler(e)] *)
Definition try_except {A} (c : M A) (handler : exn -> M A) : M A :=
  fun w => match c w with
           | (Ok a, w') => (Ok a, w')
           | (Raise e, w') => handler e w'
           end.

Declare Scope py_scope.
Delimit Scope py_scope with py.
Notation "x <- c ;; k" := (bind c (fun x => k))
  (at level 100, c at next level, k at level 200, right associativity) : py_scope.
Notation "c ;; k" := (bind c (fun _ => k))
  (at level 100, k at level 200, right associativity) : py_scope.
Local Open Scope py_scope.

(** [for x in l: body(x)] *)
Fixpoint for_each {A} (l : list A) (body : A -> M unit) : M unit :=
  match l with
  | [] => ret tt
  | x :: l' => body x ;; for_each l' body
  end.

(** [print(...)] *)
Definition print (e : event) : M unit :=
  fun w => (Ok tt, {| dirs := dirs w; files := files w; trace := trace w ++ [e] |}).

(** The prefixes of a path that end where a separator starts, and the path
    itself: the directories [os.makedirs] walks through. *)
Fixpoint cuts (p : string) : list string :=
  match p with
  | EmptyString => [EmptyString]
  | String c s =>
      (if Ascii.eqb c Py.sep then [EmptyString] else [])
      ++ map (String c) (cuts s)
  end.

Definition ancestors (p : string) : list string :=
  List.filter (fun q => negb (String.eqb q EmptyString)) (cuts p).

Definition is_file (w : world) (p : string) : bool :=
  match files w !! p with Some _ => true | None => false end.

Definition is_dir (w : world) (p : string) : bool :=
  bool_decide (p ∈ dirs w).

(** [os.makedirs(path, exist_ok=True)]: makes [path] and every missing
    ancestor a directory; directories that exist are left alone.  It fails
    when the path is empty or when the path or an ancestor is a regular
    file. *)
Definition os_makedirs (path : string) : M unit :=
  fun w =>
    if String.eqb path EmptyString then (Raise (OSError path), w)
    else if existsb (is_file w) (ancestors path) then (Raise (OSError path), w)
    else (Ok tt, {| dirs := dirs w ∪ list_to_set (ancestors path);
                    files := files w;
                    trace := trace w ++ [EvMakedirs path] |}).

(** [img.save(path)]: creates or overwrites the file; fails when [path] is a
    directory.  (The directory the file goes into is the one the program
    has just made with [os.makedirs].) *)
Definition img_save (img : Np.image) (path : string) : M unit :=
  fun w =>
    if is_dir w path then (Raise (OSError path), w)
    else (Ok tt, {| dirs := dirs w;
                    files := <[path := img]> (files w);
                    trace := trace w ++ [EvSave path img] |}).

(* ===================================================================== *)
(** * The input dataset *)
(* ===================================================================== *)

(** A directory: the names of its files and its sub-directories. *)
#[warnings="-register-all"]
Inductive tree :=
| Dir (fnames : list string) (subdirs : list (string * tree)).

(** The environment the program reads: the working directory (absolute),
    the directory found at a path, if any, and the volume [sitk.ReadImage]
    loads from a path, if it can. *)
Record dataset := Dataset {
  cwd : string;
  lookup_dir : string -> option tree;
  read_image : string -> option Np.ndarray
}.

(** [os.path.isdir(path)]; the empty path is no directory. *)
Definition os_path_isdir (ds : dataset) (path : string) : bool :=
  negb (String.eqb path EmptyString)
  && match lookup_dir ds path with Some _ => true | None => false end.

(** [os.walk(top)], top-down: the triples [(root, dirs, files)]. *)
Fixpoint walk_tree (top : string) (t : tree)
  : list (string * list string * list string) :=
  match t with
  | Dir fnames subdirs =>
      (top, map fst subdirs, fnames)
      :: flat_map (fun p => walk_tree (Py.join top (fst p)) (snd p)) subdirs
  end.

Definition os_walk (ds : dataset) (top : string)
  : list (string * list string * list string) :=
  match lookup_dir ds top with
  | Some t => walk_tree top t
  | None => []
  end.

(** [sitk.GetArrayFromImage(sitk.ReadImage(input_path))] *)
Definition sitk_read (ds : dataset) (input_path : string) : M Np.ndarray :=
  match read_image ds input_path with
  | Some a => ret a
  | None => raise (RuntimeError input_path)
  end.

Definition np_min (a : Np.ndarray) : M Z :=
  match Np.amin a with Some m => ret m | None => raise ValueError end.

Definition np_max (a : Np.ndarray) : M Z :=
  match Np.amax a with Some m => ret m | None => raise ValueError end.

Definition os_path_relpath (ds : dataset) (path start : string) : M string :=
  match Py.relpath (cwd ds) path start with
  | Some r => ret r
  | None => raise ValueError
  end.

(* ===================================================================== *)
(** * convert.py *)
(* ===================================================================== *)

(** [f"slice_{i:03d}.png"] *)
Definition slice_name (i : nat) : string :=
  "slice_" +:+ Py.format_03d i +:+ ".png".

(** The inner loop shared by the three branches of [slice_image]:
    [for i in range(num_slices): Image.fromarray(slice(i)).save(...)]. *)
Definition save_slices (plane_output_dir : string) (num_slices : nat)
           (slice_2d : nat -> Np.image) : M unit :=
  for_each (seq 0 num_slices)
           (fun i => img_save (slice_2d i) (Py.join plane_output_dir (slice_name i))).

(** The body of [for plane in planes]. *)
Definition slice_plane (np_image : Np.ndarray) (output_dir_base plane : string)
  : M unit :=
  let plane_output_dir := Py.join output_dir_base plane in
  os_makedirs plane_output_dir ;;
  if String.eqb plane "axial" then
    save_slices plane_output_dir (Np.depth np_image) (Np.axial np_image)
  else if String.eqb plane "coronal" then
    save_slices plane_output_dir (Np.height np_image) (Np.coronal np_image)
  else if String.eqb plane "sagittal" then
    save_slices plane_output_dir (Np.width np_image) (Np.sagittal np_image)
  else ret tt.

Definition default_planes : list string := ["axial"; "coronal"; "sagittal"]%string.

(** The [try] block of [slice_image]. *)
Definition slice_image_body (ds : dataset) (input_path output_dir_base : string)
           (planes : list string) : M unit :=
  a <- sitk_read ds input_path ;;
  min_val <- np_min a ;;
  max_val <- np_max a ;;
  let np_image := Np.normalize a min_val max_val in
  for_each planes (slice_plane np_image output_dir_base) ;;
  print (EvSliced output_dir_base).

Definition slice_image (ds : dataset) (input_path output_dir_base : string)
           (planes : list string) : M unit :=
  try_except (slice_image_body ds input_path output_dir_base planes)
             (fun e => print (EvError input_path e)).

Definition is_flair (root filename : string) : bool :=
  Py.contains (Py.split root) "anat" && Py.endswith filename "_FLAIR.nii.gz".

Definition is_dwi (root filename : string) : bool :=
  Py.contains (Py.split root) "dwi" && Py.endswith filename "_dwi.nii.gz".

(** The folder the Walker makes for a matched file, given the relative
    path of its directory. *)
Definition slice_output_folder (output_root relative_path filename : string)
  : string :=
  let output_path_dir := Py.join output_root relative_path in
  let base_filename := Py.replace filename ".nii.gz" EmptyString in
  Py.join output_path_dir (base_filename +:+ "_slices").

(** The body of [for filename in files]. *)
Definition process_file (ds : dataset) (input_root output_root root filename : string)
  : M unit :=
  let file_path := Py.join root filename in
  if is_flair root filename || is_dwi root filename then
    print (EvFound file_path) ;;
    relative_path <- os_path_relpath ds root input_root ;;
    let folder := slice_output_folder output_root relative_path filename in
    os_makedirs folder ;;
    slice_image ds file_path folder default_planes
  else ret tt.

Definition process_dataset (ds : dataset) (input_root output_root : string)
  : M unit :=
  if negb (os_path_isdir ds input_root) then
    print (EvMissingInput input_root)
  else
    print (EvStart input_root) ;;
    print (EvOutputTo output_root) ;;
    for_each (os_walk ds input_root)
             (fun '(root, _, fnames) =>
                for_each fnames (process_file ds input_root output_root root)) ;;
    print EvComplete.

(* ===================================================================== *)
(** * Definitions used to state the properties *)
(* ===================================================================== *)

(** The rescale as the specification words it: the quotient is rounded to
    the nearest integer (half-way cases upward). *)
Definition spec_round (q : Q) : Z := Qfloor (q + (1 # 2))%Q.

Definition spec_rescale (min_val max_val v : Z) : Z :=
  spec_round (inject_Z (v - min_val) / inject_Z (max_val - min_val)
              * inject_Z 255)%Q.

(** Rounding to the multiples of [2 ^ e], and the exponent [round_pos]
    rounds at. *)
Definition grid (e : Z) (x : Q) : Q :=
  (inject_Z (Fl.round_even (x / Fl.pow2 e)) * Fl.pow2 e)%Q.

Definition expo (f : Fl.format) (x : Q) : Z :=
  Z.max (Fl.ilog2 x - Fl.prec f + 1) (Fl.emin f).

(** A format with at least eight bits of precision and of exponent range,
    as [binary32] and [binary64] are. *)
Definition format_ok (f : Fl.format) : Prop :=
  8 <= Fl.prec f /\ 8 <= Fl.emax f /\ Fl.emin f <= 0.

(** The magnitude a finite word stands for. *)
Definition mag (f : Fl.format) (w : Z) : Q :=
  let m := w mod 2 ^ (Fl.prec f - 1) in
  let e := w / 2 ^ (Fl.prec f - 1) in
  if e =? 0 then (inject_Z m * Fl.pow2 (Fl.emin f))%Q
  else (inject_Z (2 ^ (Fl.prec f - 1) + m) * Fl.pow2 (e - 1 + Fl.emin f))%Q.

(** The maximum exceeds the minimum, and their difference is a value of the
    sample type: it does not wrap around, for a signed integer type, and
    does not overflow to infinity, for a floating-point type. *)
Definition range_ok (t : Np.dtype) (min_val max_val : Z) : Prop :=
  if Np.is_float t then
    exists n m d,
      Np.value t min_val = Fl.Fin n /\ Np.value t max_val = Fl.Fin m
      /\ (n < m)%Q
      /\ Fl.fsub (Np.format_of t) (Fl.Fin m) (Fl.Fin n) = Fl.Fin d
  else
    min_val < max_val
    /\ (Np.signed t = true -> max_val - min_val <= Np.hi t).

(** The number a floating-point value stands for, when it is finite. *)
Definition fin_part (x : Fl.fval) : Q :=
  match x with
  | Fl.Fin q => q
  | _ => 0%Q
  end.

(** The operand [v - min_val] of the division, and the sample after the
    division and the product, for finite operands [x] and [d]. *)
Definition operand (t : Np.dtype) (min_val v : Z) : Q :=
  fin_part (Np.diff t v min_val).

Definition stretch (f : Fl.format) (x d : Q) : Q :=
  Fl.round_fin f (Fl.round_fin f (x / d) * 255)%Q.

(** The difference [v - min_val] before it is rounded. *)
Definition gap (t : Np.dtype) (min_val v : Z) : Q :=
  if Np.is_float t
  then (fin_part (Np.value t v) - fin_part (Np.value t min_val))%Q
  else inject_Z (v - min_val).

(** The folder name as the specification words it: the filename without
    its [.nii.gz] suffix, then [_slices]. *)
Definition spec_strip_suffix (s suffix : string) : string :=
  if Py.endswith s suffix
  then String.substring 0 (String.length s - String.length suffix) s
  else s.

Definition spec_slice_output_folder (output_root relative_path filename : string)
  : string :=
  Py.join (Py.join output_root relative_path)
          (spec_strip_suffix filename ".nii.gz" +:+ "_slices").

(** The images saved, among some events, with their paths. *)
Fixpoint saves_of (tr : list event) : list (string * Np.image) :=
  match tr with
  | [] => []
  | EvSave p img :: tr' => (p, img) :: saves_of tr'
  | _ :: tr' => saves_of tr'
  end.

(** The files announced as found, among some events. *)
Fixpoint founds_of (tr : list event) : list string :=
  match tr with
  | [] => []
  | EvFound p :: tr' => p :: founds_of tr'
  | _ :: tr' => founds_of tr'
  end.

(** The events of a loop of [save_slices] that runs to its end. *)
Definition slices_events (plane_output_dir : string) (num_slices : nat)
           (slice_2d : nat -> Np.image) : list event :=
  map (fun i => EvSave (Py.join plane_output_dir (slice_name i)) (slice_2d i))
      (seq 0 num_slices).

(** The events of one round of [for plane in planes] that runs to its end. *)
Definition plane_events (np_image : Np.ndarray) (output_dir_base plane : string)
  : list event :=
  let d := Py.join output_dir_base plane in
  EvMakedirs d
  :: (if String.eqb plane "axial" then
        slices_events d (Np.depth np_image) (Np.axial np_image)
      else if String.eqb plane "coronal" then
        slices_events d (Np.height np_image) (Np.coronal np_image)
      else if String.eqb plane "sagittal" then
        slices_events d (Np.width np_image) (Np.sagittal np_image)
      else []).

(** The saves of one plane that is sliced to its end. *)
Definition plane_saves (base plane : string) (num_slices : nat)
           (slice_2d : nat -> Np.image) : list (string * Np.image) :=
  map (fun i => (Py.join (Py.join base plane) (slice_name i), slice_2d i))
      (seq 0 num_slices).

(** The number of slices of a plane and the slice at an index; a plane the
    program does not know has none. *)
Definition plane_extent (np_image : Np.ndarray) (plane : string) : nat :=
  if String.eqb plane "axial" then Np.depth np_image
  else if String.eqb plane "coronal" then Np.height np_image
  else if String.eqb plane "sagittal" then Np.width np_image
  else O.

Definition plane_slice (np_image : Np.ndarray) (plane : string) (i : nat)
  : Np.image :=
  if String.eqb plane "axial" then Np.axial np_image i
  else if String.eqb plane "coronal" then Np.coronal np_image i
  else Np.sagittal np_image i.

(** The files of a dataset the Walker matches, in the order of the walk. *)
Definition matched_files (listing : list (string * list string * list string))
  : list string :=
  flat_map (fun '(root, _, fnames) =>
              map (Py.join root)
                  (List.filter (fun f => is_flair root f || is_dwi root f) fnames))
           listing.

(** No path of the output file system is both a directory and a file. *)
Definition fs_ok (w : world) : Prop :=
  forall p, p ∈ dirs w -> files w !! p = None.

(** Nothing in the file system stands in the way of slicing into [base]:
    no regular file where a plane directory or one of its ancestors has to
    be, no directory where a slice has to be written. *)
Definition unobstructed (base : string) (w : world) : Prop :=
  (forall plane, In plane default_planes ->
     existsb (is_file w) (ancestors (Py.join base plane)) = false)
  /\ (forall plane i, In plane default_planes ->
        Py.join (Py.join base plane) (slice_name i) ∉ dirs w).

(** The slicer ran to its end. *)
Definition sliced_ok (ds : dataset) (input_path output_dir_base : string)
           (planes : list string) (w : world) : Prop :=
  fst (slice_image_body ds input_path output_dir_base planes w) = Ok tt.

(** The number a string of decimal digits denotes. *)
Definition parse_nat (s : string) : option nat :=
  option_map Nat.of_uint (NilZero.uint_of_string s).

(** [k] zeros. *)
Fixpoint nzeros (k : nat) : string :=
  match k with
  | O => EmptyString
  | S k' => String "0" (nzeros k')
  end.

(** What [os.path.join] puts in front of a relative second argument. *)
Definition join_prefix (a : string) : string :=
  if String.eqb a EmptyString then EmptyString
  else if Py.endswith a Py.sep_str then a
  else a +:+ Py.sep_str.

(** The file system after the saves [l], made in order. *)
Definition apply_saves (l : list (string * Np.image)) (m : gmap string Np.image)
  : gmap string Np.image :=
  fold_left (fun m ps => <[fst ps := snd ps]> m) l m.

(** The directories made, among some events. *)
Fixpoint made_dirs (tr : list event) : gset string :=
  match tr with
  | [] => ∅
  | EvMakedirs p :: tr' => list_to_set (ancestors p) ∪ made_dirs tr'
  | _ :: tr' => made_dirs tr'
  end.

(** Volumes and datasets for the examples. *)
Definition ex_vol_quarter : Np.ndarray :=
  Np.Ndarray Np.Int16 (1, 1, 3)%nat [0; 1; 4].

Definition ex_vol_wide : Np.ndarray :=
  Np.Ndarray Np.Int16 (1, 1, 2)%nat [-20000; 20000].

Definition ex_vol_small : Np.ndarray :=
  Np.Ndarray Np.Int16 (2, 2, 3)%nat [0; 1; 4; 2; 3; 4; 0; 0; 0; 1; 1; 1].

Definition empty_world : world := World ∅ ∅ [].

Definition ex_tree_two : tree :=
  Dir [] [("anat"%string, Dir ["a_FLAIR.nii.gz"; "b_FLAIR.nii.gz"]%string [])].

(** Two FLAIR volumes in [ds/anat]; the first does not load. *)
Definition ex_ds_two : dataset :=
  Dataset "/home/u"
    (fun p => if String.eqb p "ds" then Some ex_tree_two else None)
    (fun p => if String.eqb p "ds/anat/b_FLAIR.nii.gz"
              then Some ex_vol_small else None).

(** An output file system where [slide] is a regular file. *)
Definition ex_world_blocked : world :=
  World ∅ {[ "slide"%string := Np.Image 1 1 [0] ]} [].

(** One FLAIR volume, as in the scenario of the specification. *)
Definition ex_ds_one : dataset :=
  Dataset "/home/u"
    (fun p => if String.eqb p "ds004146"
              then Some (Dir [] [("sub-01"%string,
                                  Dir [] [("anat"%string,
                                           Dir ["sub-01_FLAIR.nii.gz"%string] [])])])
              else None)
    (fun p => if String.eqb p "ds004146/sub-01/anat/sub-01_FLAIR.nii.gz"
              then Some ex_vol_small else None).

(** Two files of [ds/anat] whose names differ by an inner [.nii.gz]. *)
Definition ex_ds_clash : dataset :=
  Dataset "/home/u"
    (fun p => if String.eqb p "ds"
              then Some (Dir [] [("anat"%string,
                                  Dir ["a.nii.gz_FLAIR.nii.gz"; "a_FLAIR.nii.gz"]%string
                                      [])])
              else None)
    (fun p => if String.eqb p "ds/anat/a.nii.gz_FLAIR.nii.gz"
              then Some ex_vol_small
              else if String.eqb p "ds/anat/a_FLAIR.nii.gz"
                   then Some ex_vol_quarter else None).

(** The scenario of the specification: a volume of shape (5, 10, 10) with
    the intensity 100 everywhere. *)
Definition ex_vol_scenario : Np.ndarray :=
  Np.Ndarray Np.UInt8 (5, 10, 10)%nat (repeat 100 500).

Definition ex_ds_scenario : dataset :=
  Dataset "/home/u"
    (fun p => if String.eqb p "ds004146"
              then Some (Dir [] [("sub-01"%string,
                                  Dir [] [("anat"%string,
                                           Dir ["sub-01_FLAIR.nii.gz"%string] [])])])
              else None)
    (fun p => if String.eqb p "ds004146/sub-01/anat/sub-01_FLAIR.nii.gz"
              then Some ex_vol_scenario else None).

(** A [float32] volume with the samples 0.0, 0.5 and 255.0, and an [int64]
    volume with the samples 0, [2 ^ 62 - 1] and [2 ^ 62]. *)
Definition ex_vol_float : Np.ndarray :=
  Np.Ndarray Np.Float32 (1, 1, 3)%nat [0; 0x3F000000; 0x437F0000].

Definition ex_vol_long : Np.ndarray :=
  Np.Ndarray Np.Int64 (1, 1, 3)%nat [0; 2 ^ 62 - 1; 2 ^ 62].

(** Two FLAIR volumes in [ds/anat] that both load. *)
Definition ex_ds_pair : dataset :=
  Dataset "/home/u"
    (fun p => if String.eqb p "ds" then Some ex_tree_two else None)
    (fun p => if String.eqb p "ds/anat/a_FLAIR.nii.gz"
              then Some ex_vol_quarter
              else if String.eqb p "ds/anat/b_FLAIR.nii.gz"
                   then Some ex_vol_small else None).

(** An output file system where a regular file has the name of the folder
    of the first volume, and one where a regular file has the name of the
    directory of the axial slices in that folder. *)
Definition ex_world_folder_taken : world :=
  World ∅ {[ "slide/anat/a_FLAIR_slices"%string := Np.Image 1 1 [0] ]} [].

Definition ex_world_plane_taken : world :=
  World ∅ {[ "slide/anat/a_FLAIR_slices/axial"%string := Np.Image 1 1 [0] ]} [].


(** A [float32] volume with the least and the greatest finite value of the
    type. *)
Definition ex_vol_huge : Np.ndarray :=
  Np.Ndarray Np.Float32 (1, 1, 2)%nat [- 0x7F7FFFFF; 0x7F7FFFFF].

(** A [uint8] volume that spans 0 to 255. *)
Definition ex_vol_bytes : Np.ndarray :=
  Np.Ndarray Np.UInt8 (1, 2, 2)%nat [0; 77; 200; 255].

(** [old in s] for strings. *)
Fixpoint occurs (old s : string) : bool :=
  String.prefix old s
  || match s with
     | EmptyString => false
     | String _ s' => occurs old s'
     end.

(** A dataset without any FLAIR or DWI volume. *)
Definition ex_ds_none : dataset :=
  Dataset "/home/u"
    (fun p => if String.eqb p "ds"
              then Some (Dir ["README"%string]
                             [("anat"%string, Dir ["sub-01_T1w.nii.gz"%string] [])])
              else None)
    (fun _ => None).

(** Every string of the list sorts before the next one. *)
Fixpoint ascending (l : list string) : bool :=
  match l with
  | [] => true
  | x :: l' =>
      match l' with y :: _ => String.ltb x y | [] => true end && ascending l'
  end.

(** A separator somewhere in a string. *)
Fixpoint has_sep (s : string) : bool :=
  match s with
  | EmptyString => false
  | String c s' => Ascii.eqb c Py.sep || has_sep s'
  end.

(** A name as a directory listing gives it: not empty, without separator,
    and neither [.] nor [..]. *)
Definition simple_name (d : string) : bool :=
  negb (has_sep d) && negb (String.eqb d EmptyString)
  && negb (String.eqb d ".") && negb (String.eqb d "..").

(** A tree whose sub-directories all have such names. *)
Fixpoint tree_ok (t : tree) : bool :=
  match t with
  | Dir _ subdirs =>
      forallb (fun p => simple_name (fst p) && tree_ok (snd p)) subdirs
  end.

(** The walk again, with every directory given by the names that lead to
    it from the top, and the path these names make below a top. *)
Fixpoint walk_rel (names : list string) (t : tree)
  : list (list string * list string * list string) :=
  match t with
  | Dir fnames subdirs =>
      (names, map fst subdirs, fnames)
      :: flat_map (fun p => walk_rel (names ++ [fst p]) (snd p)) subdirs
  end.

Definition path_of (top : string) (names : list string) : string :=
  fold_left Py.join names top.

(** The names joined by separators; [.] when there is none. *)
Definition rel_of (names : list string) : string :=
  match names with
  | [] => "."%string
  | _ => Py.sep_join names
  end.

(** The messages that open and close the treatment of a file: the
    announcement of a matched file, with its path, and the report of the
    slicer, success or error. *)
Fixpoint reports_of (tr : list event) : list (option string) :=
  match tr with
  | [] => []
  | EvFound p :: tr' => Some p :: reports_of tr'
  | EvSliced _ :: tr' => None :: reports_of tr'
  | EvError _ _ :: tr' => None :: reports_of tr'
  | _ :: tr' => reports_of tr'
  end.

(** The folder of a matched file of the walk. *)
Definition slice_folder_of (ds : dataset) (input_root output_root folder : string)
  : Prop :=
  exists root subdirs fnames filename rel,
    In (root, subdirs, fnames) (os_walk ds input_root)
    /\ In filename fnames
    /\ (is_flair root filename = true \/ is_dwi root filename = true)
    /\ Py.relpath (cwd ds) root input_root = Some rel
    /\ folder = slice_output_folder output_root rel filename.

(** An event that stays within the layout of the output: a directory made
    is the folder of a matched file or a plane directory in it, an image
    saved is a slice in a plane directory. *)
Definition in_layout (ds : dataset) (input_root output_root : string)
           (e : event) : Prop :=
  match e with
  | EvMakedirs q =>
      exists folder,
        slice_folder_of ds input_root output_root folder
        /\ (q = folder
            \/ exists plane, In plane default_planes /\ q = Py.join folder plane)
  | EvSave p _ =>
      exists folder plane i,
        slice_folder_of ds input_root output_root folder
        /\ In plane default_planes
        /\ p = Py.join (Py.join folder plane) (slice_name i)
  | _ => True
  end.

(* ===================================================================== *)
(** * Predicates on computations *)
(* ===================================================================== *)

(** Events of a computation, seen through a projection.
    [tracks pi c xs]: whatever [c] does, the events it adds, seen through
    [pi], are a prefix of [xs], and all of [xs] when [c] returns. *)

Definition tracks {X A} (pi : list event -> list X) (c : M A) (xs : list X)
  : Prop :=
  forall w r w', c w = (r, w') ->
    exists delta, trace w' = trace w ++ delta
      /\ pi delta `prefix_of` xs
      /\ (forall a, r = Ok a -> pi delta = xs).

(** What a call of [slice_image] adds to the trace. *)
Inductive slicer_events (ds : dataset) (input_path base : string)
          (planes : list string) : list event -> Prop :=
| slicer_done a min_val max_val :
    read_image ds input_path = Some a ->
    Np.amin a = Some min_val -> Np.amax a = Some max_val ->
    slicer_events ds input_path base planes
      (flat_map (plane_events (Np.normalize a min_val max_val) base) planes
       ++ [EvSliced base])
| slicer_unreadable :
    read_image ds input_path = None ->
    slicer_events ds input_path base planes
      [EvError input_path (RuntimeError input_path)]
| slicer_empty a :
    read_image ds input_path = Some a -> Np.amin a = None ->
    slicer_events ds input_path base planes [EvError input_path ValueError]
| slicer_stopped a min_val max_val pre e :
    read_image ds input_path = Some a ->
    Np.amin a = Some min_val -> Np.amax a = Some max_val ->
    pre `prefix_of` flat_map (plane_events (Np.normalize a min_val max_val) base) planes ->
    slicer_events ds input_path base planes
      (pre ++ [EvError input_path e]).

(** The announcement of one file, if it is matched. *)
Definition found_file (root filename : string) : list string :=
  if is_flair root filename || is_dwi root filename
  then [Py.join root filename] else [].

(** [beyond w b]: every directory and every file of [w] exists in [b]. *)
Definition beyond (w b : world) : Prop :=
  dirs w ⊆ dirs b /\ dom (files w) ⊆ dom (files b).

(** [sound c]: the file system [c] leaves behind is the one it found,
    changed by the events [c] added; [c] keeps directories and files
    apart; and in any file system that already holds all [c] has built,
    [c] takes the same course. *)
Definition sound {A} (c : M A) : Prop :=
  forall w r w', c w = (r, w') ->
    exists delta, trace w' = trace w ++ delta
      /\ files w' = apply_saves (saves_of delta) (files w)
      /\ dirs w' = dirs w ∪ made_dirs delta
      /\ (fs_ok w -> fs_ok w')
      /\ (forall b, fs_ok b -> beyond w' b ->
            exists b', c b = (r, b') /\ trace b' = trace b ++ delta).

(** [emits Q c]: every event [c] adds satisfies [Q]. *)
Definition emits {A} (Q : event -> Prop) (c : M A) : Prop :=
  forall w r w', c w = (r, w') ->
    exists delta, trace w' = trace w ++ delta /\ Forall Q delta.

(** A concrete volume is well-formed by computation. *)
Ltac volume_ok_tac :=
  unfold Np.volume_ok;
  split; [reflexivity|];
  split; [vm_compute; lia|];
  split; [vm_compute; lia|];
  split; [vm_compute; lia|];
  repeat (apply List.Forall_cons; [split; vm_compute; congruence|]);
  apply List.Forall_nil.

(* ===================================================================== *)
(** * Rounding *)
(* ===================================================================== *)

Section Rounding.

Local Open Scope Q_scope.

Lemma pow2_pos e : 0 < Fl.pow2 e.
Proof. apply Qpower_0_lt. reflexivity. Qed.

Lemma pow2_add a b : Fl.pow2 (a + b) == Fl.pow2 a * Fl.pow2 b.
Proof. apply Qpower_plus. discriminate. Qed.

Lemma pow2_succ a : Fl.pow2 (a + 1) == 2 * Fl.pow2 a.
Proof. rewrite pow2_add. unfold Fl.pow2 at 2. simpl. ring. Qed.

Lemma pow2_le a b : (a <= b)%Z -> Fl.pow2 a <= Fl.pow2 b.
Proof. intros H. apply Qpower_le_compat_l; [exact H | discriminate]. Qed.

Lemma pow2_lt a b : (a < b)%Z -> Fl.pow2 a < Fl.pow2 b.
Proof. intros H. apply Qpower_lt_compat_l; [exact H | reflexivity]. Qed.

Lemma pow2_Z e : (0 <= e)%Z -> Fl.pow2 e == inject_Z (2 ^ e).
Proof. intros H. unfold Fl.pow2. rewrite (Zpower_Qpower 2 e H). reflexivity. Qed.

Lemma pow2_cancel a : Fl.pow2 a * Fl.pow2 (- a) == 1.
Proof. rewrite <- pow2_add, Z.add_opp_diag_r. reflexivity. Qed.

Lemma div_pow2 x e : x / Fl.pow2 e == x * Fl.pow2 (- e).
Proof. unfold Qdiv, Fl.pow2. rewrite Qpower_opp. reflexivity. Qed.

(** ** The binade of a positive number *)

Lemma ilog2_spec x :
  0 < x -> Fl.pow2 (Fl.ilog2 x) <= x /\ x < Fl.pow2 (Fl.ilog2 x + 1).
Proof.
  intros Hx. destruct x as [n d]. unfold Fl.ilog2. cbn [Qnum Qden].
  assert (Hn : (0 < n)%Z) by (unfold Qlt in Hx; simpl in Hx; lia).
  pose proof (Z.log2_spec n Hn) as [Hn1 Hn2].
  pose proof (Z.log2_spec (Z.pos d) (Pos2Z.is_pos d)) as [Hd1 Hd2].
  pose proof (Z.log2_nonneg n) as Hln. pose proof (Z.log2_nonneg (Z.pos d)) as Hld.
  set (ln := Z.log2 n) in *. set (ld := Z.log2 (Z.pos d)) in *.
  assert (En : Fl.pow2 ln == inject_Z (2 ^ ln)) by (apply pow2_Z; lia).
  assert (Ed : Fl.pow2 ld == inject_Z (2 ^ ld)) by (apply pow2_Z; lia).
  assert (Eg : Fl.pow2 (ln - ld) * Fl.pow2 ld == Fl.pow2 ln).
  { rewrite <- pow2_add. replace (ln - ld + ld)%Z with ln by lia. reflexivity. }
  assert (Hx' : n # d == inject_Z n / inject_Z (Z.pos d)) by apply Qmake_Qdiv.
  assert (Hdpos : 0 < inject_Z (Z.pos d)) by (unfold Qlt; simpl; lia).
  assert (Qn1 : inject_Z (2 ^ ln) <= inject_Z n) by (rewrite <- Zle_Qle; lia).
  assert (Qn2 : inject_Z n < 2 * inject_Z (2 ^ ln)).
  { change 2 with (inject_Z 2). rewrite <- inject_Z_mult, <- Zlt_Qlt.
    rewrite Z.pow_succ_r in Hn2 by lia. lia. }
  assert (Qd1 : inject_Z (2 ^ ld) <= inject_Z (Z.pos d)) by (rewrite <- Zle_Qle; lia).
  assert (Qd2 : inject_Z (Z.pos d) < 2 * inject_Z (2 ^ ld)).
  { change 2 with (inject_Z 2). rewrite <- inject_Z_mult, <- Zlt_Qlt.
    rewrite Z.pow_succ_r in Hd2 by lia. lia. }
  pose proof (pow2_pos (ln - ld)) as Hg. pose proof (pow2_pos ld) as Hpd.
  set (N := inject_Z n) in *. set (D := inject_Z (Z.pos d)) in *.
  set (G := Fl.pow2 (ln - ld)) in *.
  rewrite <- En in *. rewrite <- Ed in *.
  set (PD := Fl.pow2 ld) in *. set (PN := Fl.pow2 ln) in *.
  assert (Hq : N / D * D == N) by (field; lra).
  set (X := N / D) in *.
  assert (Hup : X < 2 * G).
  { apply Qnot_le_lt. intros C.
    assert (2 * G * D <= X * D) by (apply Qmult_le_compat_r; lra).
    assert (G * PD <= G * D) by (apply Qmult_le_l; lra).
    nra. }
  assert (Hlo : G <= 2 * X).
  { apply Qnot_lt_le. intros C.
    assert (2 * X * D < G * D) by (apply Qmult_lt_compat_r; lra).
    assert (G * D < G * (2 * PD)) by (apply Qmult_lt_l; lra).
    nra. }
  destruct (Qle_bool G (n # d)) eqn:E.
  - apply Qle_bool_iff in E. split; [exact E|].
    rewrite pow2_succ. fold G. rewrite Hx'. exact Hup.
  - assert (Hlt : n # d < G).
    { apply Qnot_le_lt. intros C. apply Qle_bool_iff in C. congruence. }
    replace (ln - ld - 1 + 1)%Z with (ln - ld)%Z by lia. fold G.
    split; [|exact Hlt].
    assert (E2 : 2 * Fl.pow2 (ln - ld - 1) == G).
    { rewrite <- pow2_succ. replace (ln - ld - 1 + 1)%Z with (ln - ld)%Z by lia.
      reflexivity. }
    rewrite Hx'. fold X. lra.
Qed.

Lemma ilog2_unique x g :
  0 < x -> Fl.pow2 g <= x -> x < Fl.pow2 (g + 1) -> Fl.ilog2 x = g.
Proof.
  intros Hx H1 H2. destruct (ilog2_spec x Hx) as [H3 H4].
  destruct (Z.lt_trichotomy (Fl.ilog2 x) g) as [C|[C|C]]; [|exact C|].
  - exfalso. assert (Fl.pow2 (Fl.ilog2 x + 1) <= Fl.pow2 g) by (apply pow2_le; lia).
    lra.
  - exfalso. assert (Fl.pow2 (g + 1) <= Fl.pow2 (Fl.ilog2 x)) by (apply pow2_le; lia).
    lra.
Qed.

Lemma ilog2_compat x y : 0 < x -> x == y -> Fl.ilog2 x = Fl.ilog2 y.
Proof.
  intros Hx E. assert (Hy : 0 < y) by (rewrite <- E; exact Hx).
  destruct (ilog2_spec y Hy) as [H1 H2].
  apply ilog2_unique; [exact Hx | rewrite E; exact H1 | rewrite E; exact H2].
Qed.

Lemma ilog2_mono x y : 0 < x -> x <= y -> (Fl.ilog2 x <= Fl.ilog2 y)%Z.
Proof.
  intros Hx Hxy. assert (Hy : 0 < y) by lra.
  destruct (ilog2_spec x Hx) as [H1 H2]. destruct (ilog2_spec y Hy) as [H3 H4].
  destruct (Z_le_gt_dec (Fl.ilog2 x) (Fl.ilog2 y)) as [C|C]; [exact C|].
  exfalso. assert (Fl.pow2 (Fl.ilog2 y + 1) <= Fl.pow2 (Fl.ilog2 x)) by (apply pow2_le; lia).
  lra.
Qed.

(** ** The nearest integer *)

Lemma round_even_cases y :
  (Fl.round_even y = Qfloor y /\ y - inject_Z (Qfloor y) <= 1 # 2)
  \/ (Fl.round_even y = (Qfloor y + 1)%Z /\ 1 # 2 <= y - inject_Z (Qfloor y)).
Proof.
  unfold Fl.round_even.
  destruct (y - inject_Z (Qfloor y) ?= 1 # 2) eqn:E.
  - apply (proj2 (Qeq_alt _ _)) in E.
    destruct (Z.even (Qfloor y)); [left | right]; (split; [reflexivity | lra]).
  - apply (proj2 (Qlt_alt _ _)) in E. left. split; [reflexivity | lra].
  - apply (proj2 (Qgt_alt _ _)) in E. right. split; [reflexivity | lra].
Qed.

Lemma floor_bounds y : inject_Z (Qfloor y) <= y /\ y < inject_Z (Qfloor y) + 1.
Proof.
  split; [apply Qfloor_le|].
  pose proof (Qlt_floor y) as H. rewrite inject_Z_plus in H. exact H.
Qed.

Lemma round_even_bounds y :
  inject_Z (Fl.round_even y) - (1 # 2) <= y
  /\ y <= inject_Z (Fl.round_even y) + (1 # 2).
Proof.
  pose proof (floor_bounds y) as [H1 H2].
  destruct (round_even_cases y) as [[-> H]|[-> H]];
    rewrite ?inject_Z_plus; change (inject_Z 1) with 1; lra.
Qed.

Lemma round_even_compat y z : y == z -> Fl.round_even y = Fl.round_even z.
Proof.
  intros E. unfold Fl.round_even. rewrite (Qfloor_comp _ _ E).
  assert (Ec : (y - inject_Z (Qfloor z) ?= 1 # 2)
               = (z - inject_Z (Qfloor z) ?= 1 # 2)).
  { apply Qcompare_comp; [rewrite E; reflexivity | reflexivity]. }
  rewrite Ec. reflexivity.
Qed.

Lemma round_even_int y n : y == inject_Z n -> Fl.round_even y = n.
Proof.
  intros E. rewrite (round_even_compat _ _ E). unfold Fl.round_even.
  rewrite Qfloor_Z.
  assert (Ec : (inject_Z n - inject_Z n ?= 1 # 2) = Lt)
    by (apply (proj1 (Qlt_alt _ _)); lra).
  rewrite Ec. reflexivity.
Qed.

Lemma round_even_mono y z : y <= z -> (Fl.round_even y <= Fl.round_even z)%Z.
Proof.
  intros H. pose proof (Qfloor_resp_le _ _ H) as Hf.
  pose proof (floor_bounds y) as [Hy1 Hy2]. pose proof (floor_bounds z) as [Hz1 Hz2].
  destruct (Z.eq_dec (Qfloor y) (Qfloor z)) as [E|Hne].
  - destruct (round_even_cases y) as [[Ey Hy]|[Ey Hy]];
      destruct (round_even_cases z) as [[Ez Hz]|[Ez Hz]]; try lia.
    rewrite E in Hy.
    assert (Eq : y == z) by lra.
    rewrite (round_even_compat _ _ Eq). lia.
  - destruct (round_even_cases y) as [[Ey _]|[Ey _]];
      destruct (round_even_cases z) as [[Ez _]|[Ez _]]; lia.
Qed.

Lemma round_even_nonneg y : 0 <= y -> (0 <= Fl.round_even y)%Z.
Proof.
  intros H. rewrite <- (round_even_int 0 0%Z) by reflexivity.
  apply round_even_mono, H.
Qed.

(** ** Rounding to the multiples of a power of two *)

Lemma scale_le e x y : x <= y -> x / Fl.pow2 e <= y / Fl.pow2 e.
Proof.
  intros H. rewrite !div_pow2. pose proof (pow2_pos (- e)).
  apply Qmult_le_compat_r; lra.
Qed.

Lemma grid_mono e x y : x <= y -> grid e x <= grid e y.
Proof.
  intros H. unfold grid. pose proof (pow2_pos e).
  apply Qmult_le_compat_r; [|lra].
  rewrite <- Zle_Qle. apply round_even_mono, scale_le, H.
Qed.

Lemma grid_exact e x n : x == inject_Z n * Fl.pow2 e -> grid e x == x.
Proof.
  intros E. unfold grid. pose proof (pow2_pos e).
  rewrite (round_even_int _ n); [symmetry; exact E|].
  rewrite E. field. lra.
Qed.

Lemma grid_error e x :
  grid e x - Fl.pow2 e * (1 # 2) <= x /\ x <= grid e x + Fl.pow2 e * (1 # 2).
Proof.
  unfold grid. pose proof (pow2_pos e) as Hp.
  pose proof (round_even_bounds (x / Fl.pow2 e)) as [H1 H2].
  assert (E : x / Fl.pow2 e * Fl.pow2 e == x) by (field; lra).
  set (z := x / Fl.pow2 e) in *. set (r := inject_Z (Fl.round_even z)) in *.
  assert ((r - (1 # 2)) * Fl.pow2 e <= z * Fl.pow2 e)
    by (apply Qmult_le_compat_r; lra).
  assert (z * Fl.pow2 e <= (r + (1 # 2)) * Fl.pow2 e)
    by (apply Qmult_le_compat_r; lra).
  lra.
Qed.

(** ** Rounding to a format *)

Lemma round_pos_grid f x : Fl.round_pos f x == grid (expo f x) x.
Proof. unfold Fl.round_pos. cbv zeta. rewrite Qred_correct. reflexivity. Qed.

Lemma round_pos_compat f x y :
  0 < x -> x == y -> Fl.round_pos f x = Fl.round_pos f y.
Proof.
  intros Hx E. unfold Fl.round_pos. cbv zeta.
  rewrite (ilog2_compat x y Hx E). apply Qred_complete.
  set (e := Z.max _ _).
  rewrite (round_even_compat (x / Fl.pow2 e) (y / Fl.pow2 e));
    [reflexivity | rewrite E; reflexivity].
Qed.

Lemma round_pos_nonneg f x : 0 < x -> 0 <= Fl.round_pos f x.
Proof.
  intros Hx. rewrite round_pos_grid. unfold grid.
  pose proof (pow2_pos (expo f x)) as Hp.
  apply Qmult_le_0_compat; [|lra].
  change 0 with (inject_Z 0). rewrite <- Zle_Qle.
  apply round_even_nonneg. rewrite div_pow2.
  pose proof (pow2_pos (- expo f x)). apply Qmult_le_0_compat; lra.
Qed.

Lemma round_pos_mono f x y :
  (1 <= Fl.prec f)%Z -> 0 < x -> x <= y ->
  Fl.round_pos f x <= Fl.round_pos f y.
Proof.
  intros Hp Hx Hxy. assert (Hy : 0 < y) by lra.
  rewrite !round_pos_grid.
  pose proof (ilog2_mono x y Hx Hxy) as Hl.
  destruct (Z.eq_dec (expo f x) (expo f y)) as [E|Hne].
  - rewrite E. apply grid_mono, Hxy.
  - assert (Hlt : (expo f x < expo f y)%Z) by (unfold expo in *; lia).
    assert (Ey : expo f y = (Fl.ilog2 y - Fl.prec f + 1)%Z)
      by (unfold expo in *; lia).
    assert (Hll : (Fl.ilog2 x + 1 <= Fl.ilog2 y)%Z) by (unfold expo in *; lia).
    destruct (ilog2_spec x Hx) as [_ Hx2]. destruct (ilog2_spec y Hy) as [Hy1 _].
    set (b := Fl.pow2 (Fl.ilog2 y)) in *.
    assert (Hxb : x <= b).
    { pose proof (pow2_le _ _ Hll). fold b in H. lra. }
    apply Qle_trans with b.
    + rewrite <- (grid_exact (expo f x) b (2 ^ (Fl.ilog2 y - expo f x))).
      * apply grid_mono, Hxb.
      * rewrite <- pow2_Z by lia. rewrite <- pow2_add. unfold b.
        replace (Fl.ilog2 y - expo f x + expo f x)%Z with (Fl.ilog2 y) by lia.
        reflexivity.
    + rewrite <- (grid_exact (expo f y) b (2 ^ (Fl.prec f - 1))) at 1.
      * apply grid_mono, Hy1.
      * rewrite <- pow2_Z by lia. rewrite <- pow2_add. unfold b.
        replace (Fl.prec f - 1 + expo f y)%Z with (Fl.ilog2 y) by lia.
        reflexivity.
Qed.

(** An integer of at most [prec] bits is a value of the format. *)
Lemma round_pos_int f n :
  (1 <= Fl.prec f)%Z -> (Fl.emin f <= 0)%Z ->
  (0 < n < 2 ^ Fl.prec f)%Z ->
  Fl.round_pos f (inject_Z n) == inject_Z n.
Proof.
  intros Hp He Hn. rewrite round_pos_grid.
  assert (Hx : 0 < inject_Z n) by (change 0 with (inject_Z 0); rewrite <- Zlt_Qlt; lia).
  destruct (ilog2_spec _ Hx) as [H1 _].
  assert (Hl : (Fl.ilog2 (inject_Z n) < Fl.prec f)%Z).
  { destruct (Z_lt_ge_dec (Fl.ilog2 (inject_Z n)) (Fl.prec f)) as [C|C]; [exact C|].
    exfalso. assert (Fl.pow2 (Fl.prec f) <= Fl.pow2 (Fl.ilog2 (inject_Z n)))
      by (apply pow2_le; lia).
    rewrite pow2_Z in H by lia.
    assert (inject_Z n < inject_Z (2 ^ Fl.prec f)) by (rewrite <- Zlt_Qlt; lia).
    lra. }
  assert (Hex : (expo f (inject_Z n) <= 0)%Z) by (unfold expo; lia).
  apply (grid_exact _ _ (n * 2 ^ (- expo f (inject_Z n)))).
  rewrite inject_Z_mult, <- pow2_Z by lia.
  rewrite <- Qmult_assoc, <- pow2_add.
  replace (- expo f (inject_Z n) + expo f (inject_Z n))%Z with 0%Z by lia.
  change (Fl.pow2 0) with 1. ring.
Qed.

(** The relative error of a rounding that does not underflow. *)
Lemma round_pos_error f x :
  0 < x -> (Fl.emin f <= Fl.ilog2 x - Fl.prec f + 1)%Z ->
  Fl.round_pos f x - x * Fl.pow2 (- Fl.prec f) <= x
  /\ x <= Fl.round_pos f x + x * Fl.pow2 (- Fl.prec f).
Proof.
  intros Hx Hn. rewrite round_pos_grid.
  assert (Ee : expo f x = (Fl.ilog2 x - Fl.prec f + 1)%Z) by (unfold expo; lia).
  rewrite Ee. pose proof (grid_error (Fl.ilog2 x - Fl.prec f + 1) x) as [H1 H2].
  destruct (ilog2_spec x Hx) as [Hl _].
  assert (E : Fl.pow2 (Fl.ilog2 x - Fl.prec f + 1) * (1 # 2)
              == Fl.pow2 (Fl.ilog2 x) * Fl.pow2 (- Fl.prec f)).
  { replace (Fl.ilog2 x - Fl.prec f + 1)%Z
      with ((Fl.ilog2 x + - Fl.prec f) + 1)%Z by lia.
    rewrite pow2_succ, pow2_add. ring. }
  rewrite E in H1, H2. pose proof (pow2_pos (- Fl.prec f)) as Hu.
  assert (Fl.pow2 (Fl.ilog2 x) * Fl.pow2 (- Fl.prec f)
          <= x * Fl.pow2 (- Fl.prec f)) by (apply Qmult_le_compat_r; lra).
  lra.
Qed.

Lemma round_fin_zero f x : x == 0 -> Fl.round_fin f x = 0.
Proof.
  intros E. unfold Fl.round_fin. apply (proj1 (Qeq_alt _ _)) in E. rewrite E. reflexivity.
Qed.

Lemma round_fin_pos f x : 0 < x -> Fl.round_fin f x = Fl.round_pos f x.
Proof.
  intros H. unfold Fl.round_fin. apply (proj1 (Qgt_alt _ _)) in H. rewrite H. reflexivity.
Qed.

Lemma round_fin_compat f x y : x == y -> Fl.round_fin f x = Fl.round_fin f y.
Proof.
  intros E. unfold Fl.round_fin.
  rewrite (Qcompare_comp x y E 0 0 (Qeq_refl 0)).
  destruct (y ?= 0) eqn:C; [reflexivity| |].
  - apply (proj2 (Qlt_alt _ _)) in C. f_equal. apply round_pos_compat; [lra | rewrite E; reflexivity].
  - apply (proj2 (Qgt_alt _ _)) in C. apply round_pos_compat; [lra | exact E].
Qed.

Lemma round_fin_nonneg f x : 0 <= x -> 0 <= Fl.round_fin f x.
Proof.
  intros H. destruct (Qlt_le_dec 0 x) as [Hp|Hz].
  - rewrite round_fin_pos by exact Hp. apply round_pos_nonneg, Hp.
  - rewrite round_fin_zero by lra. lra.
Qed.

Lemma round_fin_mono f x y :
  (1 <= Fl.prec f)%Z -> 0 <= x -> x <= y ->
  Fl.round_fin f x <= Fl.round_fin f y.
Proof.
  intros Hp Hx Hxy. destruct (Qlt_le_dec 0 x) as [Hpos|Hz].
  - rewrite !round_fin_pos by lra. apply round_pos_mono; assumption.
  - rewrite (round_fin_zero f x) by lra. apply round_fin_nonneg. lra.
Qed.

Lemma round_fin_int f n :
  (1 <= Fl.prec f)%Z -> (Fl.emin f <= 0)%Z ->
  (0 <= n < 2 ^ Fl.prec f)%Z ->
  Fl.round_fin f (inject_Z n) == inject_Z n.
Proof.
  intros Hp He Hn. destruct (Z.eq_dec n 0%Z) as [->|Hne].
  - rewrite round_fin_zero; reflexivity.
  - rewrite round_fin_pos
      by (change 0 with (inject_Z 0); rewrite <- Zlt_Qlt; lia).
    apply round_pos_int; [exact Hp | exact He | lia].
Qed.

(** A rounded value below [2 ^ emax] is finite. *)
Lemma fround_fin f x :
  0 <= x -> Fl.round_fin f x < Fl.pow2 (Fl.emax f) ->
  Fl.fround f x = Fl.Fin (Fl.round_fin f x).
Proof.
  intros Hx Hr. unfold Fl.fround. cbv zeta.
  pose proof (round_fin_nonneg f x Hx) as Hn.
  rewrite (Qabs_pos _ Hn) by exact Hn.
  destruct (Qle_bool (Fl.pow2 (Fl.emax f)) (Fl.round_fin f x)) eqn:E;
    [|reflexivity].
  apply Qle_bool_iff in E. lra.
Qed.

(** ** The quotient of two finite values and its product by 255 *)

Lemma fround_fin_inv f x d :
  0 <= x -> Fl.fround f x = Fl.Fin d ->
  d = Fl.round_fin f x /\ Fl.round_fin f x < Fl.pow2 (Fl.emax f).
Proof.
  intros Hx. unfold Fl.fround. cbv zeta.
  pose proof (round_fin_nonneg f x Hx) as Hn.
  rewrite (Qabs_pos _ Hn).
  destruct (Qle_bool (Fl.pow2 (Fl.emax f)) (Fl.round_fin f x)) eqn:E;
    [discriminate|].
  intros [= <-]. split; [reflexivity|].
  apply Qnot_le_lt. intros C. apply Qle_bool_iff in C. congruence.
Qed.

Lemma format_ok_prec f : format_ok f -> (1 <= Fl.prec f)%Z.
Proof. intros (H & _). lia. Qed.

Lemma round_fin_one f : format_ok f -> Fl.round_fin f 1 == 1.
Proof.
  intros (Hp & He & Hm). apply (round_fin_int f 1); [lia | lia |].
  split; [lia|]. apply Z.pow_gt_1; lia.
Qed.

Lemma round_fin_255 f : format_ok f -> Fl.round_fin f 255 == 255.
Proof.
  intros (Hp & He & Hm). apply (round_fin_int f 255); [lia | lia |].
  split; [lia|].
  apply Z.lt_le_trans with (2 ^ 8)%Z; [reflexivity|].
  apply Z.pow_le_mono_r; lia.
Qed.

Lemma pow2_emax_big f : format_ok f -> 255 < Fl.pow2 (Fl.emax f).
Proof.
  intros (_ & He & _).
  apply Qlt_le_trans with (Fl.pow2 8); [reflexivity | apply pow2_le, He].
Qed.

(** The quotient and the product, for [0 <= x <= d] and [0 < d]. *)
Lemma stretch_fin f x d :
  format_ok f -> 0 <= x -> x <= d -> 0 < d ->
  Fl.fdiv f (Fl.Fin x) (Fl.Fin d) = Fl.Fin (Fl.round_fin f (x / d))
  /\ 0 <= Fl.round_fin f (x / d) <= 1
  /\ Fl.fmul f (Fl.Fin (Fl.round_fin f (x / d))) (Fl.Fin 255)
     = Fl.Fin (Fl.round_fin f (Fl.round_fin f (x / d) * 255))
  /\ 0 <= Fl.round_fin f (Fl.round_fin f (x / d) * 255) <= 255.
Proof.
  intros Hf Hx Hxd Hd. pose proof (format_ok_prec f Hf) as Hp.
  pose proof (pow2_emax_big f Hf) as Hbig.
  assert (Hq : 0 <= x / d /\ x / d <= 1).
  { split.
    - apply Qle_shift_div_l; lra.
    - apply Qle_shift_div_r; lra. }
  assert (Hk : 0 <= Fl.round_fin f (x / d) <= 1).
  { split; [apply round_fin_nonneg; lra|].
    rewrite <- (round_fin_one f Hf). apply round_fin_mono; [exact Hp | lra | lra]. }
  assert (Hr : 0 <= Fl.round_fin f (Fl.round_fin f (x / d) * 255) <= 255).
  { split; [apply round_fin_nonneg; lra|].
    rewrite <- (round_fin_255 f Hf) at 2.
    apply round_fin_mono; [exact Hp | lra | lra]. }
  split.
  { unfold Fl.fdiv, Fl.is_zero.
    destruct (Qeq_bool d 0) eqn:E; [apply Qeq_bool_eq in E; lra|].
    apply fround_fin; lra. }
  split; [exact Hk|]. split; [|exact Hr].
  unfold Fl.fmul. apply fround_fin; lra.
Qed.

Lemma stretch_mono f x y d :
  format_ok f -> 0 <= x -> x <= y -> y <= d -> 0 < d ->
  Fl.round_fin f (Fl.round_fin f (x / d) * 255)
  <= Fl.round_fin f (Fl.round_fin f (y / d) * 255).
Proof.
  intros Hf Hx Hxy Hyd Hd. pose proof (format_ok_prec f Hf) as Hp.
  assert (H0 : 0 <= x / d) by (apply Qle_shift_div_l; lra).
  assert (H1 : x / d <= y / d).
  { unfold Qdiv. apply Qmult_le_compat_r; [exact Hxy|].
    apply Qlt_le_weak, Qinv_lt_0_compat, Hd. }
  pose proof (round_fin_nonneg f (x / d) H0).
  pose proof (round_fin_mono f _ _ Hp H0 H1).
  apply round_fin_mono; [exact Hp | lra | lra].
Qed.

Lemma stretch_zero f x d :
  x == 0 -> Fl.round_fin f (Fl.round_fin f (x / d) * 255) == 0.
Proof.
  intros E. assert (E1 : x / d == 0) by (rewrite E; unfold Qdiv; ring).
  rewrite (round_fin_zero f _ E1). rewrite round_fin_zero; [reflexivity | ring].
Qed.

Lemma stretch_full f x d :
  format_ok f -> 0 < d -> x == d ->
  Fl.round_fin f (Fl.round_fin f (x / d) * 255) == 255.
Proof.
  intros Hf Hd E. assert (E1 : x / d == 1) by (rewrite E; field; lra).
  rewrite (round_fin_compat f _ _ E1).
  assert (E2 : Fl.round_fin f 1 * 255 == 255) by (rewrite (round_fin_one f Hf); ring).
  rewrite (round_fin_compat f _ _ E2). apply round_fin_255, Hf.
Qed.

(** ** The arithmetic of [binary64] on small integers is exact enough *)

Lemma binary64_ok : format_ok Fl.binary64.
Proof. unfold format_ok. vm_compute. intuition discriminate. Qed.

Lemma binary32_ok : format_ok Fl.binary32.
Proof. unfold format_ok. vm_compute. intuition discriminate. Qed.

Lemma floor_unique q k :
  inject_Z k <= q -> q < inject_Z (k + 1) -> Qfloor q = k.
Proof.
  intros H1 H2. pose proof (floor_bounds q) as [H3 H4].
  pose proof (Qfloor_resp_le _ _ H1) as H5. rewrite Qfloor_Z in H5.
  assert (H6 : inject_Z (Qfloor q) < inject_Z (k + 1)) by lra.
  rewrite <- Zlt_Qlt in H6. lia.
Qed.

(** [m / 255 * 255] is computed exactly for [m] from 0 to 255. *)
Lemma stretch_table k :
  (0 <= k <= 255)%Z ->
  Fl.round_fin Fl.binary64
    (Fl.round_fin Fl.binary64 (inject_Z k / 255) * 255) == inject_Z k.
Proof.
  intros Hk.
  assert (T : forallb (fun n =>
                Qeq_bool (Fl.round_fin Fl.binary64
                            (Fl.round_fin Fl.binary64
                               (inject_Z (Z.of_nat n) / 255) * 255))
                         (inject_Z (Z.of_nat n)))
              (seq 0 256) = true) by (vm_compute; reflexivity).
  rewrite forallb_forall in T. specialize (T (Z.to_nat k)).
  rewrite Z2Nat.id in T by lia. apply Qeq_bool_eq, T, in_seq. lia.
Qed.

Lemma ilog2_lower x e : Fl.pow2 e <= x -> (e <= Fl.ilog2 x)%Z.
Proof.
  intros H. pose proof (pow2_pos e) as Hp. assert (Hx : 0 < x) by lra.
  destruct (ilog2_spec x Hx) as [_ H2].
  destruct (Z_le_gt_dec e (Fl.ilog2 x)) as [C|C]; [exact C|].
  exfalso. assert (Fl.pow2 (Fl.ilog2 x + 1) <= Fl.pow2 e) by (apply pow2_le; lia).
  lra.
Qed.

(** Two roundings move a number between 0 and 255 by less than
    [2 ^ (- 43)]. *)
Lemma stretch_near y c :
  Fl.pow2 (- 32) <= y -> y <= 1 ->
  0 <= c <= 255 ->
  c + (1 # 4294967296) <= 255 * y -> 255 * y <= c + 1 - (1 # 4294967296) ->
  c < Fl.round_fin Fl.binary64 (Fl.round_fin Fl.binary64 y * 255)
  /\ Fl.round_fin Fl.binary64 (Fl.round_fin Fl.binary64 y * 255) < c + 1.
Proof.
  intros Hy2 Hy1 Hc Hlo Hhi.
  assert (Hy0 : 0 < y) by (pose proof (pow2_pos (- 32)); lra).
  assert (Ee : Fl.pow2 (- 32) == 1 # 4294967296) by reflexivity.
  assert (Eu : Fl.pow2 (- Fl.prec Fl.binary64) == 1 # 9007199254740992)
    by reflexivity.
  assert (Em : (Fl.emin Fl.binary64 <= - 32 - Fl.prec Fl.binary64 + 1)%Z)
    by (vm_compute; discriminate).
  pose proof (ilog2_lower y (- 32) Hy2) as Hl1.
  pose proof (round_pos_error Fl.binary64 y Hy0 ltac:(lia)) as Hk1.
  rewrite Eu in Hk1.
  rewrite <- (round_fin_pos Fl.binary64 y Hy0) in Hk1.
  rewrite Ee in Hy2.
  set (kap := Fl.round_fin Fl.binary64 y) in *.
  assert (Hz0 : 0 < kap * 255) by lra.
  assert (Hz2 : Fl.pow2 (- 32) <= kap * 255) by (rewrite Ee; lra).
  pose proof (ilog2_lower _ (- 32) Hz2) as Hl2.
  pose proof (round_pos_error Fl.binary64 (kap * 255) Hz0 ltac:(lia)) as Hk2.
  rewrite Eu in Hk2.
  rewrite <- (round_fin_pos Fl.binary64 _ Hz0) in Hk2.
  set (rho := Fl.round_fin Fl.binary64 (kap * 255)) in *.
  split; lra.
Qed.

(** For two integers below [2 ^ 32] the fraction dropped at the end is the
    fraction of the exact quotient. *)
Lemma stretch_exact a d :
  (0 <= a <= d)%Z -> (0 < d < 2 ^ 32)%Z ->
  Qfloor (Fl.round_fin Fl.binary64
            (Fl.round_fin Fl.binary64 (inject_Z a / inject_Z d) * 255))
  = (255 * a / d)%Z.
Proof.
  intros Ha Hd.
  pose proof (Z.div_mod (255 * a) d ltac:(lia)) as Hdm.
  pose proof (Z.mod_pos_bound (255 * a) d ltac:(lia)) as Hr.
  set (k := (255 * a / d)%Z) in *. set (r := ((255 * a) mod d)%Z) in *.
  assert (Hk : (0 <= k <= 255)%Z).
  { split; [apply Z.div_pos; lia|]. apply Z.div_le_upper_bound; nia. }
  assert (HD : 0 < inject_Z d) by (change 0 with (inject_Z 0); rewrite <- Zlt_Qlt; lia).
  assert (HD2 : inject_Z d <= 4294967296).
  { change 4294967296 with (inject_Z 4294967296). rewrite <- Zle_Qle.
    change (2 ^ 32)%Z with 4294967296%Z in Hd. lia. }
  assert (EQ : 255 * inject_Z a == inject_Z d * inject_Z k + inject_Z r).
  { change 255 with (inject_Z 255).
    rewrite <- !inject_Z_mult, <- inject_Z_plus, Hdm. reflexivity. }
  assert (HK : 0 <= inject_Z k <= 255).
  { change 0 with (inject_Z 0). change 255 with (inject_Z 255).
    rewrite <- !Zle_Qle. exact Hk. }
  set (y := inject_Z a / inject_Z d).
  assert (Ey : y * inject_Z d == inject_Z a) by (unfold y; field; lra).
  destruct (Z.eq_dec r 0%Z) as [Hr0|Hr0].
  - assert (E : y == inject_Z k / 255).
    { rewrite Hr0 in EQ. change (inject_Z 0) with 0 in EQ.
      apply (Qmult_inj_r _ _ (inject_Z d));
        [apply Qnot_eq_sym, Qlt_not_eq, HD|].
      rewrite Ey.
      assert (E1 : inject_Z k / 255 * inject_Z d
                   == (inject_Z d * inject_Z k) / 255) by field.
      rewrite E1. rewrite Qplus_0_r in EQ. rewrite <- EQ. field. }
    rewrite (round_fin_compat _ _ _ E).
    rewrite (Qfloor_comp _ _ (stretch_table k Hk)). apply Qfloor_Z.
  - assert (HR : 1 <= inject_Z r /\ inject_Z r <= inject_Z d - 1).
    { assert (H1 : inject_Z 1 <= inject_Z r) by (rewrite <- Zle_Qle; lia).
      assert (H2 : inject_Z (r + 1) <= inject_Z d) by (rewrite <- Zle_Qle; lia).
      rewrite inject_Z_plus in H2. change (inject_Z 1) with 1 in *. lra. }
    assert (HA : 1 <= inject_Z a).
    { change 1 with (inject_Z 1). rewrite <- Zle_Qle. nia. }
    assert (He : (1 # 4294967296) * inject_Z d <= 1) by lra.
    assert (Hy1 : y <= 1).
    { unfold y. apply Qle_shift_div_r; [exact HD|].
      rewrite Qmult_1_l, <- Zle_Qle. lia. }
    assert (Hy2 : Fl.pow2 (- 32) <= y).
    { assert (Ee : Fl.pow2 (- 32) == 1 # 4294967296) by reflexivity.
      rewrite Ee. apply Qnot_lt_le. intros C.
      assert (y * inject_Z d < (1 # 4294967296) * inject_Z d)
        by (apply Qmult_lt_compat_r; lra).
      lra. }
    assert (Hlo : inject_Z k + (1 # 4294967296) <= 255 * y).
    { apply Qnot_lt_le. intros C.
      assert (255 * y * inject_Z d < (inject_Z k + (1 # 4294967296)) * inject_Z d)
        by (apply Qmult_lt_compat_r; lra).
      nra. }
    assert (Hhi : 255 * y <= inject_Z k + 1 - (1 # 4294967296)).
    { apply Qnot_lt_le. intros C.
      assert ((inject_Z k + 1 - (1 # 4294967296)) * inject_Z d < 255 * y * inject_Z d)
        by (apply Qmult_lt_compat_r; lra).
      nra. }
    destruct (stretch_near y (inject_Z k) Hy2 Hy1 HK Hlo Hhi) as [H1 H2].
    apply floor_unique; [lra|].
    rewrite inject_Z_plus. exact H2.
Qed.

(** ** The words of a format *)

Lemma mag_nonneg f w : (0 <= w)%Z -> (1 <= Fl.prec f)%Z -> 0 <= mag f w.
Proof.
  intros Hw Hp. unfold mag. cbv zeta.
  assert (HP : (0 < 2 ^ (Fl.prec f - 1))%Z) by (apply Z.pow_pos_nonneg; lia).
  pose proof (Z.mod_pos_bound w _ HP) as Hm.
  destruct (w / 2 ^ (Fl.prec f - 1) =? 0)%Z.
  - pose proof (pow2_pos (Fl.emin f)).
    apply Qmult_le_0_compat; [|lra].
    change 0 with (inject_Z 0). rewrite <- Zle_Qle. lia.
  - pose proof (pow2_pos (w / 2 ^ (Fl.prec f - 1) - 1 + Fl.emin f)).
    apply Qmult_le_0_compat; [|lra].
    change 0 with (inject_Z 0). rewrite <- Zle_Qle. lia.
Qed.

(** Below the second binade the magnitude is the word itself, in units of
    [2 ^ emin]. *)
Lemma mag_low f w :
  (1 <= Fl.prec f)%Z -> (0 <= w)%Z -> (w / 2 ^ (Fl.prec f - 1) <= 1)%Z ->
  mag f w == inject_Z w * Fl.pow2 (Fl.emin f).
Proof.
  intros Hp Hw He. unfold mag. cbv zeta.
  assert (HP : (0 < 2 ^ (Fl.prec f - 1))%Z) by (apply Z.pow_pos_nonneg; lia).
  pose proof (Z.div_mod w _ (Z.neq_sym _ _ (Z.lt_neq _ _ HP))) as Hdm.
  pose proof (Z.div_pos w _ Hw HP) as He0.
  destruct (Z.eqb_spec (w / 2 ^ (Fl.prec f - 1))%Z 0%Z) as [E|E].
  - rewrite E in Hdm. replace (w mod 2 ^ (Fl.prec f - 1))%Z with w by lia.
    reflexivity.
  - assert (E1 : (w / 2 ^ (Fl.prec f - 1) = 1)%Z) by lia.
    rewrite E1 in *. replace (1 - 1 + Fl.emin f)%Z with (Fl.emin f) by lia.
    replace (2 ^ (Fl.prec f - 1) + w mod 2 ^ (Fl.prec f - 1))%Z with w by lia.
    reflexivity.
Qed.

(** In a binade from the first on, the magnitude lies between the powers
    of two that bound the binade. *)
Lemma mag_binade f w :
  (1 <= Fl.prec f)%Z -> (0 <= w)%Z -> (1 <= w / 2 ^ (Fl.prec f - 1))%Z ->
  Fl.pow2 (Fl.prec f - 1 + (w / 2 ^ (Fl.prec f - 1) - 1 + Fl.emin f)) <= mag f w
  /\ mag f w < Fl.pow2 (Fl.prec f + (w / 2 ^ (Fl.prec f - 1) - 1 + Fl.emin f)).
Proof.
  intros Hp Hw He. unfold mag. cbv zeta.
  assert (HP : (0 < 2 ^ (Fl.prec f - 1))%Z) by (apply Z.pow_pos_nonneg; lia).
  pose proof (Z.mod_pos_bound w _ HP) as Hm.
  destruct (Z.eqb_spec (w / 2 ^ (Fl.prec f - 1))%Z 0%Z) as [E|_]; [lia|].
  set (e := (w / 2 ^ (Fl.prec f - 1) - 1 + Fl.emin f)%Z).
  set (m := (w mod 2 ^ (Fl.prec f - 1))%Z) in *.
  pose proof (pow2_pos e) as Hpe.
  rewrite !pow2_add. rewrite (pow2_Z (Fl.prec f - 1)), (pow2_Z (Fl.prec f)) by lia.
  split.
  - apply Qmult_le_compat_r; [|lra]. rewrite <- Zle_Qle. lia.
  - apply Qmult_lt_compat_r; [lra|]. rewrite <- Zlt_Qlt.
    replace (Fl.prec f) with (Z.succ (Fl.prec f - 1)) at 2 by lia.
    rewrite Z.pow_succ_r by lia. lia.
Qed.

Lemma mag_mono f w1 w2 :
  (1 <= Fl.prec f)%Z -> (0 <= w1)%Z -> (w1 <= w2)%Z -> mag f w1 <= mag f w2.
Proof.
  intros Hp Hw1 Hw.
  assert (HP : (0 < 2 ^ (Fl.prec f - 1))%Z) by (apply Z.pow_pos_nonneg; lia).
  pose proof (Z.div_le_mono w1 w2 _ HP Hw) as He.
  pose proof (Z.div_pos w1 _ Hw1 HP) as He1.
  destruct (Z_le_gt_dec (w2 / 2 ^ (Fl.prec f - 1))%Z 1%Z) as [Hlow|Hhigh].
  - rewrite !mag_low by lia. pose proof (pow2_pos (Fl.emin f)).
    apply Qmult_le_compat_r; [|lra]. rewrite <- Zle_Qle. exact Hw.
  - destruct (Z.eq_dec (w1 / 2 ^ (Fl.prec f - 1))%Z (w2 / 2 ^ (Fl.prec f - 1))%Z)
      as [E|Hne].
    + unfold mag. cbv zeta. rewrite E.
      pose proof (Z.div_mod w1 _ (Z.neq_sym _ _ (Z.lt_neq _ _ HP))) as Hd1.
      pose proof (Z.div_mod w2 _ (Z.neq_sym _ _ (Z.lt_neq _ _ HP))) as Hd2.
      rewrite E in Hd1.
      destruct (Z.eqb_spec (w2 / 2 ^ (Fl.prec f - 1))%Z 0%Z) as [C|_]; [lia|].
      pose proof (pow2_pos (w2 / 2 ^ (Fl.prec f - 1) - 1 + Fl.emin f)).
      apply Qmult_le_compat_r; [|lra]. rewrite <- Zle_Qle. lia.
    + destruct (mag_binade f w2 Hp ltac:(lia) ltac:(lia)) as [H2 _].
      apply Qle_trans
        with (Fl.pow2 (Fl.prec f - 1
                       + (w2 / 2 ^ (Fl.prec f - 1) - 1 + Fl.emin f)));
        [|exact H2].
      destruct (Z_le_gt_dec (w1 / 2 ^ (Fl.prec f - 1))%Z 0%Z) as [Hz|Hnz].
      * rewrite mag_low by lia.
        assert (Hb : inject_Z w1 * Fl.pow2 (Fl.emin f)
                     <= Fl.pow2 (Fl.prec f - 1) * Fl.pow2 (Fl.emin f)).
        { pose proof (pow2_pos (Fl.emin f)).
          apply Qmult_le_compat_r; [|lra].
          rewrite pow2_Z by lia. rewrite <- Zle_Qle.
          pose proof (Z.div_mod w1 _ (Z.neq_sym _ _ (Z.lt_neq _ _ HP))).
          pose proof (Z.mod_pos_bound w1 _ HP). nia. }
        rewrite <- pow2_add in Hb.
        eapply Qle_trans; [exact Hb|]. apply pow2_le. lia.
      * destruct (mag_binade f w1 Hp Hw1 ltac:(lia)) as [_ H1].
        apply Qlt_le_weak. eapply Qlt_le_trans; [exact H1|].
        apply pow2_le. lia.
Qed.

(** A finite word, and what it decodes to. *)
Lemma decode_fin f s q :
  Fl.decode f s = Fl.Fin q ->
  (Z.abs s / 2 ^ (Fl.prec f - 1) < 2 ^ Fl.ebits f - 1)%Z
  /\ q == (if (s <? 0)%Z then - mag f (Z.abs s) else mag f (Z.abs s)).
Proof.
  unfold Fl.decode, mag. cbv zeta.
  destruct (Z.leb_spec (2 ^ Fl.ebits f - 1)%Z (Z.abs s / 2 ^ (Fl.prec f - 1))%Z)
    as [C|C].
  { destruct (_ =? 0)%Z; discriminate. }
  split; [exact C|].
  destruct (Z.abs s / 2 ^ (Fl.prec f - 1) =? 0)%Z; injection H as <-;
    rewrite Qred_correct, inject_Z_mult; destruct (s <? 0)%Z;
      [change (inject_Z (-1)) with (- (1)) | change (inject_Z 1) with 1
      |change (inject_Z (-1)) with (- (1)) | change (inject_Z 1) with 1]; ring.
Qed.

Lemma decode_fin_intro f s :
  (Z.abs s / 2 ^ (Fl.prec f - 1) < 2 ^ Fl.ebits f - 1)%Z ->
  exists q, Fl.decode f s = Fl.Fin q.
Proof.
  intros C. unfold Fl.decode. cbv zeta.
  destruct (Z.leb_spec (2 ^ Fl.ebits f - 1)%Z (Z.abs s / 2 ^ (Fl.prec f - 1))%Z);
    [lia|].
  destruct (_ =? 0)%Z; eauto.
Qed.

(** The order of the finite words is the order of their values. *)
Lemma decode_mono f s1 s2 q1 q2 :
  (1 <= Fl.prec f)%Z ->
  Fl.decode f s1 = Fl.Fin q1 -> Fl.decode f s2 = Fl.Fin q2 ->
  (s1 <= s2)%Z -> q1 <= q2.
Proof.
  intros Hp H1 H2 Hs.
  destruct (decode_fin _ _ _ H1) as [_ E1].
  destruct (decode_fin _ _ _ H2) as [_ E2].
  rewrite E1, E2.
  pose proof (mag_nonneg f (Z.abs s1) (Z.abs_nonneg _) Hp).
  pose proof (mag_nonneg f (Z.abs s2) (Z.abs_nonneg _) Hp).
  destruct (Z.ltb_spec s1 0%Z); destruct (Z.ltb_spec s2 0%Z); try lra; try lia.
  - assert (mag f (Z.abs s2) <= mag f (Z.abs s1))
      by (apply mag_mono; [exact Hp | lia | lia]).
    lra.
  - apply mag_mono; [exact Hp | lia | lia].
Qed.

(** A word between two finite words is finite. *)
Lemma decode_between f s1 s s2 q1 q2 :
  (1 <= Fl.prec f)%Z ->
  Fl.decode f s1 = Fl.Fin q1 -> Fl.decode f s2 = Fl.Fin q2 ->
  (s1 <= s <= s2)%Z -> exists q, Fl.decode f s = Fl.Fin q.
Proof.
  intros Hp H1 H2 Hs.
  destruct (decode_fin _ _ _ H1) as [C1 _].
  destruct (decode_fin _ _ _ H2) as [C2 _].
  apply decode_fin_intro.
  assert (HP : (0 < 2 ^ (Fl.prec f - 1))%Z) by (apply Z.pow_pos_nonneg; lia).
  destruct (Z_le_gt_dec (Z.abs s) (Z.abs s1)) as [L|L].
  - pose proof (Z.div_le_mono _ _ _ HP L). lia.
  - assert (L2 : (Z.abs s <= Z.abs s2)%Z) by lia.
    pose proof (Z.div_le_mono _ _ _ HP L2). lia.
Qed.

End Rounding.

Section Units.

Local Open Scope Q_scope.

(** Every finite value is a multiple of the least positive one. *)
Lemma mag_units f w :
  (1 <= Fl.prec f)%Z -> (0 <= w)%Z ->
  exists n, mag f w == inject_Z n * Fl.pow2 (Fl.emin f).
Proof.
  intros Hp Hw. unfold mag. cbv zeta.
  assert (HP : (0 < 2 ^ (Fl.prec f - 1))%Z) by (apply Z.pow_pos_nonneg; lia).
  pose proof (Z.div_pos w _ Hw HP) as He.
  destruct (Z.eqb_spec (w / 2 ^ (Fl.prec f - 1))%Z 0%Z) as [E|E].
  - eexists. reflexivity.
  - set (e := (w / 2 ^ (Fl.prec f - 1))%Z) in *.
    exists ((2 ^ (Fl.prec f - 1) + w mod 2 ^ (Fl.prec f - 1)) * 2 ^ (e - 1))%Z.
    rewrite inject_Z_mult, <- pow2_Z by lia.
    rewrite <- Qmult_assoc, <- pow2_add. reflexivity.
Qed.

Lemma decode_units f s q :
  (1 <= Fl.prec f)%Z -> Fl.decode f s = Fl.Fin q ->
  exists n, q == inject_Z n * Fl.pow2 (Fl.emin f).
Proof.
  intros Hp H. destruct (decode_fin _ _ _ H) as [_ E].
  destruct (mag_units f (Z.abs s) Hp (Z.abs_nonneg s)) as [n En].
  destruct (s <? 0)%Z.
  - exists (- n)%Z. rewrite E, En, inject_Z_opp. ring.
  - exists n. rewrite E, En. reflexivity.
Qed.

Lemma ilog2_pow2 e : Fl.ilog2 (Fl.pow2 e) = e.
Proof.
  apply ilog2_unique; [apply pow2_pos | apply Qle_refl | apply pow2_lt; lia].
Qed.

Lemma round_pos_least f :
  (1 <= Fl.prec f)%Z ->
  Fl.round_pos f (Fl.pow2 (Fl.emin f)) == Fl.pow2 (Fl.emin f).
Proof.
  intros Hp. rewrite round_pos_grid.
  assert (E : expo f (Fl.pow2 (Fl.emin f)) = Fl.emin f).
  { unfold expo. rewrite ilog2_pow2. lia. }
  rewrite E. apply (grid_exact _ _ 1). change (inject_Z 1) with 1. ring.
Qed.

(** The difference of two finite values, the second the greater, does not
    round to zero. *)
Lemma fround_diff_pos f s1 s2 n m d :
  (1 <= Fl.prec f)%Z ->
  Fl.decode f s1 = Fl.Fin n -> Fl.decode f s2 = Fl.Fin m -> n < m ->
  Fl.fround f (m - n) = Fl.Fin d -> 0 < d.
Proof.
  intros Hp H1 H2 Hlt Hd.
  destruct (decode_units f s1 n Hp H1) as [k1 E1].
  destruct (decode_units f s2 m Hp H2) as [k2 E2].
  pose proof (pow2_pos (Fl.emin f)) as He.
  assert (Hk : (k1 < k2)%Z).
  { destruct (Z_lt_ge_dec k1 k2) as [C|C]; [exact C|]. exfalso.
    assert (inject_Z k2 <= inject_Z k1) by (rewrite <- Zle_Qle; lia).
    assert (inject_Z k2 * Fl.pow2 (Fl.emin f) <= inject_Z k1 * Fl.pow2 (Fl.emin f))
      by (apply Qmult_le_compat_r; lra).
    lra. }
  assert (Hge : Fl.pow2 (Fl.emin f) <= m - n).
  { rewrite E1, E2.
    assert (inject_Z (k1 + 1) <= inject_Z k2) by (rewrite <- Zle_Qle; lia).
    rewrite inject_Z_plus in H. change (inject_Z 1) with 1 in H.
    assert ((inject_Z k1 + 1) * Fl.pow2 (Fl.emin f)
            <= inject_Z k2 * Fl.pow2 (Fl.emin f))
      by (apply Qmult_le_compat_r; lra).
    lra. }
  destruct (fround_fin_inv f (m - n) d ltac:(lra) Hd) as [-> _].
  rewrite round_fin_pos by lra.
  pose proof (round_pos_mono f _ _ Hp He Hge) as Hm.
  rewrite round_pos_least in Hm by exact Hp. lra.
Qed.

End Units.

(* ===================================================================== *)
(** * Normalisation (step 3 of [slice_image]) *)
(* ===================================================================== *)

Section Normalisation.

(** ** The extrema *)

Lemma fold_min_spec t xs : forall x,
  In (fold_left (Np.sample_min t) xs x) (x :: xs)
  /\ (Np.is_nan t (fold_left (Np.sample_min t) xs x) = true
      \/ Forall (fun v => Np.is_nan t v = false
                          /\ fold_left (Np.sample_min t) xs x <= v) (x :: xs)).
Proof.
  induction xs as [|y xs IH]; intros x.
  - simpl. split; [left; reflexivity|].
    destruct (Np.is_nan t x) eqn:E; [left; reflexivity|].
    right. repeat constructor; [exact E | lia].
  - cbn [fold_left]. destruct (IH (Np.sample_min t x y)) as [Hin Hb].
    set (r := fold_left (Np.sample_min t) xs (Np.sample_min t x y)) in *.
    assert (Hxy : Np.sample_min t x y = x \/ Np.sample_min t x y = y).
    { unfold Np.sample_min. destruct (Np.is_nan t x); [auto|].
      destruct (Np.is_nan t y); [auto|]. lia. }
    split.
    { destruct Hin as [E|Hin].
      - destruct Hxy as [H|H]; rewrite H in E; [left | right; left]; exact E.
      - right. right. exact Hin. }
    destruct Hb as [Hn|Hall]; [left; exact Hn|]. right.
    inversion Hall as [|? ? [Hs Hle] Hrest]; subst.
    unfold Np.sample_min in Hs, Hle.
    destruct (Np.is_nan t x) eqn:Ex; [congruence|].
    destruct (Np.is_nan t y) eqn:Ey; [congruence|].
    constructor; [split; [exact Ex | lia]|].
    constructor; [split; [exact Ey | lia] | exact Hrest].
Qed.

Lemma fold_max_spec t xs : forall x,
  In (fold_left (Np.sample_max t) xs x) (x :: xs)
  /\ (Np.is_nan t (fold_left (Np.sample_max t) xs x) = true
      \/ Forall (fun v => Np.is_nan t v = false
                          /\ v <= fold_left (Np.sample_max t) xs x) (x :: xs)).
Proof.
  induction xs as [|y xs IH]; intros x.
  - simpl. split; [left; reflexivity|].
    destruct (Np.is_nan t x) eqn:E; [left; reflexivity|].
    right. repeat constructor; [exact E | lia].
  - cbn [fold_left]. destruct (IH (Np.sample_max t x y)) as [Hin Hb].
    set (r := fold_left (Np.sample_max t) xs (Np.sample_max t x y)) in *.
    assert (Hxy : Np.sample_max t x y = x \/ Np.sample_max t x y = y).
    { unfold Np.sample_max. destruct (Np.is_nan t x); [auto|].
      destruct (Np.is_nan t y); [auto|]. lia. }
    split.
    { destruct Hin as [E|Hin].
      - destruct Hxy as [H|H]; rewrite H in E; [left | right; left]; exact E.
      - right. right. exact Hin. }
    destruct Hb as [Hn|Hall]; [left; exact Hn|]. right.
    inversion Hall as [|? ? [Hs Hle] Hrest]; subst.
    unfold Np.sample_max in Hs, Hle.
    destruct (Np.is_nan t x) eqn:Ex; [congruence|].
    destruct (Np.is_nan t y) eqn:Ey; [congruence|].
    constructor; [split; [exact Ex | lia]|].
    constructor; [split; [exact Ey | lia] | exact Hrest].
Qed.

(** The minimum is a sample; unless it is a NaN, no sample is one and none
    is below it. *)
Lemma amin_spec a m :
  Np.amin a = Some m ->
  In m (Np.data a)
  /\ (Np.is_nan (Np.dt a) m = true
      \/ Forall (fun v => Np.is_nan (Np.dt a) v = false /\ m <= v) (Np.data a)).
Proof.
  unfold Np.amin. destruct (Np.data a) as [|x xs]; [discriminate|].
  intros [= <-]. apply fold_min_spec.
Qed.

Lemma amax_spec a m :
  Np.amax a = Some m ->
  In m (Np.data a)
  /\ (Np.is_nan (Np.dt a) m = true
      \/ Forall (fun v => Np.is_nan (Np.dt a) v = false /\ v <= m) (Np.data a)).
Proof.
  unfold Np.amax. destruct (Np.data a) as [|x xs]; [discriminate|].
  intros [= <-]. apply fold_max_spec.
Qed.

(** With extrema that are no NaN, every sample lies between them. *)
Lemma extrema_between a mn mx :
  Np.amin a = Some mn -> Np.amax a = Some mx ->
  Np.is_nan (Np.dt a) mn = false -> Np.is_nan (Np.dt a) mx = false ->
  In mn (Np.data a) /\ In mx (Np.data a)
  /\ forall v, In v (Np.data a) -> mn <= v <= mx.
Proof.
  intros Hmn Hmx Nmn Nmx.
  destruct (amin_spec _ _ Hmn) as [I1 [C|A1]]; [congruence|].
  destruct (amax_spec _ _ Hmx) as [I2 [C|A2]]; [congruence|].
  split; [exact I1|]. split; [exact I2|].
  rewrite List.Forall_forall in A1, A2. intros v Hv.
  split; [apply A1, Hv | apply A2, Hv].
Qed.

Lemma is_nan_int t v : Np.is_float t = false -> Np.is_nan t v = false.
Proof. unfold Np.is_nan. intros ->. reflexivity. Qed.

Lemma is_nan_fin t v q : Np.value t v = Fl.Fin q -> Np.is_nan t v = false.
Proof. unfold Np.is_nan. intros ->. apply andb_false_r. Qed.

(** ** Integer samples *)

Lemma lo_nonpos t : Np.lo t <= 0.
Proof. destruct t; vm_compute; discriminate. Qed.

Lemma hi_bound t : 0 < Np.hi t < 2 ^ 64.
Proof. destruct t; vm_compute; split; reflexivity. Qed.

Lemma wrap_id t z : Np.lo t <= z <= Np.hi t -> Np.wrap t z = z.
Proof.
  unfold Np.wrap, Np.lo, Np.hi.
  destruct t; simpl;
    change (2 ^ (8 - 1)) with 128; change (2 ^ 8) with 256;
    change (2 ^ (16 - 1)) with 32768; change (2 ^ 16) with 65536;
    change (2 ^ (32 - 1)) with 2147483648; change (2 ^ 32) with 4294967296;
    change (2 ^ (64 - 1)) with 9223372036854775808;
    change (2 ^ 64) with 18446744073709551616;
    intros H; try (rewrite Z.mod_small by lia; lia).
Qed.

Lemma wrap_overflow t z :
  Np.is_float t = false ->
  Np.signed t = true -> Np.hi t < z <= Np.hi t - Np.lo t -> Np.wrap t z < 0.
Proof.
  unfold Np.wrap, Np.lo, Np.hi. intros Hf Hs. rewrite Hs, Hf.
  destruct t; try discriminate; simpl;
    change (2 ^ (8 - 1)) with 128; change (2 ^ 8) with 256;
    change (2 ^ (16 - 1)) with 32768; change (2 ^ 16) with 65536;
    change (2 ^ (32 - 1)) with 2147483648; change (2 ^ 32) with 4294967296;
    change (2 ^ (64 - 1)) with 9223372036854775808;
    change (2 ^ 64) with 18446744073709551616;
    intros H.
  - replace (z + 128) with ((z - 128) + 1 * 256) by lia.
    rewrite Z.mod_add, Z.mod_small by lia. lia.
  - replace (z + 32768) with ((z - 32768) + 1 * 65536) by lia.
    rewrite Z.mod_add, Z.mod_small by lia. lia.
  - replace (z + 2147483648) with ((z - 2147483648) + 1 * 4294967296) by lia.
    rewrite Z.mod_add, Z.mod_small by lia. lia.
  - replace (z + 9223372036854775808)
      with ((z - 9223372036854775808) + 1 * 18446744073709551616) by lia.
    rewrite Z.mod_add, Z.mod_small by lia. lia.
Qed.

Lemma wrap_zero t : Np.wrap t 0 = 0.
Proof. destruct t; reflexivity. Qed.

Lemma Qtrunc_floor q : 0 <= Qnum q -> Np.Qtrunc q = Qfloor q.
Proof.
  destruct q as [n d]. unfold Np.Qtrunc, Qfloor. simpl. intros H.
  apply Z.quot_div_nonneg; lia.
Qed.

End Normalisation.

Section Rescale.

Lemma rescale_floor (a d : Z) :
  0 <= a -> 0 < d ->
  Qfloor (inject_Z a / inject_Z d * inject_Z 255)%Q = 255 * a / d.
Proof.
  intros Ha Hd.
  assert (E : (inject_Z a / inject_Z d * inject_Z 255
               == inject_Z (255 * a) / inject_Z d)%Q).
  { rewrite inject_Z_mult. field.
    intros C. apply (Qeq_bool_neq (inject_Z d) 0); [|exact C].
    destruct d; try lia; reflexivity. }
  rewrite E, <- Zdiv_Qdiv. reflexivity.
Qed.

Lemma format_of_ok t : format_ok (Np.format_of t).
Proof. destruct t; first [exact binary32_ok | exact binary64_ok]. Qed.

Lemma fround_val f x d : Fl.fround f x = Fl.Fin d -> d = Fl.round_fin f x.
Proof.
  unfold Fl.fround. cbv zeta. destruct (Qle_bool _ _); [discriminate|].
  intros [= <-]. reflexivity.
Qed.

Lemma round_fin_nonpos f x : (x <= 0)%Q -> (Fl.round_fin f x <= 0)%Q.
Proof.
  intros H. unfold Fl.round_fin. destruct (x ?= 0)%Q eqn:C.
  - lra.
  - apply (proj2 (Qlt_alt _ _)) in C.
    pose proof (round_pos_nonneg f (- x)%Q ltac:(lra)). lra.
  - apply (proj2 (Qgt_alt _ _)) in C. lra.
Qed.

Lemma round_fin_gt0 f x : (0 < Fl.round_fin f x)%Q -> (0 < x)%Q.
Proof.
  intros H. destruct (Qlt_le_dec 0 x) as [L|L]; [exact L|].
  pose proof (round_fin_nonpos f x L). lra.
Qed.

(** A finite array: the floor of a value from 0 to 255. *)
Lemma uint8_of_fin r :
  (0 <= r <= 255)%Q ->
  Np.uint8_of_float (Fl.Fin r) = Qfloor r /\ 0 <= Qfloor r <= 255.
Proof.
  intros [H0 H1].
  assert (B : 0 <= Qfloor r <= 255).
  { split.
    - change 0 with (Qfloor 0). apply Qfloor_resp_le, H0.
    - change 255 with (Qfloor 255). apply Qfloor_resp_le, H1. }
  split; [|exact B]. unfold Np.uint8_of_float.
  rewrite Qtrunc_floor.
  - apply Z.mod_small. lia.
  - destruct r as [n d]. unfold Qle in H0. simpl in *. lia.
Qed.

(** ** Integers as [float64] *)

Lemma of_int_fin n :
  0 <= n < 2 ^ 64 ->
  Fl.of_int Fl.binary64 n = Fl.Fin (Fl.round_fin Fl.binary64 (inject_Z n))
  /\ (0 <= Fl.round_fin Fl.binary64 (inject_Z n))%Q.
Proof.
  intros [H0 H1].
  assert (Hq : (0 <= inject_Z n)%Q).
  { change 0%Q with (inject_Z 0). rewrite <- Zle_Qle. exact H0. }
  split; [|apply round_fin_nonneg, Hq].
  unfold Fl.of_int. apply fround_fin; [exact Hq|].
  apply Qle_lt_trans with (Fl.round_fin Fl.binary64 (inject_Z (2 ^ 64))).
  - apply round_fin_mono; [vm_compute; discriminate | exact Hq |].
    rewrite <- Zle_Qle. lia.
  - vm_compute. reflexivity.
Qed.

Lemma of_int_pos n :
  0 < n < 2 ^ 64 -> (1 <= Fl.round_fin Fl.binary64 (inject_Z n))%Q.
Proof.
  intros [H0 H1].
  apply Qle_trans with (Fl.round_fin Fl.binary64 1).
  - rewrite (round_fin_one _ binary64_ok). lra.
  - apply round_fin_mono; [vm_compute; discriminate | lra |].
    change 1%Q with (inject_Z 1). rewrite <- Zle_Qle. lia.
Qed.

Lemma of_int_gt0 n : Fl.fgt0 (Fl.of_int Fl.binary64 n) = (0 <? n).
Proof.
  unfold Fl.of_int, Fl.fround. cbv zeta.
  set (r := Fl.round_fin Fl.binary64 (inject_Z n)).
  destruct (Z.ltb_spec 0 n) as [Hp|Hn].
  - assert (Hr : (0 < r)%Q).
    { apply Qlt_le_trans with (Fl.round_fin Fl.binary64 1).
      - rewrite (round_fin_one _ binary64_ok). lra.
      - apply round_fin_mono; [vm_compute; discriminate | lra |].
        change 1%Q with (inject_Z 1). rewrite <- Zle_Qle. lia. }
    assert (C : (r ?= 0)%Q = Gt) by (apply (proj1 (Qgt_alt _ _)); exact Hr).
    destruct (Qle_bool _ _); simpl; rewrite C; reflexivity.
  - assert (Hr : (r <= 0)%Q).
    { apply round_fin_nonpos. change 0%Q with (inject_Z 0).
      rewrite <- Zle_Qle. exact Hn. }
    destruct (r ?= 0)%Q eqn:C.
    + destruct (Qle_bool _ _) eqn:B; simpl; [|rewrite C; reflexivity].
      exfalso. apply Qle_bool_iff in B. apply (proj2 (Qeq_alt _ _)) in C.
      pose proof (pow2_pos (Fl.emax Fl.binary64)) as Hp.
      rewrite C in B. change (Qabs 0) with 0%Q in B. lra.
    + destruct (Qle_bool _ _); simpl; [|rewrite C]; reflexivity.
    + apply (proj2 (Qgt_alt _ _)) in C. lra.
Qed.

(** ** The test and the difference of the extrema *)

Lemma range_positive_diff t mn mx :
  Np.range_positive t mn mx = Fl.fgt0 (Np.diff t mx mn).
Proof.
  unfold Np.range_positive, Np.diff. destruct (Np.is_float t); [reflexivity|].
  symmetry. apply of_int_gt0.
Qed.

Lemma fmul_zero t : Fl.fmul (Np.format_of t) (Fl.Fin 0) (Fl.Fin 255) = Fl.Fin 0.
Proof. destruct t; vm_compute; reflexivity. Qed.

(** With an infinite difference of the extrema every quotient is 0 or a
    NaN. *)
Lemma rescale_inf t mn mx v b :
  Np.diff t mx mn = Fl.Inf b ->
  Np.uint8_of_float (Np.rescale t mn mx v) = 0.
Proof.
  intros H. unfold Np.rescale. rewrite H.
  destruct (Np.diff t v mn) as [x| |]; cbn [Fl.fdiv]; try reflexivity.
  rewrite fmul_zero. reflexivity.
Qed.

Lemma fsub_fin f x y d :
  Fl.fsub f x y = Fl.Fin d ->
  exists p q, x = Fl.Fin p /\ y = Fl.Fin q /\ Fl.fround f (p - q) = Fl.Fin d.
Proof.
  destruct x as [p|a|], y as [q|b|]; simpl; try discriminate.
  - intros H. exists p, q. auto.
  - destruct (Bool.eqb a b); discriminate.
Qed.

(** The quotient and the product for finite operands. *)
Lemma rescale_fin t mn mx v x d :
  Np.diff t v mn = Fl.Fin x -> Np.diff t mx mn = Fl.Fin d ->
  (0 <= x <= d)%Q -> (0 < d)%Q ->
  Np.rescale t mn mx v = Fl.Fin (stretch (Np.format_of t) x d)
  /\ (0 <= stretch (Np.format_of t) x d <= 255)%Q
  /\ Np.uint8_of_float (Np.rescale t mn mx v)
     = Qfloor (stretch (Np.format_of t) x d)
  /\ 0 <= Qfloor (stretch (Np.format_of t) x d) <= 255.
Proof.
  intros Hx Hd [Hx0 Hxd] Hd0.
  destruct (stretch_fin (Np.format_of t) x d (format_of_ok t) Hx0 Hxd Hd0)
    as (E1 & _ & E2 & B).
  assert (E : Np.rescale t mn mx v = Fl.Fin (stretch (Np.format_of t) x d)).
  { unfold Np.rescale. rewrite Hx, Hd, E1, E2. reflexivity. }
  split; [exact E|]. split; [exact B|].
  rewrite E. apply uint8_of_fin, B.
Qed.

End Rescale.

Section Operands.

Lemma volume_words a v :
  Np.volume_ok a -> In v (Np.data a) ->
  Np.lo (Np.dt a) <= v <= Np.hi (Np.dt a).
Proof.
  intros (_ & _ & _ & _ & H) Hin. rewrite List.Forall_forall in H.
  apply H, Hin.
Qed.

(** Between two samples of an integer volume the difference computed in
    the sample type is positive only when it did not wrap. *)
Lemma wrap_pos_fits t mn mx :
  Np.is_float t = false ->
  Np.lo t <= mn -> mn <= mx -> mx <= Np.hi t ->
  0 < Np.wrap t (mx - mn) -> mx - mn <= Np.hi t.
Proof.
  intros Hf Hlo Hle Hhi Hpos.
  destruct (Np.signed t) eqn:Es.
  - destruct (Z_le_gt_dec (mx - mn) (Np.hi t)) as [H|H]; [exact H|].
    exfalso. assert (Np.wrap t (mx - mn) < 0); [|lia].
    apply wrap_overflow; [exact Hf | exact Es | lia].
  - unfold Np.lo in Hlo. rewrite Hf, Es in Hlo. lia.
Qed.

(** The operands of the division, from the differences before rounding:
    these grow with the sample and are 0 at the minimum. *)
Lemma operand_core t f mn mx d :
  (1 <= Fl.prec f)%Z ->
  (forall v, mn <= v <= mx -> Np.diff t v mn = Fl.fround f (gap t mn v)) ->
  (forall v1 v2, mn <= v1 -> v1 <= v2 -> v2 <= mx ->
     (gap t mn v1 <= gap t mn v2)%Q) ->
  (gap t mn mn == 0)%Q ->
  mn <= mx ->
  Np.diff t mx mn = Fl.Fin d ->
  forall v, mn <= v <= mx ->
    Np.diff t v mn = Fl.Fin (operand t mn v)
    /\ operand t mn v = Fl.round_fin f (gap t mn v)
    /\ (0 <= gap t mn v)%Q
    /\ (0 <= operand t mn v <= d)%Q.
Proof.
  intros Hp Hdiff Hmono Hzero Hle Hd v Hv.
  assert (G0 : (0 <= gap t mn v)%Q).
  { rewrite <- Hzero. apply Hmono; lia. }
  assert (G1 : (gap t mn v <= gap t mn mx)%Q) by (apply Hmono; lia).
  assert (Gx : (0 <= gap t mn mx)%Q) by lra.
  rewrite (Hdiff mx ltac:(lia)) in Hd.
  destruct (fround_fin_inv _ _ _ Gx Hd) as [Ed Hlt].
  assert (R1 : (Fl.round_fin f (gap t mn v) <= d)%Q).
  { rewrite Ed. apply round_fin_mono; assumption. }
  assert (E : Np.diff t v mn = Fl.Fin (Fl.round_fin f (gap t mn v))).
  { rewrite (Hdiff v Hv). apply fround_fin; [exact G0|].
    apply Qle_lt_trans with d; [exact R1 | rewrite Ed; exact Hlt]. }
  assert (Eo : operand t mn v = Fl.round_fin f (gap t mn v)).
  { unfold operand. rewrite E. reflexivity. }
  rewrite Eo. split; [exact E|]. split; [reflexivity|]. split; [exact G0|].
  split; [apply round_fin_nonneg, G0 | exact R1].
Qed.

Lemma fround_compat f x y : (x == y)%Q -> Fl.fround f x = Fl.fround f y.
Proof.
  intros E. unfold Fl.fround. rewrite (round_fin_compat f x y E). reflexivity.
Qed.

(** The samples of a volume whose extrema differ by a finite positive
    amount. *)
Lemma operands a mn mx d :
  Np.volume_ok a -> Np.amin a = Some mn -> Np.amax a = Some mx ->
  Np.diff (Np.dt a) mx mn = Fl.Fin d -> (0 < d)%Q ->
  In mn (Np.data a) /\ In mx (Np.data a)
  /\ (Np.is_float (Np.dt a) = false -> 0 < mx - mn <= Np.hi (Np.dt a))
  /\ (forall v, In v (Np.data a) ->
        mn <= v <= mx
        /\ Np.diff (Np.dt a) v mn = Fl.Fin (operand (Np.dt a) mn v)
        /\ operand (Np.dt a) mn v
           = Fl.round_fin (Np.format_of (Np.dt a)) (gap (Np.dt a) mn v)
        /\ (0 <= gap (Np.dt a) mn v)%Q
        /\ (0 <= operand (Np.dt a) mn v <= d)%Q)
  /\ (forall v1 v2, In v1 (Np.data a) -> In v2 (Np.data a) -> v1 <= v2 ->
        (operand (Np.dt a) mn v1 <= operand (Np.dt a) mn v2)%Q)
  /\ (operand (Np.dt a) mn mn == 0)%Q
  /\ operand (Np.dt a) mn mx = d.
Proof.
  intros Hok Hmn Hmx Hd Hpos.
  set (t := Np.dt a) in *.
  pose proof (format_ok_prec _ (format_of_ok t)) as Hp.
  assert (Hmx_op : operand t mn mx = d).
  { unfold operand. rewrite Hd. reflexivity. }
  assert (Hcore :
    In mn (Np.data a) /\ In mx (Np.data a)
    /\ (forall v, In v (Np.data a) -> mn <= v <= mx)
    /\ (Np.is_float t = false -> 0 < mx - mn <= Np.hi t)
    /\ (forall v, mn <= v <= mx ->
          Np.diff t v mn = Fl.fround (Np.format_of t) (gap t mn v))
    /\ (forall v1 v2, mn <= v1 -> v1 <= v2 -> v2 <= mx ->
          (gap t mn v1 <= gap t mn v2)%Q)
    /\ (gap t mn mn == 0)%Q).
  { destruct (Np.is_float t) eqn:Ef.
    - (* a floating-point volume *)
      assert (Hd' := Hd). unfold Np.diff in Hd'. rewrite Ef in Hd'.
      destruct (fsub_fin _ _ _ _ Hd') as (m & n & Vm & Vn & Hr).
      destruct (extrema_between a mn mx Hmn Hmx
                  (is_nan_fin _ _ _ Vn) (is_nan_fin _ _ _ Vm))
        as (I1 & I2 & Hb).
      split; [exact I1|]. split; [exact I2|]. split; [exact Hb|].
      split; [discriminate|].
      assert (Hval : forall v, mn <= v <= mx ->
                exists q, Np.value t v = Fl.Fin q).
      { intros v Hv. unfold Np.value in *.
        apply (decode_between _ mn v mx n m Hp Vn Vm Hv). }
      split; [|split].
      + intros v Hv. destruct (Hval v Hv) as [q Vq].
        unfold Np.diff, gap. rewrite Ef, Vq, Vn. reflexivity.
      + intros v1 v2 H1 H12 H2.
        destruct (Hval v1 ltac:(lia)) as [q1 V1].
        destruct (Hval v2 ltac:(lia)) as [q2 V2].
        unfold gap. rewrite Ef, V1, V2, Vn. simpl.
        assert (q1 <= q2)%Q; [|lra].
        unfold Np.value in *. apply (decode_mono _ v1 v2 q1 q2 Hp V1 V2 H12).
      + unfold gap. rewrite Ef, Vn. simpl. ring.
    - (* an integer volume *)
      destruct (extrema_between a mn mx Hmn Hmx
                  (is_nan_int _ _ Ef) (is_nan_int _ _ Ef))
        as (I1 & I2 & Hb).
      pose proof (volume_words a mn Hok I1) as Wmn.
      pose proof (volume_words a mx Hok I2) as Wmx.
      fold t in Wmn, Wmx.
      pose proof (Hb mx I2) as Hle.
      assert (Hw : 0 < Np.wrap t (mx - mn)).
      { assert (G : Fl.fgt0 (Np.diff t mx mn) = true).
        { rewrite Hd. simpl.
          apply (proj1 (Qgt_alt _ _)) in Hpos. rewrite Hpos. reflexivity. }
        unfold Np.diff in G. rewrite Ef, of_int_gt0 in G.
        apply Z.ltb_lt, G. }
      assert (Hfit : mx - mn <= Np.hi t).
      { apply wrap_pos_fits; [exact Ef | lia | lia | lia | exact Hw]. }
      pose proof (lo_nonpos t) as Hl0.
      assert (Hdpos : 0 < mx - mn).
      { rewrite wrap_id in Hw by lia. exact Hw. }
      split; [exact I1|]. split; [exact I2|]. split; [exact Hb|].
      split; [intros _; lia|].
      assert (F64 : Np.format_of t = Fl.binary64).
      { destruct t; try discriminate; reflexivity. }
      split; [|split].
      + intros v Hv. unfold Np.diff, gap. rewrite Ef, F64.
        rewrite wrap_id by lia. reflexivity.
      + intros v1 v2 H1 H12 H2. unfold gap. rewrite Ef.
        rewrite <- Zle_Qle. lia.
      + unfold gap. rewrite Ef, Z.sub_diag. reflexivity. }
  destruct Hcore as (I1 & I2 & Hb & Hint & Hdiff & Hmono & Hzero).
  pose proof (Hb mx I2) as Hle.
  pose proof (operand_core t (Np.format_of t) mn mx d Hp Hdiff Hmono Hzero
                ltac:(lia) Hd) as Hc.
  split; [exact I1|]. split; [exact I2|]. split; [exact Hint|].
  split; [|split; [|split]].
  - intros v Hv. pose proof (Hb v Hv) as Bv.
    destruct (Hc v Bv) as (E1 & E2 & E3 & E4). auto.
  - intros v1 v2 H1 H2 H12.
    pose proof (Hb v1 H1) as B1. pose proof (Hb v2 H2) as B2.
    destruct (Hc v1 B1) as (_ & -> & G1 & _).
    destruct (Hc v2 B2) as (_ & -> & _ & _).
    apply round_fin_mono; [exact Hp | exact G1 | apply Hmono; lia].
  - destruct (Hc mn ltac:(lia)) as (_ & -> & _ & _).
    rewrite (round_fin_zero _ _ Hzero). reflexivity.
  - exact Hmx_op.
Qed.

End Operands.

Section Normalised.

Lemma normalize_length a mn mx :
  length (Np.data (Np.normalize a mn mx)) = length (Np.data a).
Proof.
  unfold Np.normalize. destruct (Np.range_positive _ _ _); simpl;
    apply length_map.
Qed.

Lemma normalize_shape a mn mx :
  Np.shape (Np.normalize a mn mx) = Np.shape a.
Proof. unfold Np.normalize. destruct (Np.range_positive _ _ _); reflexivity. Qed.

Lemma normalize_dt a mn mx : Np.dt (Np.normalize a mn mx) = Np.UInt8.
Proof. unfold Np.normalize. destruct (Np.range_positive _ _ _); reflexivity. Qed.

Lemma in_lookup {A} (x : A) (l : list A) : In x l -> exists i, l !! i = Some x.
Proof.
  intros H. apply list_elem_of_In in H.
  apply list_elem_of_lookup in H. exact H.
Qed.

Lemma lookup_in {A} (x : A) (l : list A) i : l !! i = Some x -> In x l.
Proof. intros H. apply list_elem_of_In, list_elem_of_lookup. eauto. Qed.

(** The sample at a position of the normalised volume. *)
Lemma normalize_lookup a mn mx i v :
  Np.data a !! i = Some v ->
  Np.data (Np.normalize a mn mx) !! i
  = Some (if Np.range_positive (Np.dt a) mn mx
          then Np.uint8_of_float (Np.rescale (Np.dt a) mn mx v) else 0).
Proof.
  intros Hv. unfold Np.normalize.
  destruct (Np.range_positive _ _ _); simpl;
    rewrite list_lookup_fmap, Hv; reflexivity.
Qed.

Lemma fround_zero f x : (x == 0)%Q -> Fl.fround f x = Fl.Fin 0.
Proof.
  intros E. unfold Fl.fround. cbv zeta. rewrite (round_fin_zero f x E).
  destruct (Qle_bool _ _) eqn:B; [|reflexivity].
  exfalso. apply Qle_bool_iff in B. change (Qabs 0) with 0%Q in B.
  pose proof (pow2_pos (Fl.emax f)). lra.
Qed.

(** The test fails when the extrema are one sample. *)
Lemma range_positive_same t m : Np.range_positive t m m = false.
Proof.
  unfold Np.range_positive. destruct (Np.is_float t).
  - destruct (Np.value t m) as [q|b|]; simpl.
    + rewrite fround_zero by ring. reflexivity.
    + rewrite Bool.eqb_reflx. reflexivity.
    + reflexivity.
  - rewrite Z.sub_diag, wrap_zero. reflexivity.
Qed.

Lemma map_zero {A} (l : list A) :
  map (fun _ => Np.uint8_of_int 0) l = repeat 0 (length l).
Proof. induction l as [|x l IH]; simpl; [|rewrite <- IH]; reflexivity. Qed.

(** A volume whose extrema are one sample becomes the array of zeros of
    its shape. *)
Lemma normalize_uniform a m :
  Np.normalize a m m
  = Np.Ndarray Np.UInt8 (Np.shape a) (repeat 0 (length (Np.data a))).
Proof.
  unfold Np.normalize. rewrite range_positive_same, map_zero. reflexivity.
Qed.

(** The extrema of a volume whose range is a value of the sample type
    differ by a finite positive amount. *)
Lemma range_ok_diff a mn mx :
  Np.volume_ok a -> Np.amin a = Some mn -> Np.amax a = Some mx ->
  range_ok (Np.dt a) mn mx ->
  exists d, Np.diff (Np.dt a) mx mn = Fl.Fin d /\ (0 < d)%Q.
Proof.
  intros Hok Hmn Hmx Hr. unfold range_ok in Hr.
  destruct (Np.is_float (Np.dt a)) eqn:Ef.
  - destruct Hr as (n & m & d & Vn & Vm & Hlt & Hs). exists d.
    split.
    + unfold Np.diff. rewrite Ef, Vm, Vn. exact Hs.
    + simpl in Hs. unfold Np.value in *.
      apply (fround_diff_pos _ mn mx n m d
               (format_ok_prec _ (format_of_ok _)) Vn Vm Hlt Hs).
  - destruct Hr as [Hlt Hs].
    destruct (extrema_between a mn mx Hmn Hmx
                (is_nan_int _ _ Ef) (is_nan_int _ _ Ef)) as (I1 & I2 & _).
    pose proof (volume_words a mn Hok I1) as Wmn.
    pose proof (volume_words a mx Hok I2) as Wmx.
    pose proof (lo_nonpos (Np.dt a)) as Hl0.
    pose proof (hi_bound (Np.dt a)) as Hh.
    assert (Hfit : mx - mn <= Np.hi (Np.dt a)).
    { destruct (Np.signed (Np.dt a)) eqn:Es; [auto|].
      unfold Np.lo in Wmn. rewrite Ef, Es in Wmn. lia. }
    exists (Fl.round_fin Fl.binary64 (inject_Z (mx - mn))). split.
    + unfold Np.diff. rewrite Ef, wrap_id by lia.
      apply of_int_fin. lia.
    + pose proof (of_int_pos (mx - mn) ltac:(lia)). lra.
Qed.

(** A sample of a volume whose extrema differ by a finite positive
    amount: the floor of the value the division and the product give. *)
Lemma normalize_sample a mn mx d i v :
  Np.volume_ok a -> Np.amin a = Some mn -> Np.amax a = Some mx ->
  Np.diff (Np.dt a) mx mn = Fl.Fin d -> (0 < d)%Q ->
  Np.data a !! i = Some v ->
  exists r,
    Np.data (Np.normalize a mn mx) !! i = Some (Qfloor r)
    /\ Np.rescale (Np.dt a) mn mx v = Fl.Fin r
    /\ r = stretch (Np.format_of (Np.dt a)) (operand (Np.dt a) mn v) d
    /\ (0 <= r <= 255)%Q
    /\ 0 <= Qfloor r <= 255
    /\ (v = mn -> Qfloor r = 0)
    /\ (v = mx -> Qfloor r = 255)
    /\ (Np.is_float (Np.dt a) = false -> mx - mn < 2 ^ 32 ->
          Qfloor r = 255 * (v - mn) / (mx - mn)).
Proof.
  intros Hok Hmn Hmx Hd Hpos Hv.
  destruct (operands a mn mx d Hok Hmn Hmx Hd Hpos)
    as (I1 & I2 & Hint & Hall & _ & Hz & Hf).
  destruct (Hall v (lookup_in _ _ _ Hv)) as (Bv & Ev & Eg & G0 & Bo).
  destruct (rescale_fin _ mn mx v _ d Ev Hd Bo Hpos) as (Er & Br & Eu & Bu).
  set (F := Np.format_of (Np.dt a)) in *.
  set (x := operand (Np.dt a) mn v) in *.
  exists (stretch F x d).
  assert (P : Np.range_positive (Np.dt a) mn mx = true).
  { rewrite range_positive_diff, Hd. simpl.
    apply (proj1 (Qgt_alt _ _)) in Hpos. rewrite Hpos. reflexivity. }
  split; [rewrite (normalize_lookup a mn mx i v Hv), P, Eu; reflexivity|].
  split; [exact Er|]. split; [reflexivity|]. split; [exact Br|].
  split; [exact Bu|]. split; [|split].
  - intros ->. unfold stretch.
    rewrite (stretch_zero F x d Hz). reflexivity.
  - intros ->. unfold stretch.
    rewrite (stretch_full F x d (format_of_ok _) Hpos); [reflexivity|].
    subst x. rewrite Hf. reflexivity.
  - intros Ef Hnarrow. specialize (Hint Ef).
    assert (F64 : F = Fl.binary64).
    { subst F. destruct (Np.dt a); try discriminate; reflexivity. }
    assert (Ex : (x == inject_Z (v - mn))%Q).
    { subst x. rewrite Eg. fold F. rewrite F64. unfold gap. rewrite Ef.
      apply round_fin_int; [vm_compute; discriminate
                           | vm_compute; discriminate |].
      change (Fl.prec Fl.binary64) with 53. change (2 ^ 32) with 4294967296 in *.
      change (2 ^ 53) with 9007199254740992. lia. }
    assert (Ed : (d == inject_Z (mx - mn))%Q).
    { destruct (Hall mx I2) as (_ & _ & Eg' & _). rewrite Hf in Eg'.
      rewrite Eg'. fold F. rewrite F64. unfold gap. rewrite Ef.
      apply round_fin_int; [vm_compute; discriminate
                           | vm_compute; discriminate |].
      change (Fl.prec Fl.binary64) with 53. change (2 ^ 32) with 4294967296 in *.
      change (2 ^ 53) with 9007199254740992. lia. }
    unfold stretch. rewrite F64.
    assert (Eq1 : (x / d == inject_Z (v - mn) / inject_Z (mx - mn))%Q).
    { rewrite Ex, Ed. reflexivity. }
    rewrite (round_fin_compat Fl.binary64 _ _ Eq1).
    apply stretch_exact; lia.
Qed.

End Normalised.

(** C1 (amended).  For a volume whose maximum exceeds its minimum by an
    amount the sample type can hold -- the difference neither wraps, for a
    signed integer type, nor overflows, for a floating-point type -- step 3
    of [slice_image] yields a [uint8] array of the same shape whose samples
    all lie in [0, 255]: a sample [v] becomes the value that
    [(v - min) / (max - min) * 255] has in floating-point arithmetic, with
    the fraction dropped (the floor, not the nearest integer); the minimum
    becomes 0 and the maximum becomes 255, and both occur.  For an integer
    volume with [max - min] below [2 ^ 32] the sample is exactly the floor
    of [255 * (v - min) / (max - min)]. *)
Theorem normalize_range (a : Np.ndarray) (min_val max_val : Z) :
  Np.volume_ok a ->
  Np.amin a = Some min_val ->
  Np.amax a = Some max_val ->
  range_ok (Np.dt a) min_val max_val ->
  let out := Np.normalize a min_val max_val in
  Np.shape out = Np.shape a
  /\ Np.dt out = Np.UInt8
  /\ length (Np.data out) = length (Np.data a)
  /\ (forall i v, Np.data a !! i = Some v ->
        exists o r, Np.data out !! i = Some o
          /\ Np.rescale (Np.dt a) min_val max_val v = Fl.Fin r
          /\ (0 <= r <= 255)%Q
          /\ o = Qfloor r
          /\ 0 <= o <= 255
          /\ (v = min_val -> o = 0)
          /\ (v = max_val -> o = 255)
          /\ (Np.is_float (Np.dt a) = false -> max_val - min_val < 2 ^ 32 ->
                o = Qfloor (inject_Z (v - min_val)
                            / inject_Z (max_val - min_val) * inject_Z 255)%Q
                /\ o = 255 * (v - min_val) / (max_val - min_val)))
  /\ (exists i, Np.data a !! i = Some min_val /\ Np.data out !! i = Some 0)
  /\ (exists i, Np.data a !! i = Some max_val /\ Np.data out !! i = Some 255).
Proof.
  intros Hok Hmin Hmax Hr out.
  destruct (range_ok_diff a _ _ Hok Hmin Hmax Hr) as (d & Hd & Hpos).
  destruct (operands a _ _ d Hok Hmin Hmax Hd Hpos)
    as (I1 & I2 & Hint & _).
  split; [apply normalize_shape|]. split; [apply normalize_dt|].
  split; [apply normalize_length|]. split; [|split].
  - intros i v Hv.
    destruct (normalize_sample a _ _ d i v Hok Hmin Hmax Hd Hpos Hv)
      as (r & Ho & Er & _ & Br & Bo & Hz & Hf & Hex).
    exists (Qfloor r), r. split; [exact Ho|]. split; [exact Er|].
    split; [exact Br|]. split; [reflexivity|]. split; [exact Bo|].
    split; [exact Hz|]. split; [exact Hf|].
    intros Ef Hn. specialize (Hex Ef Hn). specialize (Hint Ef).
    split; [|exact Hex]. rewrite Hex. symmetry.
    assert (Bv : min_val <= v).
    { destruct (extrema_between a _ _ Hmin Hmax
                  (is_nan_int _ _ Ef) (is_nan_int _ _ Ef)) as (_ & _ & Hb).
      apply Hb, (lookup_in _ _ _ Hv). }
    apply rescale_floor; lia.
  - destruct (in_lookup _ _ I1) as [i Hi]. exists i. split; [exact Hi|].
    destruct (normalize_sample a _ _ d i _ Hok Hmin Hmax Hd Hpos Hi)
      as (r & Ho & _ & _ & _ & _ & Hz & _).
    subst out. rewrite Ho, (Hz eq_refl). reflexivity.
  - destruct (in_lookup _ _ I2) as [i Hi]. exists i. split; [exact Hi|].
    destruct (normalize_sample a _ _ d i _ Hok Hmin Hmax Hd Hpos Hi)
      as (r & Ho & _ & _ & _ & _ & _ & Hf & _).
    subst out. rewrite Ho, (Hf eq_refl). reflexivity.
Qed.

Lemma ex_vol_quarter_ok : Np.volume_ok ex_vol_quarter.
Proof. volume_ok_tac. Qed.

Lemma ex_vol_wide_ok : Np.volume_ok ex_vol_wide.
Proof. volume_ok_tac. Qed.

Lemma ex_vol_float_ok : Np.volume_ok ex_vol_float.
Proof. volume_ok_tac. Qed.

Lemma ex_vol_long_ok : Np.volume_ok ex_vol_long.
Proof. volume_ok_tac. Qed.

Lemma normalize_range_witness :
  let out := Np.normalize ex_vol_quarter 0 4 in
  Np.shape out = Np.shape ex_vol_quarter
  /\ Np.dt out = Np.UInt8
  /\ length (Np.data out) = length (Np.data ex_vol_quarter)
  /\ (forall i v, Np.data ex_vol_quarter !! i = Some v ->
        exists o r, Np.data out !! i = Some o
          /\ Np.rescale (Np.dt ex_vol_quarter) 0 4 v = Fl.Fin r
          /\ (0 <= r <= 255)%Q
          /\ o = Qfloor r
          /\ 0 <= o <= 255
          /\ (v = 0 -> o = 0)
          /\ (v = 4 -> o = 255)
          /\ (Np.is_float (Np.dt ex_vol_quarter) = false -> 4 - 0 < 2 ^ 32 ->
                o = Qfloor (inject_Z (v - 0) / inject_Z (4 - 0) * inject_Z 255)%Q
                /\ o = 255 * (v - 0) / (4 - 0)))
  /\ (exists i, Np.data ex_vol_quarter !! i = Some 0 /\ Np.data out !! i = Some 0)
  /\ (exists i, Np.data ex_vol_quarter !! i = Some 4 /\ Np.data out !! i = Some 255).
Proof.
  apply (normalize_range ex_vol_quarter 0 4).
  - exact ex_vol_quarter_ok.
  - reflexivity.
  - reflexivity.
  - vm_compute. split; [reflexivity | intros _; discriminate].
Defined.

(** The same for a [float32] volume with the samples 0.0, 0.5 and 255.0:
    the middle sample becomes 0, and for a 64-bit volume with the samples
    0, 2^62 - 1 and 2^62, where the conversion to [float64] rounds the
    middle sample up: it becomes 255. *)
Example normalize_float_volumes :
  (Np.amin ex_vol_float = Some 0 /\ Np.amax ex_vol_float = Some 0x437F0000
   /\ range_ok Np.Float32 0 0x437F0000
   /\ Np.value Np.Float32 0x3F000000 = Fl.Fin (1 # 2)
   /\ Np.value Np.Float32 0x437F0000 = Fl.Fin 255
   /\ Np.data (Np.normalize ex_vol_float 0 0x437F0000) = [0; 0; 255])
  /\ (Np.amin ex_vol_long = Some 0 /\ Np.amax ex_vol_long = Some (2 ^ 62)
      /\ range_ok Np.Int64 0 (2 ^ 62)
      /\ Np.data (Np.normalize ex_vol_long 0 (2 ^ 62)) = [0; 255; 255]
      /\ 255 * (2 ^ 62 - 1 - 0) / (2 ^ 62 - 0) = 254).
Proof.
  split.
  - split; [reflexivity|]. split; [reflexivity|]. split.
    + exists 0%Q, 255%Q, 255%Q. vm_compute. repeat split; reflexivity.
    + repeat split; vm_compute; reflexivity.
  - split; [reflexivity|]. split; [reflexivity|]. split.
    + vm_compute. split; [reflexivity | intros _; discriminate].
    + split; vm_compute; reflexivity.
Qed.

(** C1 (as stated) fails.  The sample 1 of a volume with minimum 0 and
    maximum 4 becomes 63, where rounding 63.75 gives 64; in a 16-bit volume
    reaching from -20000 to 20000 the difference of the extrema wraps, the
    volume is taken for a uniform one, and its maximum becomes 0, not 255;
    and in a [float32] volume reaching from the least to the greatest finite
    value the difference of the extrema is infinite, and the maximum
    becomes 0 as well. *)
Lemma normalize_not_rounded :
  (Np.volume_ok ex_vol_quarter
   /\ Np.amin ex_vol_quarter = Some 0 /\ Np.amax ex_vol_quarter = Some 4
   /\ Np.data ex_vol_quarter !! 1%nat = Some 1
   /\ Np.data (Np.normalize ex_vol_quarter 0 4) !! 1%nat = Some 63
   /\ spec_rescale 0 4 1 = 64)
  /\ (Np.volume_ok ex_vol_wide
      /\ Np.amin ex_vol_wide = Some (-20000) /\ Np.amax ex_vol_wide = Some 20000
      /\ Np.data ex_vol_wide !! 1%nat = Some 20000
      /\ Np.data (Np.normalize ex_vol_wide (-20000) 20000) !! 1%nat = Some 0)
  /\ (Np.volume_ok ex_vol_huge
      /\ Np.amin ex_vol_huge = Some (- 0x7F7FFFFF)
      /\ Np.amax ex_vol_huge = Some 0x7F7FFFFF
      /\ Np.value Np.Float32 0x7F7FFFFF
         = Fl.Fin (inject_Z ((2 ^ 24 - 1) * 2 ^ 104))
      /\ Np.range_positive Np.Float32 (- 0x7F7FFFFF) 0x7F7FFFFF = true
      /\ Np.diff Np.Float32 0x7F7FFFFF (- 0x7F7FFFFF) = Fl.Inf false
      /\ Np.data ex_vol_huge !! 1%nat = Some 0x7F7FFFFF
      /\ Np.data (Np.normalize ex_vol_huge (- 0x7F7FFFFF) 0x7F7FFFFF) !! 1%nat
         = Some 0).
Proof.
  split; [|split].
  - split; [exact ex_vol_quarter_ok|]. repeat split; vm_compute; reflexivity.
  - split; [exact ex_vol_wide_ok|]. repeat split; vm_compute; reflexivity.
  - split; [volume_ok_tac|]. repeat split; vm_compute; reflexivity.
Qed.

(* ===================================================================== *)
(** * Running computations *)
(* ===================================================================== *)

Lemma bind_run {A B} (c : M A) (k : A -> M B) w r w' :
  bind c k w = (r, w') ->
  (exists a w1, c w = (Ok a, w1) /\ k a w1 = (r, w'))
  \/ (exists e, c w = (Raise e, w') /\ r = Raise e).
Proof.
  unfold bind. destruct (c w) as [[a|e] w1]; intros H.
  - left. eauto.
  - right. inversion H; subst. eauto.
Qed.

Lemma bind_ok {A B} (c : M A) (k : A -> M B) w a w1 :
  c w = (Ok a, w1) -> bind c k w = k a w1.
Proof. unfold bind. intros ->. reflexivity. Qed.

Lemma bind_raise {A B} (c : M A) (k : A -> M B) w e w1 :
  c w = (Raise e, w1) -> bind c k w = (Raise e, w1).
Proof. unfold bind. intros ->. reflexivity. Qed.

Lemma makedirs_run path w r w' :
  os_makedirs path w = (r, w') ->
  (r = Ok tt /\ path <> EmptyString
   /\ existsb (is_file w) (ancestors path) = false
   /\ dirs w' = dirs w ∪ list_to_set (ancestors path)
   /\ files w' = files w /\ trace w' = trace w ++ [EvMakedirs path])
  \/ (r = Raise (OSError path) /\ w' = w
      /\ (path = EmptyString \/ existsb (is_file w) (ancestors path) = true)).
Proof.
  unfold os_makedirs.
  destruct (String.eqb_spec path EmptyString) as [->|Hne].
  - intros [= <- <-]. right. auto.
  - destruct (existsb (is_file w) (ancestors path)) eqn:E; intros [= <- <-].
    + right. auto.
    + left. simpl. auto 10.
Qed.

Lemma save_run img path w r w' :
  img_save img path w = (r, w') ->
  (r = Ok tt /\ (path ∉ dirs w)
   /\ dirs w' = dirs w /\ files w' = <[path := img]> (files w)
   /\ trace w' = trace w ++ [EvSave path img])
  \/ (r = Raise (OSError path) /\ w' = w /\ path ∈ dirs w).
Proof.
  unfold img_save, is_dir. case_bool_decide; intros [= <- <-].
  - right. auto.
  - left. simpl. auto 10.
Qed.

Section Tracks.

Context {X : Type} (pi : list event -> list X).
Hypothesis pi_nil : pi [] = [].
Hypothesis pi_app : forall a b, pi (a ++ b) = pi a ++ pi b.

Lemma tracks_ret {A} (a : A) : tracks pi (ret a) [].
Proof.
  intros w r w' [= <- <-]. exists []. rewrite app_nil_r, pi_nil.
  split; [reflexivity|]. split; [reflexivity|]. reflexivity.
Qed.

Lemma tracks_raise {A} e xs : tracks pi (@raise A e) xs.
Proof.
  intros w r w' [= <- <-]. exists []. rewrite app_nil_r, pi_nil.
  split; [reflexivity|]. split; [apply prefix_nil|]. discriminate.
Qed.

Lemma tracks_print e : tracks pi (print e) (pi [e]).
Proof.
  intros w r w' [= <- <-]. exists [e]. simpl.
  split; [reflexivity|]. split; [reflexivity|]. reflexivity.
Qed.

Lemma tracks_makedirs p : tracks pi (os_makedirs p) (pi [EvMakedirs p]).
Proof.
  intros w r w' H. destruct (makedirs_run _ _ _ _ H)
    as [(-> & _ & _ & _ & _ & Ht)|(-> & -> & _)].
  - exists [EvMakedirs p]. split; [exact Ht|]. split; reflexivity.
  - exists []. rewrite app_nil_r, pi_nil.
    split; [reflexivity|]. split; [apply prefix_nil|]. discriminate.
Qed.

Lemma tracks_save img p : tracks pi (img_save img p) (pi [EvSave p img]).
Proof.
  intros w r w' H. destruct (save_run _ _ _ _ _ H)
    as [(-> & _ & _ & _ & Ht)|(-> & -> & _)].
  - exists [EvSave p img]. split; [exact Ht|]. split; reflexivity.
  - exists []. rewrite app_nil_r, pi_nil.
    split; [reflexivity|]. split; [apply prefix_nil|]. discriminate.
Qed.

Lemma tracks_bind {A B} (c : M A) (k : A -> M B) xs ys :
  tracks pi c xs -> (forall a, tracks pi (k a) ys) ->
  tracks pi (bind c k) (xs ++ ys).
Proof.
  intros Hc Hk w r w' H.
  destruct (bind_run _ _ _ _ _ H) as [(a & w1 & H1 & H2)|(e & H1 & ->)].
  - destruct (Hc _ _ _ H1) as (d1 & T1 & _ & E1).
    destruct (Hk a _ _ _ H2) as (d2 & T2 & P2 & E2).
    exists (d1 ++ d2). rewrite T2, T1, <- app_assoc, pi_app, (E1 a eq_refl).
    split; [reflexivity|]. split.
    + apply prefix_app. exact P2.
    + intros b Hb. rewrite (E2 b Hb). reflexivity.
  - destruct (Hc _ _ _ H1) as (d1 & T1 & P1 & _).
    exists d1. split; [exact T1|]. split.
    + apply prefix_app_r. exact P1.
    + discriminate.
Qed.

Lemma tracks_for_each {A} (body : A -> M unit) (ev : A -> list X) l :
  (forall x, tracks pi (body x) (ev x)) ->
  tracks pi (for_each l body) (flat_map ev l).
Proof.
  intros Hb. induction l as [|x l IH]; simpl.
  - apply tracks_ret.
  - apply tracks_bind; [apply Hb | intros _; exact IH].
Qed.

End Tracks.

(** The identity projection and the two projections of the statements. *)
Lemma saves_of_app a b : saves_of (a ++ b) = saves_of a ++ saves_of b.
Proof.
  induction a as [|e a IH]; simpl; [reflexivity|].
  destruct e; simpl; rewrite ?IH; reflexivity.
Qed.

Lemma founds_of_app a b : founds_of (a ++ b) = founds_of a ++ founds_of b.
Proof.
  induction a as [|e a IH]; simpl; [reflexivity|].
  destruct e; simpl; rewrite ?IH; reflexivity.
Qed.

Lemma flat_map_singleton {A B} (g : A -> B) l :
  flat_map (fun x => [g x]) l = map g l.
Proof. induction l as [|x l IH]; simpl; [|rewrite IH]; reflexivity. Qed.

(** ** The events of the slicer *)

Lemma tracks_save_slices d n f :
  tracks (fun tr => tr) (save_slices d n f) (slices_events d n f).
Proof.
  unfold save_slices, slices_events.
  rewrite <- flat_map_singleton.
  apply (tracks_for_each (fun tr => tr)); [reflexivity | reflexivity |].
  intros i. apply (tracks_save (fun tr => tr)). reflexivity.
Qed.

Lemma tracks_slice_plane np_image base plane :
  tracks (fun tr => tr) (slice_plane np_image base plane)
         (plane_events np_image base plane).
Proof.
  unfold slice_plane, plane_events.
  change (EvMakedirs (Py.join base plane) :: ?l)
    with ([EvMakedirs (Py.join base plane)] ++ l).
  apply (tracks_bind (fun tr => tr)); [reflexivity| |].
  - apply (tracks_makedirs (fun tr => tr)). reflexivity.
  - intros _.
    destruct (String.eqb plane "axial"); [apply tracks_save_slices|].
    destruct (String.eqb plane "coronal"); [apply tracks_save_slices|].
    destruct (String.eqb plane "sagittal"); [apply tracks_save_slices|].
    apply (tracks_ret (fun tr => tr)). reflexivity.
Qed.

Lemma tracks_planes np_image base planes :
  tracks (fun tr => tr)
         (for_each planes (slice_plane np_image base);; print (EvSliced base))
         (flat_map (plane_events np_image base) planes ++ [EvSliced base]).
Proof.
  apply (tracks_bind (fun tr => tr)); [reflexivity| |].
  - apply (tracks_for_each (fun tr => tr)); [reflexivity | reflexivity |].
    intros plane. apply tracks_slice_plane.
  - intros _. apply (tracks_print (fun tr => tr)).
Qed.

Lemma amax_none a : Np.amax a = None -> Np.amin a = None.
Proof. unfold Np.amax, Np.amin. destruct (Np.data a); [reflexivity | discriminate]. Qed.

(** The three ways through the [try] block: the file does not load, the
    array has no element, or the planes are sliced. *)
Lemma body_run ds input_path base planes w r w' :
  slice_image_body ds input_path base planes w = (r, w') ->
  (read_image ds input_path = None
   /\ r = Raise (RuntimeError input_path) /\ w' = w)
  \/ (exists a, read_image ds input_path = Some a /\ Np.amin a = None
        /\ r = Raise ValueError /\ w' = w)
  \/ (exists a min_val max_val,
        read_image ds input_path = Some a
        /\ Np.amin a = Some min_val /\ Np.amax a = Some max_val
        /\ (for_each planes (slice_plane (Np.normalize a min_val max_val) base);;
            print (EvSliced base)) w = (r, w')).
Proof.
  unfold slice_image_body, sitk_read, np_min, np_max.
  destruct (read_image ds input_path) as [a|].
  2:{ intros [= <- <-]. left. auto. }
  intros H. right. rewrite (bind_ok _ _ _ a w) in H by reflexivity.
  destruct (Np.amin a) as [mn|] eqn:Emin.
  2:{ inversion H; subst. left. exists a. auto. }
  rewrite (bind_ok _ _ _ mn w) in H by reflexivity.
  destruct (Np.amax a) as [mx|] eqn:Emax.
  2:{ apply amax_none in Emax. congruence. }
  rewrite (bind_ok _ _ _ mx w) in H by reflexivity.
  right. exists a, mn, mx. auto.
Qed.

Lemma slice_image_run ds input_path base planes w r w' :
  slice_image ds input_path base planes w = (r, w') ->
  r = Ok tt
  /\ exists delta, trace w' = trace w ++ delta
       /\ slicer_events ds input_path base planes delta
       /\ (sliced_ok ds input_path base planes w ->
           exists a min_val max_val,
             read_image ds input_path = Some a
             /\ Np.amin a = Some min_val /\ Np.amax a = Some max_val
             /\ delta = flat_map (plane_events (Np.normalize a min_val max_val) base) planes
                        ++ [EvSliced base]).
Proof.
  unfold slice_image, try_except, sliced_ok.
  destruct (slice_image_body ds input_path base planes w) as [[[]|e] w1] eqn:Eb;
    intros H.
  - inversion H; subst. split; [reflexivity|].
    destruct (body_run _ _ _ _ _ _ _ Eb)
      as [(_ & C & _)|[(a & _ & _ & C & _)|(a & mn & mx & Hr & Hmn & Hmx & Hrun)]];
      try discriminate.
    destruct (tracks_planes _ _ _ _ _ _ Hrun) as (delta & T & _ & E).
    specialize (E tt eq_refl). simpl in E. subst delta.
    eexists. split; [exact T|]. split.
    + econstructor; eassumption.
    + intros _. exists a, mn, mx. auto.
  - unfold print in H. inversion H; subst. simpl. split; [reflexivity|].
    destruct (body_run _ _ _ _ _ _ _ Eb)
      as [(Hr & C & ->)|[(a & Hr & Hmn & C & ->)|(a & mn & mx & Hr & Hmn & Hmx & Hrun)]].
    + inversion C; subst. eexists. split; [reflexivity|].
      split; [apply slicer_unreadable; exact Hr | simpl; discriminate].
    + inversion C; subst. eexists. split; [reflexivity|].
      split; [eapply slicer_empty; eassumption | simpl; discriminate].
    + destruct (tracks_planes _ _ _ _ _ _ Hrun) as (delta & T & P & _).
      exists (delta ++ [EvError input_path e]).
      rewrite T, app_assoc. split; [reflexivity|].
      split; [|simpl; discriminate].
      simpl in P.
      destruct (bind_run _ _ _ _ _ Hrun) as [(a' & w2 & H1 & H2)|(e' & H1 & _)].
      * unfold print in H2. discriminate.
      * destruct (tracks_for_each (fun tr => tr) eq_refl (fun _ _ => eq_refl)
                    (slice_plane (Np.normalize a mn mx) base)
                    (plane_events (Np.normalize a mn mx) base) planes
                    (fun plane => tracks_slice_plane _ _ plane) _ _ _ H1)
          as (d1 & T1 & P1 & _).
        assert (d1 = delta) by (rewrite T in T1; apply app_inv_head in T1; auto).
        subst d1. eapply slicer_stopped; eassumption.
Qed.

(** The saves of one plane: the slices of that plane, by index. *)
Lemma slices_events_in d n f e :
  In e (slices_events d n f) <->
  exists i, (i < n)%nat /\ e = EvSave (Py.join d (slice_name i)) (f i).
Proof.
  unfold slices_events. rewrite in_map_iff. split.
  - intros (i & <- & Hi). apply in_seq in Hi. exists i. split; [lia | reflexivity].
  - intros (i & Hi & ->). exists i. split; [reflexivity|]. apply in_seq. lia.
Qed.

Lemma plane_events_saves np_image base plane p img :
  In (EvSave p img) (plane_events np_image base plane) ->
  exists i, p = Py.join (Py.join base plane) (slice_name i)
    /\ ((plane = "axial"%string /\ (i < Np.depth np_image)%nat
         /\ img = Np.axial np_image i)
        \/ (plane = "coronal"%string /\ (i < Np.height np_image)%nat
            /\ img = Np.coronal np_image i)
        \/ (plane = "sagittal"%string /\ (i < Np.width np_image)%nat
            /\ img = Np.sagittal np_image i)).
Proof.
  unfold plane_events. intros [C|H]; [discriminate|].
  destruct (String.eqb_spec plane "axial") as [->|_].
  { apply slices_events_in in H. destruct H as (i & Hi & [= -> ->]).
    exists i. split; [reflexivity|]. left. auto. }
  destruct (String.eqb_spec plane "coronal") as [->|_].
  { apply slices_events_in in H. destruct H as (i & Hi & [= -> ->]).
    exists i. split; [reflexivity|]. right. left. auto. }
  destruct (String.eqb_spec plane "sagittal") as [->|_].
  { apply slices_events_in in H. destruct H as (i & Hi & [= -> ->]).
    exists i. split; [reflexivity|]. right. right. auto. }
  destruct H.
Qed.

(** Every save of a call of [slice_image] stores a slice of the normalised
    volume, in the directory of its plane. *)
Lemma slicer_events_saves ds input_path base planes delta p img :
  slicer_events ds input_path base planes delta ->
  In (EvSave p img) delta ->
  exists a min_val max_val plane,
    read_image ds input_path = Some a
    /\ Np.amin a = Some min_val /\ Np.amax a = Some max_val
    /\ In plane planes
    /\ In (EvSave p img) (plane_events (Np.normalize a min_val max_val) base plane).
Proof.
  intros Hs Hin. destruct Hs as [a mn mx Hr Hmn Hmx| |a|a mn mx pre e Hr Hmn Hmx Hp].
  - apply in_app_or in Hin. destruct Hin as [Hin|[C|[]]]; [|discriminate].
    apply in_flat_map in Hin. destruct Hin as (plane & Hpl & Hin).
    exists a, mn, mx, plane. auto.
  - destruct Hin as [C|[]]. discriminate.
  - destruct Hin as [C|[]]. discriminate.
  - apply in_app_or in Hin. destruct Hin as [Hin|[C|[]]]; [|discriminate].
    destruct Hp as [rest Hp].
    assert (Hin' : In (EvSave p img)
                      (flat_map (plane_events (Np.normalize a mn mx) base) planes)).
    { rewrite Hp. apply in_or_app. left. exact Hin. }
    apply in_flat_map in Hin'. destruct Hin' as (plane & Hpl & Hin').
    exists a, mn, mx, plane. auto.
Qed.

Lemma get_zeros t sh n i j k :
  Np.get (Np.Ndarray t sh (repeat 0 n)) i j k = 0.
Proof. unfold Np.get. simpl. apply nth_repeat. Qed.

Lemma flat_map_zeros {A} (l : list A) c :
  flat_map (fun _ => repeat 0 c) l = repeat 0 (length l * c).
Proof.
  induction l as [|x l IH]; [reflexivity|].
  simpl. rewrite IH, repeat_app. reflexivity.
Qed.

Lemma map_zeros {A} (g : A -> Z) (l : list A) :
  (forall x, g x = 0) -> map g l = repeat 0 (length l).
Proof.
  intros H. induction l as [|x l IH]; [reflexivity|].
  simpl. rewrite H, IH. reflexivity.
Qed.

(** The image of a table of zeros. *)
Lemma tabulate2_zeros r c f :
  (forall y x, f y x = 0) ->
  Np.tabulate2 r c f = Np.Image r c (repeat 0 (r * c)).
Proof.
  intros H. unfold Np.tabulate2. f_equal.
  transitivity (flat_map (fun _ : nat => repeat 0 c) (seq 0 r)).
  - apply flat_map_ext. intros y.
    rewrite (map_zeros (fun x => f y x)) by apply H.
    rewrite length_seq. reflexivity.
  - rewrite flat_map_zeros, length_seq. reflexivity.
Qed.

(** C4.  When the maximum of the volume equals its minimum, step 3 of
    [slice_image] yields the [uint8] array of the same shape and of as many
    samples in which every sample is 0; and every image the call saves, in
    whatever plane, is a slice of that array: it has the shape of a slice
    of the volume and every one of its pixels is 0. *)
Theorem uniform_volume_black (ds : dataset) (input_path base : string)
        (planes : list string) (w : world) (a : Np.ndarray) (m : Z) :
  read_image ds input_path = Some a ->
  Np.amin a = Some m ->
  Np.amax a = Some m ->
  Np.normalize a m m
  = Np.Ndarray Np.UInt8 (Np.shape a) (repeat 0 (length (Np.data a)))
  /\ (0 < length (Np.data a))%nat
  /\ exists delta,
       trace (snd (slice_image ds input_path base planes w)) = trace w ++ delta
       /\ forall p img, In (EvSave p img) delta ->
            In (Np.img_shape img)
               [(Np.height a, Np.width a); (Np.depth a, Np.width a);
                (Np.depth a, Np.height a)]
            /\ Np.pixels img = repeat 0 (Np.rows img * Np.cols img).
Proof.
  intros Hr Hmn Hmx. split; [apply normalize_uniform|].
  split.
  { unfold Np.amin in Hmn. destruct (Np.data a); [discriminate|]. simpl. lia. }
  destruct (slice_image ds input_path base planes w) as [r w'] eqn:E.
  destruct (slice_image_run _ _ _ _ _ _ _ E) as (_ & delta & T & Hs & _).
  exists delta. split; [exact T|]. intros p img Hin.
  destruct (slicer_events_saves _ _ _ _ _ _ _ Hs Hin)
    as (a' & mn & mx & plane & Hr' & Hmn' & Hmx' & _ & Hpe).
  assert (a' = a) by congruence. subst a'.
  assert (mn = m) by congruence. assert (mx = m) by congruence. subst mn mx.
  rewrite normalize_uniform in Hpe.
  destruct (plane_events_saves _ _ _ _ _ Hpe)
    as (i & _ & [(_ & _ & ->)|[(_ & _ & ->)|(_ & _ & ->)]]);
    unfold Np.axial, Np.coronal, Np.sagittal;
    (rewrite tabulate2_zeros by (intros; apply get_zeros));
    (split; [simpl; auto | reflexivity]).
Qed.

(* ===================================================================== *)
(** * Strings and paths *)
(* ===================================================================== *)

Section Strings.

Lemma str_app_cons c a b : String c a +:+ b = String c (a +:+ b).
Proof. reflexivity. Qed.

Lemma str_app_nil_l a : EmptyString +:+ a = a.
Proof. reflexivity. Qed.


Lemma str_app_assoc a b c : (a +:+ b) +:+ c = a +:+ (b +:+ c).
Proof.
  induction a as [|x a IH]; [reflexivity|].
  rewrite !str_app_cons, IH. reflexivity.
Qed.

Lemma str_length_app a b :
  String.length (a +:+ b) = (String.length a + String.length b)%nat.
Proof.
  induction a as [|x a IH]; [reflexivity|].
  rewrite str_app_cons. simpl. rewrite IH. reflexivity.
Qed.

Lemma str_app_inv_head p a b : p +:+ a = p +:+ b -> a = b.
Proof.
  induction p as [|x p IH]; [auto|].
  rewrite !str_app_cons. intros [= H]. auto.
Qed.

Lemma str_length_zero s : String.length s = 0%nat -> s = EmptyString.
Proof. destruct s; [reflexivity | discriminate]. Qed.

(** Suffixes of the same length can be split off. *)
Lemma str_app_inj_tail p q a b :
  String.length a = String.length b ->
  p +:+ a = q +:+ b -> p = q /\ a = b.
Proof.
  revert q. induction p as [|x p IH]; intros q Hl H; destruct q as [|y q];
    rewrite ?str_app_cons, ?str_app_nil_l in H.
  - auto.
  - exfalso. subst a. simpl in Hl. rewrite str_length_app in Hl. lia.
  - exfalso. subst b. simpl in Hl. rewrite str_length_app in Hl. lia.
  - injection H as -> H. destruct (IH q Hl H) as [-> ->]. auto.
Qed.

Lemma substring_all s : String.substring 0 (String.length s) s = s.
Proof. induction s as [|c s IH]; simpl; [|rewrite IH]; reflexivity. Qed.

Lemma substring_skip p s m :
  String.substring (String.length p) m (p +:+ s) = String.substring 0 m s.
Proof.
  induction p as [|c p IH]; [reflexivity|].
  rewrite str_app_cons. simpl. exact IH.
Qed.

Lemma substring_split s : forall n, (n <= String.length s)%nat ->
  s = String.substring 0 n s +:+ String.substring n (String.length s - n) s.
Proof.
  induction s as [|c s IH]; intros n Hn; simpl in *.
  - destruct n; reflexivity.
  - destruct n as [|n]; simpl.
    + rewrite str_app_nil_l, substring_all. reflexivity.
    + rewrite str_app_cons. f_equal. rewrite <- IH by lia. reflexivity.
Qed.

(** [s.endswith(suffix)] holds exactly when [s] is something followed by
    [suffix]. *)
Lemma endswith_spec s suffix :
  Py.endswith s suffix = true <-> exists p, s = p +:+ suffix.
Proof.
  unfold Py.endswith. rewrite andb_true_iff, Nat.leb_le, String.eqb_eq. split.
  - intros [Hl E].
    exists (String.substring 0 (String.length s - String.length suffix) s).
    pose proof (substring_split s (String.length s - String.length suffix)) as Hs.
    replace (String.length s - (String.length s - String.length suffix))%nat
      with (String.length suffix) in Hs by lia.
    rewrite E in Hs. apply Hs. lia.
  - intros [p ->]. rewrite str_length_app. split; [lia|].
    replace (String.length p + String.length suffix - String.length suffix)%nat
      with (String.length p) by lia.
    rewrite substring_skip. apply substring_all.
Qed.

Lemma endswith_false_last s c1 c2 :
  c1 <> c2 ->
  Py.endswith (s +:+ String c1 EmptyString) (String c2 EmptyString) = false.
Proof.
  intros Hne. destruct (Py.endswith _ _) eqn:E; [|reflexivity].
  apply endswith_spec in E. destruct E as [p E].
  apply str_app_inj_tail in E; [|reflexivity].
  destruct E as [_ [= E]]. contradiction.
Qed.

(** [os.path.join] with a relative second argument. *)
Lemma join_rel a b :
  Py.startswith b Py.sep_str = false -> Py.join a b = join_prefix a +:+ b.
Proof.
  unfold Py.join, join_prefix. intros ->. simpl.
  destruct (String.eqb a EmptyString); [reflexivity|].
  destruct (Py.endswith a Py.sep_str); [reflexivity|].
  rewrite str_app_assoc. reflexivity.
Qed.

(** [os.path.join] of a directory that is not empty and does not end with
    a separator. *)
Lemma join_plain a b :
  Py.startswith b Py.sep_str = false -> a <> EmptyString ->
  Py.endswith a Py.sep_str = false ->
  Py.join a b = a +:+ Py.sep_str +:+ b.
Proof.
  unfold Py.join. intros -> Hne ->. simpl.
  apply String.eqb_neq in Hne. rewrite Hne. reflexivity.
Qed.

Lemma str_app_nonempty a b : b <> EmptyString -> a +:+ b <> EmptyString.
Proof.
  intros Hb E. apply (f_equal String.length) in E.
  rewrite str_length_app in E. simpl in E.
  destruct b; [contradiction | simpl in E; lia].
Qed.

(** ** Slice names *)

Lemma concat_zeros k :
  String.concat EmptyString (repeat "0"%string k) = nzeros k.
Proof.
  induction k as [|k IH]; [reflexivity|].
  simpl repeat. simpl String.concat. rewrite IH.
  destruct k; reflexivity.
Qed.

Lemma nzeros_length k : String.length (nzeros k) = k.
Proof. induction k as [|k IH]; simpl; [|rewrite IH]; reflexivity. Qed.

Lemma format_03d_eq i :
  Py.format_03d i
  = nzeros (3 - String.length (Py.str_of_nat i)) +:+ Py.str_of_nat i.
Proof. unfold Py.format_03d, Py.zfill. rewrite concat_zeros. reflexivity. Qed.

Lemma to_uint_nonnil i : Nat.to_uint i <> Decimal.Nil.
Proof.
  pose proof (Unsigned.to_of (Nat.to_uint i)) as H.
  rewrite Unsigned.of_to in H. rewrite H. apply DecimalFacts.unorm_nonnil.
Qed.

Lemma parse_str_of_nat i : parse_nat (Py.str_of_nat i) = Some i.
Proof.
  unfold parse_nat, Py.str_of_nat.
  rewrite NilZero.usu by apply to_uint_nonnil.
  simpl. rewrite Unsigned.of_to. reflexivity.
Qed.

Lemma str_of_nat_nonempty i : Py.str_of_nat i <> EmptyString.
Proof.
  intros E. pose proof (parse_str_of_nat i) as H. rewrite E in H. discriminate.
Qed.

Lemma parse_zero_cons s :
  s <> EmptyString -> parse_nat (String "0" s) = parse_nat s.
Proof.
  intros Hs. unfold parse_nat, NilZero.uint_of_string.
  destruct s as [|c s]; [contradiction|].
  change (NilEmpty.uint_of_string (String "0" (String c s)))
    with (uint_of_char "0" (NilEmpty.uint_of_string (String c s))).
  destruct (NilEmpty.uint_of_string (String c s)); reflexivity.
Qed.

Lemma parse_nzeros k s :
  s <> EmptyString -> parse_nat (nzeros k +:+ s) = parse_nat s.
Proof.
  intros Hs. induction k as [|k IH]; [reflexivity|].
  simpl nzeros. rewrite str_app_cons, parse_zero_cons; [exact IH|].
  apply str_app_nonempty. exact Hs.
Qed.

(** The index can be read back from the padded digits. *)
Lemma parse_format_03d i : parse_nat (Py.format_03d i) = Some i.
Proof.
  rewrite format_03d_eq, parse_nzeros by apply str_of_nat_nonempty.
  apply parse_str_of_nat.
Qed.

Lemma format_03d_inj i j : Py.format_03d i = Py.format_03d j -> i = j.
Proof.
  intros E. pose proof (parse_format_03d i) as Hi.
  rewrite E, parse_format_03d in Hi. congruence.
Qed.

Lemma slice_name_inj i j : slice_name i = slice_name j -> i = j.
Proof.
  unfold slice_name. intros E. apply str_app_inv_head in E.
  apply str_app_inj_tail in E; [|reflexivity].
  apply format_03d_inj, E.
Qed.

Lemma slice_name_rel i : Py.startswith (slice_name i) Py.sep_str = false.
Proof. reflexivity. Qed.

Lemma format_03d_length i :
  String.length (Py.format_03d i)
  = Nat.max 3 (String.length (Py.str_of_nat i)).
Proof. rewrite format_03d_eq, str_length_app, nzeros_length. lia. Qed.

Lemma string_of_uint_length d :
  String.length (NilEmpty.string_of_uint d) = Decimal.nb_digits d.
Proof. induction d; simpl; rewrite ?IHd; reflexivity. Qed.

Lemma str_of_nat_length i :
  String.length (Py.str_of_nat i) = Decimal.nb_digits (Nat.to_uint i).
Proof.
  unfold Py.str_of_nat, NilZero.string_of_uint.
  pose proof (to_uint_nonnil i) as H.
  destruct (Nat.to_uint i) eqn:E; try contradiction;
    rewrite <- string_of_uint_length; reflexivity.
Qed.

Lemma three_digits_bound d :
  (Decimal.nb_digits d <= 3)%nat -> (Nat.of_uint d < 1000)%nat.
Proof.
  intros H.
  destruct d as [|d|d|d|d|d|d|d|d|d|d]; [vm_compute; lia|..];
  (destruct d as [|d|d|d|d|d|d|d|d|d|d]; [vm_compute; lia|..];
   (destruct d as [|d|d|d|d|d|d|d|d|d|d]; [vm_compute; lia|..];
    (simpl in H; assert (Decimal.nb_digits d = 0%nat) as H0 by lia;
     apply DecimalFacts.nb_digits_0 in H0; subst d; vm_compute; lia))).
Qed.

Lemma str_of_nat_long i :
  (1000 <= i)%nat -> (4 <= String.length (Py.str_of_nat i))%nat.
Proof.
  intros Hi. rewrite str_of_nat_length.
  destruct (le_lt_dec (Decimal.nb_digits (Nat.to_uint i)) 3) as [Hle|Hgt]; [|lia].
  apply three_digits_bound in Hle. rewrite Unsigned.of_to in Hle. lia.
Qed.

Lemma str_of_nat_short i :
  (i <= 999)%nat -> (String.length (Py.str_of_nat i) <= 3)%nat.
Proof.
  intros Hi.
  assert (H : forallb (fun k => (String.length (Py.str_of_nat k) <=? 3)%nat)
                      (seq 0 1000) = true) by (vm_compute; reflexivity).
  rewrite forallb_forall in H. apply Nat.leb_le, H, in_seq. lia.
Qed.
End Strings.

(* ===================================================================== *)
(** * The file system follows the events *)
(* ===================================================================== *)

Section Sound.

Lemma apply_saves_app a b m :
  apply_saves (a ++ b) m = apply_saves b (apply_saves a m).
Proof. unfold apply_saves. apply fold_left_app. Qed.

Lemma made_dirs_app a b : made_dirs (a ++ b) = made_dirs a ∪ made_dirs b.
Proof.
  induction a as [|e a IH]; simpl; [set_solver|].
  destruct e; rewrite ?IH; set_solver.
Qed.

Lemma apply_saves_dom l : forall m, dom m ⊆ dom (apply_saves l m).
Proof.
  induction l as [|[p img] l IH]; intros m; simpl; [set_solver|].
  etrans; [|apply IH]. rewrite dom_insert. set_solver.
Qed.

Lemma is_file_true w p : is_file w p = true <-> p ∈ dom (files w).
Proof.
  unfold is_file. rewrite elem_of_dom.
  destruct (files w !! p); split; intros H; try discriminate; eauto.
  destruct H; discriminate.
Qed.

Lemma sound_ret {A} (a : A) : sound (ret a).
Proof.
  intros w r w' [= <- <-]. exists []. rewrite app_nil_r. simpl.
  split; [reflexivity|]. split; [reflexivity|]. split; [set_solver|].
  split; [auto|]. intros b _ _. exists b. rewrite app_nil_r. auto.
Qed.

Lemma sound_raise {A} e : sound (@raise A e).
Proof.
  intros w r w' [= <- <-]. exists []. rewrite app_nil_r. simpl.
  split; [reflexivity|]. split; [reflexivity|]. split; [set_solver|].
  split; [auto|]. intros b _ _. exists b. rewrite app_nil_r. auto.
Qed.

Lemma made_dirs_silent e :
  (forall p, e <> EvMakedirs p) -> made_dirs [e] = ∅.
Proof. intros H. destruct e; try reflexivity. destruct (H path). reflexivity. Qed.

Lemma saves_of_silent e :
  (forall p img, e <> EvSave p img) -> saves_of [e] = [].
Proof. intros H. destruct e; try reflexivity. destruct (H path img). reflexivity. Qed.

Lemma sound_print e :
  (forall p, e <> EvMakedirs p) -> (forall p img, e <> EvSave p img) ->
  sound (print e).
Proof.
  intros H1 H2 w r w' [= <- <-]. exists [e].
  rewrite (saves_of_silent e H2), (made_dirs_silent e H1). simpl.
  split; [reflexivity|]. split; [reflexivity|]. split; [set_solver|].
  split; [intros Hok; exact Hok|]. intros b _ _. eexists. split; reflexivity.
Qed.

Lemma sound_makedirs p : sound (os_makedirs p).
Proof.
  intros w r w' H.
  destruct (makedirs_run _ _ _ _ H)
    as [(-> & Hne & Hex & Hd & Hf & Ht)|(-> & -> & Hwhy)].
  - exists [EvMakedirs p]. simpl.
    split; [exact Ht|]. split; [exact Hf|].
    split; [rewrite Hd; set_solver|]. split.
    + intros Hok q Hq. rewrite Hf. rewrite Hd in Hq.
      apply elem_of_union in Hq. destruct Hq as [Hq|Hq]; [auto|].
      apply elem_of_list_to_set in Hq.
      destruct (files w !! q) eqn:E; [|reflexivity].
      exfalso. apply not_true_iff_false in Hex. apply Hex.
      apply existsb_exists. exists q. split.
      * apply list_elem_of_In. exact Hq.
      * unfold is_file. rewrite E. reflexivity.
    + intros b Hb [Hbd _]. unfold os_makedirs.
      apply String.eqb_neq in Hne. rewrite Hne.
      assert (Hfree : existsb (is_file b) (ancestors p) = false).
      { apply not_true_iff_false. intros Hc.
        apply existsb_exists in Hc. destruct Hc as (q & Hq & Hfq).
        assert (q ∈ dirs b).
        { apply Hbd. rewrite Hd. apply elem_of_union_r.
          apply elem_of_list_to_set, list_elem_of_In. exact Hq. }
        unfold is_file in Hfq. rewrite (Hb q) in Hfq by assumption.
        discriminate. }
      rewrite Hfree. eexists. split; reflexivity.
  - exists []. rewrite app_nil_r. simpl.
    split; [reflexivity|]. split; [reflexivity|]. split; [set_solver|].
    split; [auto|]. intros b _ [_ Hbf]. exists b. rewrite app_nil_r.
    split; [|reflexivity]. unfold os_makedirs.
    destruct Hwhy as [->|Hex]; [reflexivity|].
    destruct (String.eqb p EmptyString); [reflexivity|].
    assert (Hex' : existsb (is_file b) (ancestors p) = true).
    { apply existsb_exists in Hex. destruct Hex as (q & Hq & Hfq).
      apply existsb_exists. exists q. split; [exact Hq|].
      apply is_file_true. apply Hbf. apply is_file_true. exact Hfq. }
    rewrite Hex'. reflexivity.
Qed.

Lemma sound_save img p : sound (img_save img p).
Proof.
  intros w r w' H.
  destruct (save_run _ _ _ _ _ H) as [(-> & Hnd & Hd & Hf & Ht)|(-> & -> & Hin)].
  - exists [EvSave p img]. simpl.
    split; [exact Ht|]. split; [exact Hf|].
    split; [rewrite Hd; set_solver|]. split.
    + intros Hok q Hq. rewrite Hf. rewrite Hd in Hq.
      rewrite lookup_insert_ne; [auto|]. intros ->. contradiction.
    + intros b Hb [_ Hbf]. unfold img_save, is_dir.
      assert (Hpb : p ∉ dirs b).
      { intros Hc. specialize (Hb p Hc).
        assert (p ∈ dom (files b)) as Hdom.
        { apply Hbf. rewrite Hf. rewrite dom_insert. set_solver. }
        apply elem_of_dom in Hdom. destruct Hdom as [x Hx]. congruence. }
      rewrite bool_decide_eq_false_2 by exact Hpb.
      eexists. split; reflexivity.
  - exists []. rewrite app_nil_r. simpl.
    split; [reflexivity|]. split; [reflexivity|]. split; [set_solver|].
    split; [auto|]. intros b _ [Hbd _]. exists b. rewrite app_nil_r.
    split; [|reflexivity]. unfold img_save, is_dir.
    rewrite bool_decide_eq_true_2 by (apply Hbd; exact Hin). reflexivity.
Qed.

(** Sequencing, for [bind] and for [try_except] alike. *)
Lemma sound_seq {A B} (c1 : M A) (c2 : M B) w w1 w' r1 r2 :
  sound c1 -> sound c2 ->
  c1 w = (r1, w1) -> c2 w1 = (r2, w') ->
  exists delta, trace w' = trace w ++ delta
    /\ files w' = apply_saves (saves_of delta) (files w)
    /\ dirs w' = dirs w ∪ made_dirs delta
    /\ (fs_ok w -> fs_ok w')
    /\ (forall b, fs_ok b -> beyond w' b ->
          exists b1 b', c1 b = (r1, b1) /\ c2 b1 = (r2, b')
                        /\ trace b' = trace b ++ delta).
Proof.
  intros S1 S2 H1 H2.
  destruct (S1 _ _ _ H1) as (d1 & T1 & F1 & D1 & K1 & Sim1).
  destruct (S2 _ _ _ H2) as (d2 & T2 & F2 & D2 & K2 & Sim2).
  exists (d1 ++ d2).
  split; [rewrite T2, T1, app_assoc; reflexivity|].
  split; [rewrite F2, F1, saves_of_app, apply_saves_app; reflexivity|].
  split; [rewrite D2, D1, made_dirs_app; set_solver|].
  split; [auto|].
  intros b Hb [Hbd Hbf].
  destruct (Sim1 b Hb) as (b1 & Hb1 & Tb1).
  { split.
    - etrans; [|exact Hbd]. rewrite D2. set_solver.
    - etrans; [|exact Hbf]. rewrite F2. apply apply_saves_dom. }
  destruct (S1 _ _ _ Hb1) as (d1' & T1' & F1' & D1' & K1' & _).
  destruct (Sim2 b1) as (b' & Hb' & Tb').
  { auto. }
  { split.
    - etrans; [exact Hbd|]. rewrite D1'. set_solver.
    - etrans; [exact Hbf|]. rewrite F1'. apply apply_saves_dom. }
  exists b1, b'. split; [exact Hb1|]. split; [exact Hb'|].
  rewrite Tb', Tb1, app_assoc. reflexivity.
Qed.

Lemma sound_bind {A B} (c : M A) (k : A -> M B) :
  sound c -> (forall a, sound (k a)) -> sound (bind c k).
Proof.
  intros Sc Sk w r w' H.
  destruct (bind_run _ _ _ _ _ H) as [(a & w1 & H1 & H2)|(e & H1 & ->)].
  - destruct (sound_seq c (k a) _ _ _ _ _ Sc (Sk a) H1 H2)
      as (delta & T & F & D & K & Sim).
    exists delta. repeat (split; [assumption|]).
    intros b Hb Hbe. destruct (Sim b Hb Hbe) as (b1 & b' & Hb1 & Hb' & Tb).
    exists b'. split; [|exact Tb]. rewrite (bind_ok _ _ _ _ _ Hb1). exact Hb'.
  - destruct (Sc _ _ _ H1) as (delta & T & F & D & K & Sim).
    exists delta. repeat (split; [assumption|]).
    intros b Hb Hbe. destruct (Sim b Hb Hbe) as (b' & Hb' & Tb).
    exists b'. split; [|exact Tb]. apply bind_raise. exact Hb'.
Qed.

Lemma sound_try_except {A} (c : M A) (h : exn -> M A) :
  sound c -> (forall e, sound (h e)) -> sound (try_except c h).
Proof.
  intros Sc Sh w r w' H. unfold try_except in H.
  destruct (c w) as [[a|e] w1] eqn:H1.
  - inversion H; subst.
    destruct (Sc _ _ _ H1) as (delta & T & F & D & K & Sim).
    exists delta. repeat (split; [assumption|]).
    intros b Hb Hbe. destruct (Sim b Hb Hbe) as (b' & Hb' & Tb).
    exists b'. split; [|exact Tb]. unfold try_except. rewrite Hb'. reflexivity.
  - destruct (sound_seq c (h e) _ _ _ _ _ Sc (Sh e) H1 H)
      as (delta & T & F & D & K & Sim).
    exists delta. repeat (split; [assumption|]).
    intros b Hb Hbe. destruct (Sim b Hb Hbe) as (b1 & b' & Hb1 & Hb' & Tb).
    exists b'. split; [|exact Tb]. unfold try_except. rewrite Hb1. exact Hb'.
Qed.

Lemma sound_for_each {A} (body : A -> M unit) l :
  (forall x, sound (body x)) -> sound (for_each l body).
Proof.
  intros Hb. induction l as [|x l IH]; simpl.
  - apply sound_ret.
  - apply sound_bind; [apply Hb | intros _; exact IH].
Qed.

(** The program is sound. *)
Lemma sound_slice_plane np_image base plane :
  sound (slice_plane np_image base plane).
Proof.
  unfold slice_plane. apply sound_bind; [apply sound_makedirs|]. intros _.
  destruct (String.eqb plane "axial");
    [apply sound_for_each; intros; apply sound_save|].
  destruct (String.eqb plane "coronal");
    [apply sound_for_each; intros; apply sound_save|].
  destruct (String.eqb plane "sagittal");
    [apply sound_for_each; intros; apply sound_save|].
  apply sound_ret.
Qed.

Lemma sound_slice_image ds input_path base planes :
  sound (slice_image ds input_path base planes).
Proof.
  unfold slice_image. apply sound_try_except.
  - unfold slice_image_body, sitk_read, np_min, np_max.
    apply sound_bind.
    { destruct (read_image ds input_path); [apply sound_ret | apply sound_raise]. }
    intros a. apply sound_bind.
    { destruct (Np.amin a); [apply sound_ret | apply sound_raise]. }
    intros mn. apply sound_bind.
    { destruct (Np.amax a); [apply sound_ret | apply sound_raise]. }
    intros mx. apply sound_bind.
    { apply sound_for_each. intros plane. apply sound_slice_plane. }
    intros _. apply sound_print; discriminate.
  - intros e. apply sound_print; discriminate.
Qed.

Lemma sound_process_file ds input_root output_root root filename :
  sound (process_file ds input_root output_root root filename).
Proof.
  unfold process_file.
  destruct (is_flair root filename || is_dwi root filename); [|apply sound_ret].
  apply sound_bind; [apply sound_print; discriminate|]. intros _.
  apply sound_bind.
  { unfold os_path_relpath.
    destruct (Py.relpath _ _ _); [apply sound_ret | apply sound_raise]. }
  intros rel. apply sound_bind; [apply sound_makedirs|]. intros _.
  apply sound_slice_image.
Qed.

Lemma sound_process_dataset ds input_root output_root :
  sound (process_dataset ds input_root output_root).
Proof.
  unfold process_dataset.
  destruct (negb (os_path_isdir ds input_root)); [apply sound_print; discriminate|].
  apply sound_bind; [apply sound_print; discriminate|]. intros _.
  apply sound_bind; [apply sound_print; discriminate|]. intros _.
  apply sound_bind; [|intros _; apply sound_print; discriminate].
  apply sound_for_each. intros [[root ds'] fnames].
  apply sound_for_each. intros filename. apply sound_process_file.
Qed.

End Sound.

(* ===================================================================== *)
(** * Running the Walker twice *)
(* ===================================================================== *)

Lemma apply_saves_union l : forall m : gmap string Np.image,
  apply_saves l m = list_to_map (rev l) ∪ m.
Proof.
  induction l as [|[p img] l IH]; intros m; simpl.
  - rewrite (left_id_L ∅ (∪)). reflexivity.
  - rewrite IH, list_to_map_app. simpl.
    rewrite <- (assoc_L (∪)). f_equal.
    rewrite insert_empty. apply insert_union_singleton_l.
Qed.

Lemma apply_saves_twice l (m : gmap string Np.image) :
  apply_saves l (apply_saves l m) = apply_saves l m.
Proof.
  rewrite !apply_saves_union, (assoc_L (∪)), (idemp_L (∪)). reflexivity.
Qed.

(** [os.makedirs(path, exist_ok=True)] can be repeated. *)
Lemma makedirs_twice p w w' :
  os_makedirs p w = (Ok tt, w') ->
  exists w'', os_makedirs p w' = (Ok tt, w'')
    /\ dirs w'' = dirs w' /\ files w'' = files w'.
Proof.
  intros H. destruct (makedirs_run _ _ _ _ H)
    as [(_ & Hne & Hex & Hd & Hf & Ht)|(C & _)]; [|discriminate].
  unfold os_makedirs. apply String.eqb_neq in Hne. rewrite Hne.
  assert (E : existsb (is_file w') (ancestors p) = false).
  { rewrite <- Hex. unfold is_file. rewrite Hf. reflexivity. }
  rewrite E. eexists. split; [reflexivity|]. simpl.
  split; [rewrite Hd; set_solver | reflexivity].
Qed.

(** C9.  In an output file system where no path is both a directory and a
    file, a second run of [process_dataset] on the same dataset takes the
    course of the first: the same result, the same messages, directory
    creations and saves in the same order, and it leaves the directories and
    the files (paths and contents) exactly as the first run left them.  A
    directory creation that succeeded succeeds again and changes nothing. *)
Theorem process_dataset_twice (ds : dataset) (input_root output_root : string)
        (w0 : world) :
  fs_ok w0 ->
  let run1 := process_dataset ds input_root output_root w0 in
  let run2 := process_dataset ds input_root output_root (snd run1) in
  fst run2 = fst run1
  /\ files (snd run2) = files (snd run1)
  /\ dirs (snd run2) = dirs (snd run1)
  /\ (exists delta, trace (snd run1) = trace w0 ++ delta
                    /\ trace (snd run2) = trace (snd run1) ++ delta)
  /\ (forall p w w', os_makedirs p w = (Ok tt, w') ->
        exists w'', os_makedirs p w' = (Ok tt, w'')
                    /\ dirs w'' = dirs w' /\ files w'' = files w').
Proof.
  intros Hok run1 run2. subst run2.
  destruct run1 as [r1 w1] eqn:E1. simpl.
  destruct (sound_process_dataset ds input_root output_root _ _ _ E1)
    as (delta & T1 & F1 & D1 & K1 & Sim).
  destruct (Sim w1 (K1 Hok)) as (w2 & E2 & T2).
  { split; reflexivity. }
  rewrite E2. simpl.
  destruct (sound_process_dataset ds input_root output_root _ _ _ E2)
    as (delta' & T2' & F2 & D2 & _ & _).
  assert (delta' = delta).
  { rewrite T2 in T2'. apply app_inv_head in T2'. auto. }
  subst delta'.
  split; [reflexivity|].
  split; [rewrite F2, F1; apply apply_saves_twice|].
  split; [rewrite D2, D1; set_solver|].
  split; [exists delta; auto|].
  apply makedirs_twice.
Qed.

(* ===================================================================== *)
(** * The Walker *)
(* ===================================================================== *)

(** C6.  When the input root is not a directory, [process_dataset] returns
    normally, and all it has done is to report the missing directory, once:
    no directory is made, no file written, no other message printed. *)
Theorem missing_input_directory (ds : dataset) (input_root output_root : string)
        (w : world) :
  os_path_isdir ds input_root = false ->
  process_dataset ds input_root output_root w
  = (Ok tt, {| dirs := dirs w; files := files w;
               trace := trace w ++ [EvMissingInput input_root] |}).
Proof.
  intros H. unfold process_dataset. rewrite H. reflexivity.
Qed.

Lemma contains_spec l x : Py.contains l x = true <-> In x l.
Proof.
  unfold Py.contains. rewrite existsb_exists. split.
  - intros (y & Hy & E). apply String.eqb_eq in E. subst. exact Hy.
  - intros H. exists x. split; [exact H | apply String.eqb_refl].
Qed.

Lemma is_flair_spec root filename :
  is_flair root filename = true <->
  In "anat"%string (Py.split root)
  /\ exists stem, filename = stem +:+ "_FLAIR.nii.gz".
Proof.
  unfold is_flair. rewrite andb_true_iff, contains_spec, endswith_spec.
  reflexivity.
Qed.

Lemma is_dwi_spec root filename :
  is_dwi root filename = true <->
  In "dwi"%string (Py.split root)
  /\ exists stem, filename = stem +:+ "_dwi.nii.gz".
Proof.
  unfold is_dwi. rewrite andb_true_iff, contains_spec, endswith_spec.
  reflexivity.
Qed.

Lemma plane_events_kind np_image base plane e :
  In e (plane_events np_image base plane) ->
  (exists p, e = EvMakedirs p) \/ (exists p img, e = EvSave p img).
Proof.
  unfold plane_events. intros [<-|H]; [left; eauto|]. right.
  destruct (String.eqb plane "axial").
  { apply slices_events_in in H. destruct H as (i & _ & ->). eauto. }
  destruct (String.eqb plane "coronal").
  { apply slices_events_in in H. destruct H as (i & _ & ->). eauto. }
  destruct (String.eqb plane "sagittal").
  { apply slices_events_in in H. destruct H as (i & _ & ->). eauto. }
  destruct H.
Qed.

Lemma founds_of_none tr :
  (forall p, ~ In (EvFound p) tr) -> founds_of tr = [].
Proof.
  induction tr as [|e tr IH]; intros H; [reflexivity|].
  destruct e; simpl;
    try (apply IH; intros p Hp; apply (H p); right; exact Hp).
  exfalso. apply (H file_path). left. reflexivity.
Qed.

Lemma planes_no_found np_image base planes pre p :
  pre `prefix_of` flat_map (plane_events np_image base) planes ->
  ~ In (EvFound p) pre.
Proof.
  intros [rest Hp] Hin.
  assert (H : In (EvFound p) (flat_map (plane_events np_image base) planes)).
  { rewrite Hp. apply in_or_app. left. exact Hin. }
  apply in_flat_map in H. destruct H as (plane & _ & H).
  apply plane_events_kind in H.
  destruct H as [(q & C)|(q & img & C)]; discriminate.
Qed.

Lemma slicer_events_no_found ds input_path base planes delta :
  slicer_events ds input_path base planes delta -> founds_of delta = [].
Proof.
  intros Hs. apply founds_of_none. intros p Hin.
  destruct Hs as [a mn mx Hr Hmn Hmx| |a|a mn mx pre e Hr Hmn Hmx Hp].
  - apply in_app_or in Hin. destruct Hin as [Hin|[C|[]]]; [|discriminate].
    revert Hin. apply planes_no_found with (np_image := Np.normalize a mn mx)
                                           (base := base) (planes := planes).
    reflexivity.
  - destruct Hin as [C|[]]. discriminate.
  - destruct Hin as [C|[]]. discriminate.
  - apply in_app_or in Hin. destruct Hin as [Hin|[C|[]]]; [|discriminate].
    revert Hin. eapply planes_no_found. exact Hp.
Qed.

Lemma tracks_founds_slice_image ds input_path base planes :
  tracks founds_of (slice_image ds input_path base planes) [].
Proof.
  intros w r w' H.
  destruct (slice_image_run _ _ _ _ _ _ _ H) as (_ & delta & T & Hs & _).
  exists delta. split; [exact T|].
  rewrite (slicer_events_no_found _ _ _ _ _ Hs).
  split; [reflexivity|]. reflexivity.
Qed.

Lemma tracks_founds_process_file ds input_root output_root root filename :
  tracks founds_of (process_file ds input_root output_root root filename)
         (found_file root filename).
Proof.
  unfold process_file, found_file.
  destruct (is_flair root filename || is_dwi root filename).
  2:{ apply (tracks_ret founds_of). reflexivity. }
  change [Py.join root filename]
    with (founds_of [EvFound (Py.join root filename)] ++ ([] ++ ([] ++ []))).
  apply (tracks_bind founds_of founds_of_app);
    [apply (tracks_print founds_of)|]. intros _.
  apply (tracks_bind founds_of founds_of_app).
  { unfold os_path_relpath. destruct (Py.relpath _ _ _).
    - apply (tracks_ret founds_of). reflexivity.
    - apply (tracks_raise founds_of). reflexivity. }
  intros rel. apply (tracks_bind founds_of founds_of_app).
  { apply (tracks_makedirs founds_of). reflexivity. }
  intros _. apply tracks_founds_slice_image.
Qed.

Lemma found_files_filter root fnames :
  flat_map (found_file root) fnames
  = map (Py.join root)
        (List.filter (fun f => is_flair root f || is_dwi root f) fnames).
Proof.
  induction fnames as [|f l IH]; [reflexivity|].
  simpl. unfold found_file at 1.
  destruct (is_flair root f || is_dwi root f); simpl; rewrite IH; reflexivity.
Qed.

Lemma tracks_founds_walk ds input_root output_root listing :
  tracks founds_of
         (for_each listing
                   (fun '(root, _, fnames) =>
                      for_each fnames (process_file ds input_root output_root root)))
         (matched_files listing).
Proof.
  unfold matched_files.
  apply (tracks_for_each founds_of eq_refl founds_of_app).
  intros [[root ds'] fnames]. rewrite <- found_files_filter.
  apply (tracks_for_each founds_of eq_refl founds_of_app).
  intros f. apply tracks_founds_process_file.
Qed.

Lemma tracks_founds_process_dataset ds input_root output_root :
  tracks founds_of (process_dataset ds input_root output_root)
         (if os_path_isdir ds input_root
          then matched_files (os_walk ds input_root) else []).
Proof.
  unfold process_dataset. destruct (os_path_isdir ds input_root); simpl.
  - change (matched_files (os_walk ds input_root))
      with ([] ++ ([] ++ (matched_files (os_walk ds input_root)))).
    apply (tracks_bind founds_of founds_of_app);
      [apply (tracks_print founds_of)|]. intros _.
    apply (tracks_bind founds_of founds_of_app);
      [apply (tracks_print founds_of)|]. intros _.
    rewrite <- (app_nil_r (matched_files _)).
    apply (tracks_bind founds_of founds_of_app);
      [apply tracks_founds_walk|]. intros _.
    apply (tracks_print founds_of).
  - apply (tracks_print founds_of).
Qed.

Lemma matched_files_in listing p :
  In p (matched_files listing) <->
  exists root subdirs fnames filename,
    In (root, subdirs, fnames) listing /\ In filename fnames
    /\ p = Py.join root filename
    /\ (is_flair root filename = true \/ is_dwi root filename = true).
Proof.
  unfold matched_files. rewrite in_flat_map. split.
  - intros ([[root sd] fnames] & Hl & Hp).
    apply in_map_iff in Hp. destruct Hp as (f & <- & Hf).
    apply filter_In in Hf. destruct Hf as [Hf Hm].
    apply orb_true_iff in Hm. exists root, sd, fnames, f. auto.
  - intros (root & sd & fnames & f & Hl & Hf & -> & Hm).
    exists (root, sd, fnames). split; [exact Hl|].
    apply in_map. apply filter_In. split; [exact Hf|].
    apply orb_true_iff. exact Hm.
Qed.

(** A matched file whose folder the Walker could make goes to the slicer. *)
Lemma process_file_dispatch ds input_root output_root root filename w rel w1 :
  is_flair root filename = true \/ is_dwi root filename = true ->
  Py.relpath (cwd ds) root input_root = Some rel ->
  os_makedirs (slice_output_folder output_root rel filename)
              (snd (print (EvFound (Py.join root filename)) w))
  = (Ok tt, w1) ->
  process_file ds input_root output_root root filename w
  = slice_image ds (Py.join root filename)
                (slice_output_folder output_root rel filename)
                default_planes w1.
Proof.
  intros Hm Hrel Hmk. unfold process_file.
  apply orb_true_iff in Hm. rewrite Hm.
  unfold bind at 1. simpl in *.
  unfold os_path_relpath. rewrite Hrel.
  unfold bind at 1. unfold ret. unfold bind. rewrite Hmk. reflexivity.
Qed.

(** C5.  A file is a FLAIR match exactly when [anat] is among the components
    of the path of its directory and its name ends with [_FLAIR.nii.gz], and
    a DWI match exactly when [dwi] is among them and the name ends with
    [_dwi.nii.gz].  A file that is neither is skipped without any effect; a
    file that is either is announced and, once its folder is made, handed to
    [slice_image].  Over a whole run the files announced are the matches of
    the walk, in its order (all of them when the run returns). *)
Theorem walker_matches :
  (forall root filename,
      is_flair root filename = true <->
      In "anat"%string (Py.split root)
      /\ exists stem, filename = stem +:+ "_FLAIR.nii.gz")
  /\ (forall root filename,
        is_dwi root filename = true <->
        In "dwi"%string (Py.split root)
        /\ exists stem, filename = stem +:+ "_dwi.nii.gz")
  /\ (forall ds input_root output_root root filename w,
        is_flair root filename = false -> is_dwi root filename = false ->
        process_file ds input_root output_root root filename w = (Ok tt, w))
  /\ (forall ds input_root output_root root filename w rel w1,
        is_flair root filename = true \/ is_dwi root filename = true ->
        Py.relpath (cwd ds) root input_root = Some rel ->
        os_makedirs (slice_output_folder output_root rel filename)
                    (snd (print (EvFound (Py.join root filename)) w))
        = (Ok tt, w1) ->
        process_file ds input_root output_root root filename w
        = slice_image ds (Py.join root filename)
                      (slice_output_folder output_root rel filename)
                      default_planes w1)
  /\ (forall ds input_root output_root w,
        os_path_isdir ds input_root = true ->
        exists delta,
          trace (snd (process_dataset ds input_root output_root w))
          = trace w ++ delta
          /\ founds_of delta `prefix_of` matched_files (os_walk ds input_root)
          /\ (fst (process_dataset ds input_root output_root w) = Ok tt ->
              founds_of delta = matched_files (os_walk ds input_root)))
  /\ (forall listing p,
        In p (matched_files listing) <->
        exists root subdirs fnames filename,
          In (root, subdirs, fnames) listing /\ In filename fnames
          /\ p = Py.join root filename
          /\ (is_flair root filename = true \/ is_dwi root filename = true)).
Proof.
  split; [exact is_flair_spec|]. split; [exact is_dwi_spec|].
  split; [|split; [|split; [|exact matched_files_in]]].
  - intros ds input_root output_root root filename w Hf Hd.
    unfold process_file. rewrite Hf, Hd. reflexivity.
  - intros ds input_root output_root root filename w rel w1.
    apply process_file_dispatch.
  - intros ds input_root output_root w Hdir.
    destruct (process_dataset ds input_root output_root w) as [r w'] eqn:E.
    destruct (tracks_founds_process_dataset _ _ _ _ _ _ E) as (delta & T & P & Q).
    rewrite Hdir in P, Q. exists delta. simpl.
    split; [exact T|]. split; [exact P|].
    intros ->. apply (Q tt). reflexivity.
Qed.

(* ===================================================================== *)
(** * Failures *)
(* ===================================================================== *)

Lemma slice_image_never_raises ds input_path base planes w :
  fst (slice_image ds input_path base planes w) = Ok tt.
Proof.
  destruct (slice_image ds input_path base planes w) as [r w'] eqn:E.
  destruct (slice_image_run _ _ _ _ _ _ _ E) as [-> _]. reflexivity.
Qed.

Lemma slice_image_reports ds input_path base planes w e w1 :
  slice_image_body ds input_path base planes w = (Raise e, w1) ->
  slice_image ds input_path base planes w
  = (Ok tt, {| dirs := dirs w1; files := files w1;
               trace := trace w1 ++ [EvError input_path e] |}).
Proof. intros H. unfold slice_image, try_except. rewrite H. reflexivity. Qed.

Lemma tree_induction (P : tree -> Prop) :
  (forall fnames subdirs,
      Forall (fun p => P (snd p)) subdirs -> P (Dir fnames subdirs)) ->
  forall t, P t.
Proof.
  intros H. fix IH 1. intros [fnames subdirs]. apply H.
  induction subdirs as [|[d t'] rest IHrest].
  - apply List.Forall_nil.
  - apply List.Forall_cons; [apply IH | exact IHrest].
Qed.

Lemma join_nonempty a b : a <> EmptyString -> Py.join a b <> EmptyString.
Proof.
  intros Ha. unfold Py.join.
  destruct (Py.startswith b Py.sep_str) eqn:Eb; simpl.
  - destruct b; [discriminate | discriminate].
  - apply String.eqb_neq in Ha. rewrite Ha.
    destruct (Py.endswith a Py.sep_str); intros E;
      apply (f_equal String.length) in E;
      rewrite ?str_length_app in E; simpl in E;
      apply String.eqb_neq in Ha; destruct a; try contradiction;
      simpl in E; lia.
Qed.

(** Every directory [os.walk] lists below a named top has a name. *)
Lemma walk_tree_roots t : forall top root subdirs fnames,
  top <> EmptyString ->
  In (root, subdirs, fnames) (walk_tree top t) -> root <> EmptyString.
Proof.
  induction t as [fn sd IH] using tree_induction.
  intros top root subdirs fnames Htop [E|Hin].
  - inversion E; subst. exact Htop.
  - apply in_flat_map in Hin. destruct Hin as ([d t'] & Hd & Hin).
    rewrite List.Forall_forall in IH.
    apply (IH (d, t') Hd (Py.join top d) root subdirs fnames);
      [apply join_nonempty; exact Htop | exact Hin].
Qed.

Lemma isdir_nonempty ds input_root :
  os_path_isdir ds input_root = true -> input_root <> EmptyString.
Proof.
  unfold os_path_isdir. intros H. apply andb_true_iff in H.
  destruct H as [H _]. apply negb_true_iff, String.eqb_neq in H. exact H.
Qed.

Lemma os_walk_roots ds input_root root subdirs fnames :
  input_root <> EmptyString ->
  In (root, subdirs, fnames) (os_walk ds input_root) -> root <> EmptyString.
Proof.
  unfold os_walk. intros Hne. destruct (lookup_dir ds input_root) as [t|].
  - apply walk_tree_roots. exact Hne.
  - intros [].
Qed.

Lemma relpath_defined cwd_ path start :
  path <> EmptyString -> exists rel, Py.relpath cwd_ path start = Some rel.
Proof.
  intros H. unfold Py.relpath. apply String.eqb_neq in H. rewrite H.
  destruct (repeat _ _ ++ drop _ _); eauto.
Qed.

Lemma for_each_raise {A} (body : A -> M unit) l : forall w e w',
  for_each l body w = (Raise e, w') ->
  exists x w1, In x l /\ body x w1 = (Raise e, w').
Proof.
  induction l as [|x l IH]; intros w e w' H; simpl in H.
  - discriminate.
  - destruct (bind_run _ _ _ _ _ H) as [(a & w1 & H1 & H2)|(e' & H1 & E)].
    + destruct (IH _ _ _ H2) as (y & w2 & Hy & Hb).
      exists y, w2. split; [right; exact Hy | exact Hb].
    + inversion E; subst. exists x, w. split; [left; reflexivity | exact H1].
Qed.

(** What can make [process_file] raise: the refusal of its own
    [os.makedirs], or an empty directory path. *)
Lemma process_file_raise ds input_root output_root root filename w e w' :
  root <> EmptyString ->
  process_file ds input_root output_root root filename w = (Raise e, w') ->
  (is_flair root filename = true \/ is_dwi root filename = true)
  /\ exists rel, Py.relpath (cwd ds) root input_root = Some rel
       /\ e = OSError (slice_output_folder output_root rel filename).
Proof.
  intros Hroot H. unfold process_file in H.
  destruct (is_flair root filename || is_dwi root filename) eqn:Em;
    [|discriminate].
  split; [apply orb_true_iff; exact Em|].
  destruct (relpath_defined (cwd ds) root input_root Hroot) as [rel Hrel].
  exists rel. split; [exact Hrel|].
  unfold bind at 1 in H. simpl in H.
  unfold os_path_relpath in H. rewrite Hrel in H.
  unfold bind at 1 in H. unfold ret in H.
  destruct (bind_run _ _ _ _ _ H) as [(a & w1 & H1 & H2)|(e' & H1 & E)].
  - pose proof (slice_image_never_raises ds (Py.join root filename)
                  (slice_output_folder output_root rel filename)
                  default_planes w1) as Hn.
    rewrite H2 in Hn. discriminate.
  - inversion E; subst e'.
    destruct (makedirs_run _ _ _ _ H1) as [(C & _)|(C & _)];
      [discriminate | congruence].
Qed.

(** X18.  Nothing that fails inside [slice_image] -- loading the file,
    reducing the array, making a plane directory, saving an image -- leaves
    it: the call returns normally, the failure is reported with the path of
    the file as the last thing done for that file, and, the folder of the
    file once made, the loop over the files goes on with the next one. *)
Theorem slicer_failures_isolated :
  (forall ds input_path base planes w,
      fst (slice_image ds input_path base planes w) = Ok tt)
  /\ (forall ds input_path base planes w e w1,
        slice_image_body ds input_path base planes w = (Raise e, w1) ->
        slice_image ds input_path base planes w
        = (Ok tt, {| dirs := dirs w1; files := files w1;
                     trace := trace w1 ++ [EvError input_path e] |}))
  /\ (forall ds input_path base planes w,
        read_image ds input_path = None ->
        slice_image ds input_path base planes w
        = (Ok tt, {| dirs := dirs w; files := files w;
                     trace := trace w
                              ++ [EvError input_path (RuntimeError input_path)] |}))
  /\ (forall ds input_root output_root root filename rest w rel w1,
        is_flair root filename = true \/ is_dwi root filename = true ->
        Py.relpath (cwd ds) root input_root = Some rel ->
        os_makedirs (slice_output_folder output_root rel filename)
                    (snd (print (EvFound (Py.join root filename)) w))
        = (Ok tt, w1) ->
        for_each (filename :: rest)
                 (process_file ds input_root output_root root) w
        = for_each rest (process_file ds input_root output_root root)
                   (snd (slice_image ds (Py.join root filename)
                                     (slice_output_folder output_root rel filename)
                                     default_planes w1))).
Proof.
  split; [exact slice_image_never_raises|].
  split; [exact slice_image_reports|].
  split.
  - intros ds input_path base planes w Hr.
    apply slice_image_reports with (w1 := w) (e := RuntimeError input_path).
    unfold slice_image_body, sitk_read. rewrite Hr. reflexivity.
  - intros ds input_root output_root root filename rest w rel w1 Hm Hrel Hmk.
    simpl. unfold bind.
    rewrite (process_file_dispatch _ _ _ _ _ _ _ _ Hm Hrel Hmk).
    pose proof (slice_image_never_raises ds (Py.join root filename)
                  (slice_output_folder output_root rel filename)
                  default_planes w1) as Hn.
    destruct (slice_image _ _ _ _ w1) as [r w2]. simpl in *. subst r.
    reflexivity.
Qed.

(** An exception that leaves [process_dataset] is the refusal of the
    Walker's own [os.makedirs] for the folder of a matched file. *)
Lemma process_dataset_raise ds input_root output_root w e :
  fst (process_dataset ds input_root output_root w) = Raise e ->
  exists root subdirs fnames filename rel,
    In (root, subdirs, fnames) (os_walk ds input_root)
    /\ In filename fnames
    /\ (is_flair root filename = true \/ is_dwi root filename = true)
    /\ Py.relpath (cwd ds) root input_root = Some rel
    /\ e = OSError (slice_output_folder output_root rel filename).
Proof.
  intros H.
  destruct (process_dataset ds input_root output_root w) as [r w'] eqn:E.
  simpl in H. subst r. unfold process_dataset in E.
  destruct (os_path_isdir ds input_root) eqn:Hdir; simpl in E;
    [|discriminate].
  apply isdir_nonempty in Hdir.
  unfold bind at 1 in E. simpl in E. unfold bind at 1 in E. simpl in E.
  destruct (bind_run _ _ _ _ _ E) as [(a & w1 & H1 & H2)|(e' & H1 & E')].
  { discriminate. }
  inversion E'; subst e'.
  destruct (for_each_raise _ _ _ _ _ H1) as ([[root sd] fnames] & w2 & Hin & Hb).
  destruct (for_each_raise _ _ _ _ _ Hb) as (f & w3 & Hf & Hpf).
  pose proof (os_walk_roots _ _ _ _ _ Hdir Hin) as Hroot.
  destruct (process_file_raise _ _ _ _ _ _ _ _ Hroot Hpf)
    as (Hm & rel & Hrel & ->).
  exists root, sd, fnames, f, rel. auto.
Qed.

(** C3.  The Walker's own [os.makedirs], for the folder of a matched file,
    runs outside the [try] of [slice_image].  When it is refused the
    exception leaves the loop over the files at once: nothing is reported
    for the file, the files after it are not reached, and
    [process_dataset] raises.  With two volumes that both load, a regular
    file that has the name of the folder of the first one ends the run
    before the second volume, which would have been sliced; the same file
    one level deeper, where [slice_image] makes the directory of a plane
    inside its [try], is reported with the path of the volume and the run
    goes on to slice the second volume. *)
Theorem walker_makedirs_escapes :
  (forall ds input_root output_root root filename rest w rel e w1,
      is_flair root filename = true \/ is_dwi root filename = true ->
      Py.relpath (cwd ds) root input_root = Some rel ->
      os_makedirs (slice_output_folder output_root rel filename)
                  (snd (print (EvFound (Py.join root filename)) w))
      = (Raise e, w1) ->
      for_each (filename :: rest)
               (process_file ds input_root output_root root) w
      = (Raise (OSError (slice_output_folder output_root rel filename)),
         snd (print (EvFound (Py.join root filename)) w)))
  /\ (matched_files (os_walk ex_ds_pair "ds")
      = ["ds/anat/a_FLAIR.nii.gz"; "ds/anat/b_FLAIR.nii.gz"]%string
      /\ fst (process_dataset ex_ds_pair "ds" "slide" ex_world_folder_taken)
         = Raise (OSError "slide/anat/a_FLAIR_slices")
      /\ trace (snd (process_dataset ex_ds_pair "ds" "slide"
                                     ex_world_folder_taken))
         = [EvStart "ds"; EvOutputTo "slide";
            EvFound "ds/anat/a_FLAIR.nii.gz"]
      /\ files (snd (process_dataset ex_ds_pair "ds" "slide"
                                     ex_world_folder_taken))
         = files ex_world_folder_taken
      /\ fst (process_file ex_ds_pair "ds" "slide" "ds/anat" "b_FLAIR.nii.gz"
                           ex_world_folder_taken) = Ok tt
      /\ last (trace (snd (process_file ex_ds_pair "ds" "slide" "ds/anat"
                                        "b_FLAIR.nii.gz"
                                        ex_world_folder_taken)))
         = Some (EvSliced "slide/anat/b_FLAIR_slices"))
  /\ (fst (process_dataset ex_ds_pair "ds" "slide" ex_world_plane_taken)
      = Ok tt
      /\ firstn 5 (trace (snd (process_dataset ex_ds_pair "ds" "slide"
                                               ex_world_plane_taken)))
         = [EvStart "ds"; EvOutputTo "slide";
            EvFound "ds/anat/a_FLAIR.nii.gz";
            EvMakedirs "slide/anat/a_FLAIR_slices";
            EvError "ds/anat/a_FLAIR.nii.gz"
                    (OSError "slide/anat/a_FLAIR_slices/axial")]
      /\ In (EvSliced "slide/anat/b_FLAIR_slices")
            (trace (snd (process_dataset ex_ds_pair "ds" "slide"
                                         ex_world_plane_taken)))
      /\ last (trace (snd (process_dataset ex_ds_pair "ds" "slide"
                                           ex_world_plane_taken)))
         = Some EvComplete).
Proof.
  split; [|split].
  - intros ds input_root output_root root filename rest w rel e w1 Hm Hrel Hmk.
    destruct (makedirs_run _ _ _ _ Hmk) as [(C & _)|(He & Hw & _)];
      [discriminate|].
    injection He as ->. subst w1.
    cbn [for_each]. unfold bind at 1.
    assert (E : process_file ds input_root output_root root filename w
                = (Raise (OSError (slice_output_folder output_root rel filename)),
                   snd (print (EvFound (Py.join root filename)) w))).
    { unfold process_file. apply orb_true_iff in Hm. rewrite Hm.
      unfold bind at 1. simpl in *.
      unfold os_path_relpath. rewrite Hrel.
      unfold bind at 1. unfold ret. unfold bind. rewrite Hmk. reflexivity. }
    rewrite E. reflexivity.
  - split; [vm_compute; reflexivity|].
    split; [vm_compute; reflexivity|].
    split; [vm_compute; reflexivity|].
    split; [vm_compute; reflexivity|].
    split; vm_compute; reflexivity.
  - split; [vm_compute; reflexivity|].
    split; [vm_compute; reflexivity|].
    split; [vm_compute; tauto|].
    vm_compute; reflexivity.
Qed.

(** A volume that does not load is reported and the next one is sliced. *)
Example unreadable_volume_skipped :
  fst (process_dataset ex_ds_two "ds" "slide" empty_world) = Ok tt
  /\ firstn 6 (trace (snd (process_dataset ex_ds_two "ds" "slide" empty_world)))
     = [EvStart "ds"; EvOutputTo "slide";
        EvFound "ds/anat/a_FLAIR.nii.gz";
        EvMakedirs "slide/anat/a_FLAIR_slices";
        EvError "ds/anat/a_FLAIR.nii.gz" (RuntimeError "ds/anat/a_FLAIR.nii.gz");
        EvFound "ds/anat/b_FLAIR.nii.gz"]
  /\ last (trace (snd (process_dataset ex_ds_two "ds" "slide" empty_world)))
     = Some EvComplete
  /\ In (EvSliced "slide/anat/b_FLAIR_slices")
        (trace (snd (process_dataset ex_ds_two "ds" "slide" empty_world))).
Proof.
  split; [vm_compute; reflexivity|].
  split; [vm_compute; reflexivity|].
  split; [vm_compute; reflexivity|].
  vm_compute. tauto.
Qed.

(* ===================================================================== *)
(** * The slices of a volume *)
(* ===================================================================== *)

Section Slices.

Lemma saves_of_slices_events d n f :
  saves_of (slices_events d n f)
  = map (fun i => (Py.join d (slice_name i), f i)) (seq 0 n).
Proof.
  unfold slices_events. induction (seq 0 n) as [|i l IH]; simpl;
    [|rewrite IH]; reflexivity.
Qed.

Lemma saves_of_plane_events np_image base plane :
  saves_of (plane_events np_image base plane)
  = if String.eqb plane "axial" then
      plane_saves base plane (Np.depth np_image) (Np.axial np_image)
    else if String.eqb plane "coronal" then
      plane_saves base plane (Np.height np_image) (Np.coronal np_image)
    else if String.eqb plane "sagittal" then
      plane_saves base plane (Np.width np_image) (Np.sagittal np_image)
    else [].
Proof.
  unfold plane_events, plane_saves. simpl saves_of.
  destruct (String.eqb plane "axial"); [apply saves_of_slices_events|].
  destruct (String.eqb plane "coronal"); [apply saves_of_slices_events|].
  destruct (String.eqb plane "sagittal"); [apply saves_of_slices_events|].
  reflexivity.
Qed.

Lemma flat_rows_length (c : nat) (f : nat -> nat -> Z) (l : list nat) :
  length (flat_map (fun y => map (fun x => f y x) (seq 0 c)) l)
  = (length l * c)%nat.
Proof.
  induction l as [|y l IH]; simpl; [reflexivity|].
  rewrite length_app, length_map, length_seq, IH. reflexivity.
Qed.

Lemma tabulate2_length r c f :
  length (Np.pixels (Np.tabulate2 r c f)) = (r * c)%nat.
Proof. simpl. rewrite flat_rows_length, length_seq. reflexivity. Qed.

Lemma normalize_dims a mn mx :
  Np.depth (Np.normalize a mn mx) = Np.depth a
  /\ Np.height (Np.normalize a mn mx) = Np.height a
  /\ Np.width (Np.normalize a mn mx) = Np.width a.
Proof.
  unfold Np.depth, Np.height, Np.width. rewrite normalize_shape. auto.
Qed.

(** The path of a slice, for a plane whose name is not empty, is relative
    and does not end with a separator. *)
Lemma slice_path base stem c i :
  c <> Py.sep ->
  Py.startswith (stem +:+ String c EmptyString) Py.sep_str = false ->
  Py.join (Py.join base (stem +:+ String c EmptyString)) (slice_name i)
  = join_prefix base +:+ (stem +:+ String c EmptyString)
    +:+ Py.sep_str +:+ slice_name i.
Proof.
  intros Hc Hrel. rewrite (join_rel base _ Hrel).
  rewrite join_plain.
  - rewrite !str_app_assoc. reflexivity.
  - apply slice_name_rel.
  - apply str_app_nonempty, str_app_nonempty. discriminate.
  - rewrite <- str_app_assoc. apply endswith_false_last. exact Hc.
Qed.

Lemma slice_path_axial base i :
  Py.join (Py.join base "axial") (slice_name i)
  = join_prefix base +:+ "axial/" +:+ slice_name i.
Proof.
  exact (slice_path base "axia" "l" i ltac:(discriminate) eq_refl).
Qed.

Lemma slice_path_coronal base i :
  Py.join (Py.join base "coronal") (slice_name i)
  = join_prefix base +:+ "coronal/" +:+ slice_name i.
Proof.
  exact (slice_path base "corona" "l" i ltac:(discriminate) eq_refl).
Qed.

Lemma slice_path_sagittal base i :
  Py.join (Py.join base "sagittal") (slice_name i)
  = join_prefix base +:+ "sagittal/" +:+ slice_name i.
Proof.
  exact (slice_path base "sagitta" "l" i ltac:(discriminate) eq_refl).
Qed.

Lemma NoDup_map_inj {A B} (f : A -> B) l :
  (forall x y, f x = f y -> x = y) -> NoDup l -> NoDup (map f l).
Proof.
  intros Hinj Hl. induction Hl as [|x l Hx Hl IH]; simpl; constructor.
  - intros Hin. apply list_elem_of_In, in_map_iff in Hin.
    destruct Hin as (y & E & Hy). apply Hinj in E. subst y.
    apply Hx, list_elem_of_In, Hy.
  - exact IH.
Qed.

Lemma plane_saves_paths base plane n f :
  map fst (plane_saves base plane n f)
  = map (fun i => Py.join (Py.join base plane) (slice_name i)) (seq 0 n).
Proof. unfold plane_saves. rewrite map_map. reflexivity. Qed.

Lemma plane_saves_in base plane n f p img :
  In (p, img) (plane_saves base plane n f) ->
  exists i, (i < n)%nat /\ p = Py.join (Py.join base plane) (slice_name i)
            /\ img = f i.
Proof.
  unfold plane_saves. intros H. apply in_map_iff in H.
  destruct H as (i & [= <- <-] & Hi). apply in_seq in Hi.
  exists i. split; [lia | auto].
Qed.

(** The files of the three planes are all different. *)
Lemma three_planes_nodup base d h w_ fa fc fs :
  NoDup (map fst (plane_saves base "axial" d fa
                  ++ plane_saves base "coronal" h fc
                  ++ plane_saves base "sagittal" w_ fs)).
Proof.
  rewrite !map_app, !plane_saves_paths.
  assert (Hax : forall i j,
             Py.join (Py.join base "axial") (slice_name i)
             = Py.join (Py.join base "axial") (slice_name j) -> i = j).
  { intros i j. rewrite !slice_path_axial. intros E.
    apply str_app_inv_head, str_app_inv_head in E. apply slice_name_inj, E. }
  assert (Hco : forall i j,
             Py.join (Py.join base "coronal") (slice_name i)
             = Py.join (Py.join base "coronal") (slice_name j) -> i = j).
  { intros i j. rewrite !slice_path_coronal. intros E.
    apply str_app_inv_head, str_app_inv_head in E. apply slice_name_inj, E. }
  assert (Hsa : forall i j,
             Py.join (Py.join base "sagittal") (slice_name i)
             = Py.join (Py.join base "sagittal") (slice_name j) -> i = j).
  { intros i j. rewrite !slice_path_sagittal. intros E.
    apply str_app_inv_head, str_app_inv_head in E. apply slice_name_inj, E. }
  apply NoDup_app. split; [apply NoDup_map_inj; [exact Hax | apply NoDup_seq]|].
  split.
  - intros p Hp Hq. apply list_elem_of_In, in_map_iff in Hp.
    destruct Hp as (i & <- & _).
    apply list_elem_of_In, in_app_or in Hq.
    destruct Hq as [Hq|Hq]; apply in_map_iff in Hq; destruct Hq as (j & E & _);
      revert E; rewrite slice_path_axial, ?slice_path_coronal, ?slice_path_sagittal;
      intros E; apply str_app_inv_head in E; discriminate E.
  - apply NoDup_app. split; [apply NoDup_map_inj; [exact Hco | apply NoDup_seq]|].
    split; [|apply NoDup_map_inj; [exact Hsa | apply NoDup_seq]].
    intros p Hp Hq. apply list_elem_of_In, in_map_iff in Hp.
    destruct Hp as (i & <- & _).
    apply list_elem_of_In, in_map_iff in Hq. destruct Hq as (j & E & _).
    revert E. rewrite slice_path_coronal, slice_path_sagittal.
    intros E. apply str_app_inv_head in E. discriminate E.
Qed.

(** With distinct paths, every save is in the file system at the end. *)
Lemma apply_saves_lookup l (m : gmap string Np.image) p img :
  NoDup (map fst l) -> In (p, img) l -> apply_saves l m !! p = Some img.
Proof.
  intros Hnd Hin. rewrite apply_saves_union.
  apply lookup_union_Some_l. apply elem_of_list_to_map_1.
  - apply NoDup_ListNoDup. change (List.NoDup (map fst (rev l))).
    rewrite map_rev. apply List.NoDup_rev, NoDup_ListNoDup. exact Hnd.
  - apply list_elem_of_In, in_rev. rewrite rev_involutive. exact Hin.
Qed.

End Slices.

(* ===================================================================== *)
(** * Slicing into an unobstructed folder succeeds *)
(* ===================================================================== *)

Section Success.

Lemma cuts_prefix p : forall q, In q (cuts p) -> exists r, p = q +:+ r.
Proof.
  induction p as [|c s IH]; intros q Hq; simpl in Hq.
  - destruct Hq as [<-|[]]. exists EmptyString. reflexivity.
  - apply in_app_or in Hq. destruct Hq as [Hq|Hq].
    + destruct (Ascii.eqb c Py.sep); [|destruct Hq].
      destruct Hq as [<-|[]]. exists (String c s). reflexivity.
    + apply in_map_iff in Hq. destruct Hq as (q' & <- & Hq').
      destruct (IH q' Hq') as [r ->]. exists r. reflexivity.
Qed.

Lemma ancestors_prefix p q : In q (ancestors p) -> exists r, p = q +:+ r.
Proof.
  unfold ancestors. intros H. apply filter_In in H. apply cuts_prefix, H.
Qed.

Lemma slice_name_length i : (13 <= String.length (slice_name i))%nat.
Proof.
  unfold slice_name. rewrite !str_length_app, format_03d_length. simpl. lia.
Qed.

Lemma plane_dir_form base plane :
  In plane default_planes ->
  Py.join base plane = join_prefix base +:+ plane
  /\ (5 <= String.length plane <= 8)%nat.
Proof.
  intros [<-|[<-|[<-|[]]]]; (split; [apply join_rel; reflexivity | simpl; lia]).
Qed.

Lemma slice_path_form base plane i :
  In plane default_planes ->
  Py.join (Py.join base plane) (slice_name i)
  = join_prefix base +:+ plane +:+ Py.sep_str +:+ slice_name i.
Proof.
  intros [<-|[<-|[<-|[]]]];
    [apply slice_path_axial | apply slice_path_coronal | apply slice_path_sagittal].
Qed.

(** A slice is never where a plane directory or one of its ancestors is. *)
Lemma slice_not_ancestor base p q i :
  In p default_planes -> In q default_planes ->
  ~ In (Py.join (Py.join base p) (slice_name i)) (ancestors (Py.join base q)).
Proof.
  intros Hp Hq Hin. apply ancestors_prefix in Hin. destruct Hin as [r E].
  rewrite (slice_path_form base p i Hp) in E.
  destruct (plane_dir_form base q Hq) as [Eq Lq]. rewrite Eq in E.
  destruct (plane_dir_form base p Hp) as [_ Lp].
  rewrite !str_app_assoc in E. apply str_app_inv_head in E.
  apply (f_equal String.length) in E. rewrite !str_length_app in E.
  pose proof (slice_name_length i). simpl in E. lia.
Qed.

Lemma plane_dir_nonempty base plane :
  In plane default_planes -> Py.join base plane <> EmptyString.
Proof.
  intros Hp. destruct (plane_dir_form base plane Hp) as [-> L].
  apply str_app_nonempty. intros ->. simpl in L. lia.
Qed.

Lemma makedirs_ok p w :
  p <> EmptyString -> existsb (is_file w) (ancestors p) = false ->
  os_makedirs p w
  = (Ok tt, {| dirs := dirs w ∪ list_to_set (ancestors p);
               files := files w;
               trace := trace w ++ [EvMakedirs p] |}).
Proof.
  intros Hp Hex. unfold os_makedirs.
  apply String.eqb_neq in Hp. rewrite Hp, Hex. reflexivity.
Qed.

Lemma saves_ok (d : string) (f : nat -> Np.image) l : forall w,
  (forall i, In i l -> Py.join d (slice_name i) ∉ dirs w) ->
  exists w',
    for_each l (fun i => img_save (f i) (Py.join d (slice_name i))) w
    = (Ok tt, w')
    /\ dirs w' = dirs w
    /\ (forall q, is_file w' q = true ->
          is_file w q = true \/ exists i, In i l /\ q = Py.join d (slice_name i)).
Proof.
  induction l as [|i l IH]; intros w Hfree.
  - exists w. split; [reflexivity|]. split; [reflexivity|]. auto.
  - simpl. unfold bind.
    assert (Hi : img_save (f i) (Py.join d (slice_name i)) w
                 = (Ok tt, {| dirs := dirs w;
                              files := <[Py.join d (slice_name i) := f i]> (files w);
                              trace := trace w ++ [EvSave (Py.join d (slice_name i)) (f i)] |})).
    { unfold img_save, is_dir.
      rewrite bool_decide_eq_false_2; [reflexivity|].
      apply Hfree. left. reflexivity. }
    rewrite Hi.
    destruct (IH {| dirs := dirs w;
                    files := <[Py.join d (slice_name i) := f i]> (files w);
                    trace := trace w ++ [EvSave (Py.join d (slice_name i)) (f i)] |})
      as (w' & Hrun & Hd & Hf).
    { intros j Hj. simpl. apply Hfree. right. exact Hj. }
    exists w'. split; [exact Hrun|]. split; [exact Hd|].
    intros q Hq. destruct (Hf q Hq) as [Hq'|(j & Hj & ->)].
    + unfold is_file in Hq'. simpl in Hq'.
      destruct (decide (Py.join d (slice_name i) = q)) as [<-|Hne].
      * right. exists i. split; [left; reflexivity | reflexivity].
      * rewrite lookup_insert_ne in Hq' by exact Hne. left. exact Hq'.
    + right. exists j. split; [right; exact Hj | reflexivity].
Qed.

(** One round of the loop over the planes succeeds in an unobstructed
    folder and leaves it unobstructed. *)
Lemma slice_plane_ok np_image base plane w :
  In plane default_planes -> unobstructed base w ->
  exists w', slice_plane np_image base plane w = (Ok tt, w')
             /\ unobstructed base w'.
Proof.
  intros Hp [Hfiles Hdirs].
  assert (Hloop : forall n f,
             exists w',
               (os_makedirs (Py.join base plane);;
                save_slices (Py.join base plane) n f) w = (Ok tt, w')
               /\ unobstructed base w').
  { intros n f. unfold bind.
    rewrite (makedirs_ok _ _ (plane_dir_nonempty base plane Hp) (Hfiles plane Hp)).
    destruct (saves_ok (Py.join base plane) f (seq 0 n)
                {| dirs := dirs w ∪ list_to_set (ancestors (Py.join base plane));
                   files := files w;
                   trace := trace w ++ [EvMakedirs (Py.join base plane)] |})
      as (w' & Hrun & Hd & Hf).
    { intros i _. simpl. intros Hin. apply elem_of_union in Hin.
      destruct Hin as [Hin|Hin]; [exact (Hdirs plane i Hp Hin)|].
      apply elem_of_list_to_set, list_elem_of_In in Hin.
      exact (slice_not_ancestor base plane plane i Hp Hp Hin). }
    exists w'. split; [exact Hrun|]. split.
    - intros q Hq. apply not_true_iff_false. intros Hex.
      apply existsb_exists in Hex. destruct Hex as (x & Hx & Hfx).
      destruct (Hf x Hfx) as [Hw|(i & _ & ->)].
      + specialize (Hfiles q Hq). apply not_true_iff_false in Hfiles.
        apply Hfiles, existsb_exists. exists x. auto.
      + exact (slice_not_ancestor base plane q i Hp Hq Hx).
    - intros q i Hq Hin. rewrite Hd in Hin. simpl in Hin.
      apply elem_of_union in Hin. destruct Hin as [Hin|Hin];
        [exact (Hdirs q i Hq Hin)|].
      apply elem_of_list_to_set, list_elem_of_In in Hin.
      exact (slice_not_ancestor base q plane i Hq Hp Hin). }
  unfold slice_plane.
  destruct Hp as [<-|[<-|[<-|[]]]]; simpl String.eqb; cbv iota; apply Hloop.
Qed.

Lemma planes_ok np_image base planes : forall w,
  (forall plane, In plane planes -> In plane default_planes) ->
  unobstructed base w ->
  exists w', for_each planes (slice_plane np_image base) w = (Ok tt, w')
             /\ unobstructed base w'.
Proof.
  induction planes as [|plane planes IH]; intros w Hsub Hw.
  - exists w. split; [reflexivity | exact Hw].
  - simpl. unfold bind.
    destruct (slice_plane_ok np_image base plane w) as (w1 & H1 & Hw1);
      [apply Hsub; left; reflexivity | exact Hw |].
    rewrite H1. apply IH; [|exact Hw1].
    intros q Hq. apply Hsub. right. exact Hq.
Qed.

Lemma volume_ok_extrema a :
  Np.volume_ok a -> exists mn mx, Np.amin a = Some mn /\ Np.amax a = Some mx.
Proof.
  intros (Hlen & Hd & Hh & Hw & _). unfold Np.amin, Np.amax.
  destruct (Np.data a) as [|x xs]; [|eauto].
  simpl in Hlen. exfalso.
  assert (0 < Np.depth a * Np.height a * Np.width a)%nat by
    (repeat apply Nat.mul_pos_pos; assumption).
  lia.
Qed.

(** A well-formed volume that loads is sliced to the end, in the three
    planes, whenever the output folder is unobstructed. *)
Lemma slicing_succeeds ds input_path base w a :
  read_image ds input_path = Some a ->
  Np.volume_ok a ->
  unobstructed base w ->
  sliced_ok ds input_path base default_planes w.
Proof.
  intros Hr Hok Hw. unfold sliced_ok, slice_image_body.
  destruct (volume_ok_extrema a Hok) as (mn & mx & Hmn & Hmx).
  destruct (planes_ok (Np.normalize a mn mx) base default_planes w)
    as (w' & Hrun & _); [auto | exact Hw |].
  rewrite (bind_ok _ _ w a w) by (unfold sitk_read; rewrite Hr; reflexivity).
  rewrite (bind_ok _ _ w mn w) by (unfold np_min; rewrite Hmn; reflexivity).
  rewrite (bind_ok _ _ w mx w) by (unfold np_max; rewrite Hmx; reflexivity).
  cbv zeta. rewrite (bind_ok _ _ w tt w' Hrun). reflexivity.
Qed.

(** Nothing stands in the way in an empty file system. *)
Lemma empty_world_unobstructed base : unobstructed base empty_world.
Proof.
  split.
  - intros plane _. apply not_true_iff_false. intros H.
    apply existsb_exists in H. destruct H as (q & _ & Hq).
    unfold is_file, empty_world in Hq. simpl in Hq.
    rewrite lookup_empty in Hq. discriminate.
  - intros plane i _ H. simpl in H. apply elem_of_empty in H. exact H.
Qed.

End Success.

(** C2.  A well-formed volume that loads is sliced to the end, in the three
    planes, whenever nothing in the file system stands in the way.  And
    when [slice_image] slices a volume of shape (D, H, W) in the three
    planes and runs to its end, the images it saves are, in this order, the
    D axial slices, each of shape (H, W), the H coronal slices, each of
    shape (D, W), and the W sagittal slices, each of shape (D, H); they go
    to D + H + W different files, and each is in the file system when the
    call returns. *)
Theorem slice_counts (ds : dataset) (input_path base : string) (w : world)
        (a : Np.ndarray) :
  read_image ds input_path = Some a ->
  (Np.volume_ok a -> unobstructed base w ->
   sliced_ok ds input_path base default_planes w)
  /\
  (sliced_ok ds input_path base default_planes w ->
  let w' := snd (slice_image ds input_path base default_planes w) in
  exists min_val max_val delta,
    Np.amin a = Some min_val /\ Np.amax a = Some max_val
    /\ trace w' = trace w ++ delta
    /\ let np_image := Np.normalize a min_val max_val in
       saves_of delta
       = plane_saves base "axial" (Np.depth a) (Np.axial np_image)
         ++ plane_saves base "coronal" (Np.height a) (Np.coronal np_image)
         ++ plane_saves base "sagittal" (Np.width a) (Np.sagittal np_image)
       /\ length (plane_saves base "axial" (Np.depth a) (Np.axial np_image))
          = Np.depth a
       /\ length (plane_saves base "coronal" (Np.height a) (Np.coronal np_image))
          = Np.height a
       /\ length (plane_saves base "sagittal" (Np.width a) (Np.sagittal np_image))
          = Np.width a
       /\ (forall i, Np.img_shape (Np.axial np_image i) = (Np.height a, Np.width a)
                     /\ length (Np.pixels (Np.axial np_image i))
                        = (Np.height a * Np.width a)%nat)
       /\ (forall i, Np.img_shape (Np.coronal np_image i) = (Np.depth a, Np.width a)
                     /\ length (Np.pixels (Np.coronal np_image i))
                        = (Np.depth a * Np.width a)%nat)
       /\ (forall i, Np.img_shape (Np.sagittal np_image i) = (Np.depth a, Np.height a)
                     /\ length (Np.pixels (Np.sagittal np_image i))
                        = (Np.depth a * Np.height a)%nat)
       /\ NoDup (map fst (saves_of delta))
       /\ length (saves_of delta) = (Np.depth a + Np.height a + Np.width a)%nat
       /\ (forall p img, In (p, img) (saves_of delta) ->
             files w' !! p = Some img)).
Proof.
  intros Hr. split; [apply slicing_succeeds; exact Hr|].
  intros Hok w'. subst w'.
  destruct (slice_image ds input_path base default_planes w) as [r w'] eqn:E.
  cbn [snd].
  destruct (slice_image_run _ _ _ _ _ _ _ E) as (_ & delta & T & _ & Hd).
  destruct (Hd Hok) as (a' & mn & mx & Hr' & Hmn & Hmx & ->).
  assert (a' = a) by congruence. subst a'.
  exists mn, mx. eexists. split; [exact Hmn|]. split; [exact Hmx|].
  split; [exact T|]. cbv zeta.
  destruct (normalize_dims a mn mx) as (Ed & Eh & Ew).
  assert (Es : saves_of
                 (flat_map (plane_events (Np.normalize a mn mx) base) default_planes
                  ++ [EvSliced base])
               = plane_saves base "axial" (Np.depth a) (Np.axial (Np.normalize a mn mx))
                 ++ plane_saves base "coronal" (Np.height a) (Np.coronal (Np.normalize a mn mx))
                 ++ plane_saves base "sagittal" (Np.width a) (Np.sagittal (Np.normalize a mn mx))).
  { unfold default_planes. cbn [flat_map].
    rewrite !saves_of_app, !saves_of_plane_events. simpl.
    rewrite Ed, Eh, Ew, !app_nil_r. reflexivity. }
  split; [exact Es|].
  split; [unfold plane_saves; rewrite length_map, length_seq; reflexivity|].
  split; [unfold plane_saves; rewrite length_map, length_seq; reflexivity|].
  split; [unfold plane_saves; rewrite length_map, length_seq; reflexivity|].
  split.
  { intros i. split.
    - unfold Np.axial, Np.img_shape. simpl. rewrite Eh, Ew. reflexivity.
    - unfold Np.axial. rewrite tabulate2_length, Eh, Ew. reflexivity. }
  split.
  { intros i. split.
    - unfold Np.coronal, Np.img_shape. simpl. rewrite Ed, Ew. reflexivity.
    - unfold Np.coronal. rewrite tabulate2_length, Ed, Ew. reflexivity. }
  split.
  { intros i. split.
    - unfold Np.sagittal, Np.img_shape. simpl. rewrite Ed, Eh. reflexivity.
    - unfold Np.sagittal. rewrite tabulate2_length, Ed, Eh. reflexivity. }
  assert (Hnd : NoDup (map fst (saves_of
                 (flat_map (plane_events (Np.normalize a mn mx) base) default_planes
                  ++ [EvSliced base])))).
  { rewrite Es. apply three_planes_nodup. }
  split; [exact Hnd|].
  split.
  { rewrite Es, !length_app. unfold plane_saves.
    rewrite !length_map, !length_seq. lia. }
  intros p img Hin.
  destruct (sound_slice_image ds input_path base default_planes _ _ _ E)
    as (delta' & T' & F & _).
  assert (delta' = flat_map (plane_events (Np.normalize a mn mx) base) default_planes
                   ++ [EvSliced base]).
  { rewrite T in T'. apply app_inv_head in T'. auto. }
  subst delta'. rewrite F. apply apply_saves_lookup; assumption.
Qed.

Lemma slice_counts_witness :
  read_image ex_ds_one "ds004146/sub-01/anat/sub-01_FLAIR.nii.gz" = Some ex_vol_small
  /\ sliced_ok ex_ds_one "ds004146/sub-01/anat/sub-01_FLAIR.nii.gz" "out"
               default_planes empty_world
  /\ exists min_val max_val delta,
       Np.amin ex_vol_small = Some min_val /\ Np.amax ex_vol_small = Some max_val
       /\ trace (snd (slice_image ex_ds_one
                        "ds004146/sub-01/anat/sub-01_FLAIR.nii.gz" "out"
                        default_planes empty_world))
          = trace empty_world ++ delta
       /\ length (saves_of delta) = (2 + 2 + 3)%nat.
Proof.
  split; [reflexivity|]. split; [vm_compute; reflexivity|].
  destruct (slice_counts ex_ds_one "ds004146/sub-01/anat/sub-01_FLAIR.nii.gz"
              "out" empty_world ex_vol_small eq_refl) as [_ Hcount].
  destruct Hcount as (mn & mx & delta & Hmn & Hmx & T & H).
  - vm_compute. reflexivity.
  - exists mn, mx, delta. split; [exact Hmn|]. split; [exact Hmx|].
    split; [exact T|]. apply H.
Defined.

(* ===================================================================== *)
(** * Order and names of the slices; planes the program does not know *)
(* ===================================================================== *)

Lemma tracks_project {X A} (pi : list event -> list X) (c : M A) evs :
  (forall a b, pi (a ++ b) = pi a ++ pi b) ->
  tracks (fun tr => tr) c evs -> tracks pi c (pi evs).
Proof.
  intros Happ Hc w r w' H. destruct (Hc _ _ _ H) as (delta & T & [rest P] & E).
  exists delta. split; [exact T|]. split.
  - exists (pi rest). rewrite P. apply Happ.
  - intros a Ha. rewrite (E a Ha). reflexivity.
Qed.

Lemma saves_of_plane np_image base plane :
  saves_of (plane_events np_image base plane)
  = plane_saves base plane (plane_extent np_image plane)
                (plane_slice np_image plane).
Proof.
  rewrite saves_of_plane_events. unfold plane_extent, plane_slice, plane_saves.
  destruct (String.eqb plane "axial"); [reflexivity|].
  destruct (String.eqb plane "coronal"); [reflexivity|].
  destruct (String.eqb plane "sagittal"); reflexivity.
Qed.

Lemma prefix_map_seq_from {B} (g : nat -> B) l : forall s n,
  l `prefix_of` map g (seq s n) ->
  l = map g (seq s (length l)) /\ (length l <= n)%nat.
Proof.
  induction l as [|x l IH]; intros s n [rest E].
  - split; [reflexivity | simpl; lia].
  - destruct n as [|n]; [discriminate|].
    simpl in E. injection E as <- E.
    destruct (IH (S s) n) as [El Hl]; [exists rest; exact E|].
    split; [simpl; f_equal; exact El | simpl; lia].
Qed.

Lemma prefix_map_seq {B} (g : nat -> B) n l :
  l `prefix_of` map g (seq 0 n) ->
  l = map g (seq 0 (length l)) /\ (length l <= n)%nat.
Proof. apply prefix_map_seq_from. Qed.

Lemma plane_events_eq np_image base plane :
  plane_events np_image base plane
  = EvMakedirs (Py.join base plane)
    :: map (fun i => EvSave (Py.join (Py.join base plane) (slice_name i))
                            (plane_slice np_image plane i))
           (seq 0 (plane_extent np_image plane)).
Proof.
  unfold plane_events, plane_extent, plane_slice, slices_events.
  destruct (String.eqb plane "axial"); [reflexivity|].
  destruct (String.eqb plane "coronal"); [reflexivity|].
  destruct (String.eqb plane "sagittal"); reflexivity.
Qed.

(** C8.  In a file system where nothing stands in the way, one round of
    the loop over the planes runs to its end and does this, in this order:
    it makes the directory of the plane, then saves the slice of index 0,
    of index 1, and so on up to the last index of the fixed axis (the depth
    for [axial], the height for [coronal], the width for [sagittal]), each
    under its name in that directory; a well-formed volume that loads is
    sliced to the end in the three planes.  In any file system the saves of
    [slice_plane] are the slices of indices 0, 1, 2, ... of the plane, in
    this order, without a gap, and all the indices below the extent when the
    loop runs to its end; a call of [slice_image] that runs to its end saves
    them plane after plane, in the order of the list of planes.  The file of
    index [i] is named [slice_], then the decimal digits of [i] padded with
    zeros on the left to three characters (no padding from 1000 on, where
    the digits are four or more), then [.png]. *)
Theorem slice_enumeration (np_image : Np.ndarray) (base plane : string)
        (w : world) :
  (In plane default_planes -> unobstructed base w ->
     fst (slice_plane np_image base plane w) = Ok tt
     /\ trace (snd (slice_plane np_image base plane w))
        = trace w
          ++ EvMakedirs (Py.join base plane)
             :: map (fun i => EvSave (Py.join (Py.join base plane) (slice_name i))
                                     (plane_slice np_image plane i))
                    (seq 0 (plane_extent np_image plane))
     /\ map fst (saves_of (trace (snd (slice_plane np_image base plane w))))
        = map fst (saves_of (trace w))
          ++ map (fun i => Py.join (Py.join base plane) (slice_name i))
                 (seq 0 (plane_extent np_image plane)))
  /\ (forall ds input_path a,
        read_image ds input_path = Some a -> Np.volume_ok a ->
        unobstructed base w ->
        sliced_ok ds input_path base default_planes w)
  /\ (exists delta k,
      trace (snd (slice_plane np_image base plane w)) = trace w ++ delta
      /\ (k <= plane_extent np_image plane)%nat
      /\ saves_of delta
         = map (fun i => (Py.join (Py.join base plane) (slice_name i),
                          plane_slice np_image plane i))
               (seq 0 k)
      /\ (fst (slice_plane np_image base plane w) = Ok tt ->
          k = plane_extent np_image plane))
  /\ (plane_extent np_image "axial" = Np.depth np_image
      /\ plane_extent np_image "coronal" = Np.height np_image
      /\ plane_extent np_image "sagittal" = Np.width np_image)
  /\ (forall i,
        slice_name i = "slice_" +:+ Py.format_03d i +:+ ".png"
        /\ parse_nat (Py.format_03d i) = Some i
        /\ parse_nat (Py.str_of_nat i) = Some i
        /\ (exists k, Py.format_03d i = nzeros k +:+ Py.str_of_nat i)
        /\ String.length (Py.format_03d i)
           = Nat.max 3 (String.length (Py.str_of_nat i))
        /\ ((i <= 999)%nat -> String.length (Py.format_03d i) = 3%nat)
        /\ ((1000 <= i)%nat ->
            Py.format_03d i = Py.str_of_nat i
            /\ (4 <= String.length (Py.format_03d i))%nat))
  /\ (forall ds input_path planes a,
        read_image ds input_path = Some a ->
        sliced_ok ds input_path base planes w ->
        exists min_val max_val delta,
          Np.amin a = Some min_val /\ Np.amax a = Some max_val
          /\ trace (snd (slice_image ds input_path base planes w))
             = trace w ++ delta
          /\ saves_of delta
             = flat_map
                 (fun q =>
                    plane_saves base q
                      (plane_extent (Np.normalize a min_val max_val) q)
                      (plane_slice (Np.normalize a min_val max_val) q))
                 planes)
  /\ slice_name 0 = "slice_000.png"%string
  /\ slice_name 1 = "slice_001.png"%string
  /\ slice_name 1000 = "slice_1000.png"%string.
Proof.
  split; [|split; [|split; [|split; [|split; [|split;
    [|repeat split; reflexivity]]]]]].
  - intros Hp Hw.
    destruct (slice_plane_ok np_image base plane w Hp Hw) as (w' & E & _).
    destruct (tracks_slice_plane np_image base plane _ _ _ E)
      as (delta & T & _ & Q).
    specialize (Q tt eq_refl). rewrite plane_events_eq in Q. subst delta.
    rewrite E. simpl. split; [reflexivity|]. split; [exact T|].
    rewrite T, saves_of_app, map_app. f_equal. simpl.
    generalize (seq 0 (plane_extent np_image plane)). intros l.
    induction l as [|i l IH]; [reflexivity|]. simpl. rewrite IH. reflexivity.
  - intros ds input_path a Hr Hok Hw.
    apply (slicing_succeeds ds input_path base w a Hr Hok Hw).
  - destruct (slice_plane np_image base plane w) as [r w'] eqn:E.
    destruct (tracks_project saves_of _ _ saves_of_app
                (tracks_slice_plane np_image base plane) _ _ _ E)
      as (delta & T & P & Q).
    rewrite saves_of_plane in P, Q. unfold plane_saves in P, Q.
    destruct (prefix_map_seq _ _ _ P) as [El Hl].
    exists delta, (length (saves_of delta)). simpl.
    split; [exact T|]. split; [exact Hl|]. split; [exact El|].
    intros ->. specialize (Q tt eq_refl).
    rewrite Q at 1. rewrite length_map, length_seq. reflexivity.
  - repeat split; reflexivity.
  - intros i. split; [reflexivity|].
    split; [apply parse_format_03d|]. split; [apply parse_str_of_nat|].
    split; [eexists; apply format_03d_eq|].
    split; [apply format_03d_length|]. split.
    + intros Hi. rewrite format_03d_length.
      pose proof (str_of_nat_short i Hi). lia.
    + intros Hi. pose proof (str_of_nat_long i Hi) as Hl. split.
      * rewrite format_03d_eq.
        replace (3 - String.length (Py.str_of_nat i))%nat with 0%nat by lia.
        reflexivity.
      * rewrite format_03d_length. lia.
  - intros ds input_path planes a Hr Hok.
    destruct (slice_image ds input_path base planes w) as [r w'] eqn:E.
    destruct (slice_image_run _ _ _ _ _ _ _ E) as (_ & delta & T & _ & Hd).
    destruct (Hd Hok) as (a' & mn & mx & Hr' & Hmn & Hmx & ->).
    assert (a' = a) by congruence. subst a'.
    exists mn, mx. eexists. split; [exact Hmn|]. split; [exact Hmx|].
    split; [exact T|].
    rewrite saves_of_app. simpl saves_of at 2. rewrite app_nil_r.
    clear. induction planes as [|q planes IH]; [reflexivity|].
    cbn [flat_map]. rewrite saves_of_app, saves_of_plane, IH. reflexivity.
Qed.

Lemma slice_enumeration_witness :
  fst (slice_plane ex_vol_small "out" "coronal" empty_world) = Ok tt
  /\ trace (snd (slice_plane ex_vol_small "out" "coronal" empty_world))
     = [EvMakedirs "out/coronal";
        EvSave "out/coronal/slice_000.png" (Np.coronal ex_vol_small 0);
        EvSave "out/coronal/slice_001.png" (Np.coronal ex_vol_small 1)]
  /\ map fst (saves_of (trace (snd (slice_plane ex_vol_small "out" "coronal"
                                                empty_world))))
     = ["out/coronal/slice_000.png"; "out/coronal/slice_001.png"]%string.
Proof.
  destruct (slice_enumeration ex_vol_small "out" "coronal" empty_world)
    as (H & _).
  apply H; [vm_compute; tauto | apply empty_world_unobstructed].
Defined.

(** The coronal slices of a volume of shape (2, 2, 3), in a fresh file
    system. *)
Example coronal_slices_in_order :
  map fst (saves_of (trace (snd (slice_plane ex_vol_small "out" "coronal"
                                             empty_world))))
  = ["out/coronal/slice_000.png"; "out/coronal/slice_001.png"]%string.
Proof. vm_compute. reflexivity. Qed.








(* ===================================================================== *)
(** * The output layout *)
(* ===================================================================== *)

Lemma plane_events_makedirs np_image base plane q :
  In (EvMakedirs q) (plane_events np_image base plane) -> q = Py.join base plane.
Proof.
  unfold plane_events. intros [[= <-]|H]; [reflexivity|]. exfalso. revert H.
  destruct (String.eqb plane "axial");
    [intros H; apply slices_events_in in H; destruct H as (i & _ & C); discriminate|].
  destruct (String.eqb plane "coronal");
    [intros H; apply slices_events_in in H; destruct H as (i & _ & C); discriminate|].
  destruct (String.eqb plane "sagittal");
    [intros H; apply slices_events_in in H; destruct H as (i & _ & C); discriminate|].
  intros [].
Qed.

Lemma slicer_events_makedirs ds input_path base planes delta q :
  slicer_events ds input_path base planes delta ->
  In (EvMakedirs q) delta ->
  exists plane, In plane planes /\ q = Py.join base plane.
Proof.
  intros Hs Hin.
  assert (Hflat : forall np_image pre,
             pre `prefix_of` flat_map (plane_events np_image base) planes ->
             In (EvMakedirs q) pre ->
             exists plane, In plane planes /\ q = Py.join base plane).
  { intros np_image pre [rest Hp] Hq.
    assert (H : In (EvMakedirs q) (flat_map (plane_events np_image base) planes)).
    { rewrite Hp. apply in_or_app. left. exact Hq. }
    apply in_flat_map in H. destruct H as (plane & Hpl & H).
    exists plane. split; [exact Hpl|]. eapply plane_events_makedirs, H. }
  destruct Hs as [a mn mx Hr Hmn Hmx| |a|a mn mx pre e Hr Hmn Hmx Hp].
  - apply in_app_or in Hin. destruct Hin as [Hin|[C|[]]]; [|discriminate].
    apply (Hflat (Np.normalize a mn mx) _ (reflexivity _) Hin).
  - destruct Hin as [C|[]]. discriminate.
  - destruct Hin as [C|[]]. discriminate.
  - apply in_app_or in Hin. destruct Hin as [Hin|[C|[]]]; [|discriminate].
    apply (Hflat _ _ Hp Hin).
Qed.

(** Where [process_file] makes directories and saves images: the folder of
    the file, and below it one directory per plane holding the slices. *)
Lemma process_file_layout ds input_root output_root root filename w :
  exists delta,
    trace (snd (process_file ds input_root output_root root filename w))
    = trace w ++ delta
    /\ (forall q, In (EvMakedirs q) delta ->
          exists rel, Py.relpath (cwd ds) root input_root = Some rel
            /\ (q = slice_output_folder output_root rel filename
                \/ exists plane, In plane default_planes
                     /\ q = Py.join (slice_output_folder output_root rel filename)
                                    plane))
    /\ (forall p img, In (EvSave p img) delta ->
          exists rel plane i,
            Py.relpath (cwd ds) root input_root = Some rel
            /\ In plane default_planes
            /\ p = Py.join (Py.join (slice_output_folder output_root rel filename)
                                    plane)
                           (slice_name i)).
Proof.
  unfold process_file.
  destruct (is_flair root filename || is_dwi root filename).
  2:{ exists []. simpl. rewrite app_nil_r. split; [reflexivity|].
      split; intros; contradiction. }
  unfold bind at 1. simpl. unfold os_path_relpath.
  destruct (Py.relpath (cwd ds) root input_root) as [rel|] eqn:Hrel.
  2:{ unfold bind, raise. simpl. eexists. split; [reflexivity|].
      split; [intros q [C|[]]; discriminate | intros p img [C|[]]; discriminate]. }
  unfold bind at 1. unfold ret.
  set (w0 := {| dirs := dirs w; files := files w;
                trace := trace w ++ [EvFound (Py.join root filename)] |}).
  set (folder := slice_output_folder output_root rel filename).
  unfold bind.
  destruct (os_makedirs folder w0) as [[[]|e] w1] eqn:Em.
  - destruct (makedirs_run _ _ _ _ Em)
      as [(_ & _ & _ & _ & _ & Ht)|(C & _)]; [|discriminate].
    destruct (slice_image ds (Py.join root filename) folder default_planes w1)
      as [r w2] eqn:Es.
    destruct (slice_image_run _ _ _ _ _ _ _ Es) as (_ & d2 & T2 & Hs & _).
    exists ([EvFound (Py.join root filename); EvMakedirs folder] ++ d2).
    simpl. split.
    { rewrite T2, Ht. subst w0. simpl. rewrite <- !app_assoc. reflexivity. }
    split.
    + intros q [C|[[= <-]|Hq]]; [discriminate| |].
      * exists rel. auto.
      * exists rel. split; [reflexivity|]. right.
        exact (slicer_events_makedirs _ _ _ _ _ _ Hs Hq).
    + intros p img [C|[C|Hp]]; [discriminate|discriminate|].
      destruct (slicer_events_saves _ _ _ _ _ _ _ Hs Hp)
        as (a & mn & mx & plane & _ & _ & _ & Hpl & Hpe).
      destruct (plane_events_saves _ _ _ _ _ Hpe) as (i & -> & _).
      exists rel, plane, i. auto.
  - destruct (makedirs_run _ _ _ _ Em) as [(C & _)|(_ & -> & _)]; [discriminate|].
    exists [EvFound (Py.join root filename)]. simpl.
    split; [reflexivity|].
    split; [intros q [C|[]]; discriminate | intros p img [C|[]]; discriminate].
Qed.

(** C7, at a file name with [.nii.gz] inside.  The Walker matches
    [a.nii.gz_FLAIR.nii.gz] and removes both occurrences of [.nii.gz]: the
    folder is [a_FLAIR_slices], not [a.nii.gz_FLAIR_slices], and it is also
    the folder of [a_FLAIR.nii.gz].  With both files in one directory the
    two volumes are sliced into the same files: the first axial slice is
    saved twice and what remains is the second volume's, next to slices of
    the first. *)
Lemma folder_name_inner_suffix :
  is_flair "ds/anat" "a.nii.gz_FLAIR.nii.gz" = true
  /\ slice_output_folder "slide" "anat" "a.nii.gz_FLAIR.nii.gz"
     = "slide/anat/a_FLAIR_slices"%string
  /\ spec_slice_output_folder "slide" "anat" "a.nii.gz_FLAIR.nii.gz"
     = "slide/anat/a.nii.gz_FLAIR_slices"%string
  /\ slice_output_folder "slide" "anat" "a_FLAIR.nii.gz"
     = "slide/anat/a_FLAIR_slices"%string
  /\ founds_of (trace (snd (process_dataset ex_ds_clash "ds" "slide" empty_world)))
     = ["ds/anat/a.nii.gz_FLAIR.nii.gz"; "ds/anat/a_FLAIR.nii.gz"]%string
  /\ List.filter
       (fun ps => String.eqb (fst ps)
                             "slide/anat/a_FLAIR_slices/axial/slice_000.png")
       (saves_of (trace (snd (process_dataset ex_ds_clash "ds" "slide"
                                              empty_world))))
     = [("slide/anat/a_FLAIR_slices/axial/slice_000.png"%string,
         Np.axial (Np.normalize ex_vol_small 0 4) 0);
        ("slide/anat/a_FLAIR_slices/axial/slice_000.png"%string,
         Np.axial (Np.normalize ex_vol_quarter 0 4) 0)]
  /\ files (snd (process_dataset ex_ds_clash "ds" "slide" empty_world))
       !! "slide/anat/a_FLAIR_slices/axial/slice_000.png"%string
     = Some (Np.axial (Np.normalize ex_vol_quarter 0 4) 0)
  /\ files (snd (process_dataset ex_ds_clash "ds" "slide" empty_world))
       !! "slide/anat/a_FLAIR_slices/axial/slice_001.png"%string
     = Some (Np.axial (Np.normalize ex_vol_small 0 4) 1).
Proof. repeat split; vm_compute; reflexivity. Qed.

(* ===================================================================== *)
(** * Instances *)
(* ===================================================================== *)

Lemma empty_world_ok : fs_ok empty_world.
Proof. intros p Hp. apply elem_of_empty in Hp. destruct Hp. Defined.

Lemma uniform_volume_black_witness :
  read_image ex_ds_scenario "ds004146/sub-01/anat/sub-01_FLAIR.nii.gz"
  = Some ex_vol_scenario
  /\ Np.amin ex_vol_scenario = Some 100
  /\ Np.amax ex_vol_scenario = Some 100
  /\ Np.normalize ex_vol_scenario 100 100
     = Np.Ndarray Np.UInt8 (Np.shape ex_vol_scenario)
                  (repeat 0 (length (Np.data ex_vol_scenario)))
  /\ (0 < length (Np.data ex_vol_scenario))%nat
  /\ exists delta,
       trace (snd (slice_image ex_ds_scenario
                     "ds004146/sub-01/anat/sub-01_FLAIR.nii.gz"
                     "slide/sub-01/anat/sub-01_FLAIR_slices"
                     default_planes empty_world))
       = trace empty_world ++ delta
       /\ forall p img, In (EvSave p img) delta ->
            In (Np.img_shape img)
               [(Np.height ex_vol_scenario, Np.width ex_vol_scenario);
                (Np.depth ex_vol_scenario, Np.width ex_vol_scenario);
                (Np.depth ex_vol_scenario, Np.height ex_vol_scenario)]
            /\ Np.pixels img = repeat 0 (Np.rows img * Np.cols img).
Proof.
  split; [reflexivity|]. split; [reflexivity|]. split; [reflexivity|].
  apply (uniform_volume_black ex_ds_scenario
           "ds004146/sub-01/anat/sub-01_FLAIR.nii.gz"
           "slide/sub-01/anat/sub-01_FLAIR_slices"
           default_planes empty_world ex_vol_scenario 100);
    reflexivity.
Defined.

Lemma missing_input_directory_witness :
  os_path_isdir ex_ds_one "nowhere" = false
  /\ process_dataset ex_ds_one "nowhere" "slide" empty_world
     = (Ok tt, {| dirs := dirs empty_world; files := files empty_world;
                  trace := trace empty_world ++ [EvMissingInput "nowhere"] |}).
Proof.
  split; [reflexivity|].
  apply (missing_input_directory ex_ds_one "nowhere" "slide" empty_world).
  reflexivity.
Defined.

Lemma process_dataset_twice_witness :
  fs_ok empty_world
  /\ let run1 := process_dataset ex_ds_one "ds004146" "slide" empty_world in
     let run2 := process_dataset ex_ds_one "ds004146" "slide" (snd run1) in
     fst run2 = fst run1
     /\ files (snd run2) = files (snd run1)
     /\ dirs (snd run2) = dirs (snd run1).
Proof.
  split; [exact empty_world_ok|].
  destruct (process_dataset_twice ex_ds_one "ds004146" "slide" empty_world
              empty_world_ok) as (H1 & H2 & H3 & _).
  split; [exact H1|]. split; [exact H2 | exact H3].
Defined.

(** The scenario of the specification: the axial directory holds exactly
    [slice_000.png] to [slice_004.png], each a 10 x 10 image of zeros. *)
Example uniform_scenario :
  let w' := snd (process_dataset ex_ds_scenario "ds004146" "slide" empty_world) in
  List.filter (fun ps => Py.startswith (fst ps)
                           "slide/sub-01/anat/sub-01_FLAIR_slices/axial/")
              (saves_of (trace w'))
  = map (fun n => (("slide/sub-01/anat/sub-01_FLAIR_slices/axial/slice_00"
                    +:+ n +:+ ".png")%string,
                   Np.Image 10 10 (repeat 0 100)))
        ["0"; "1"; "2"; "3"; "4"]%string
  /\ last (trace w') = Some EvComplete.
Proof. split; vm_compute; reflexivity. Qed.
Example split_ex : Py.split "ds004146/sub-01//anat" = ["ds004146"; "sub-01"; EmptyString; "anat"]%string.
Proof. reflexivity. Qed.
Example replace_ex : Py.replace "a.nii.gz_b.nii.gz" ".nii.gz" EmptyString = "a_b"%string.
Proof. reflexivity. Qed.
Example join_ex : Py.join "slide" "sub-01/anat" = "slide/sub-01/anat"%string
                  /\ Py.join "slide/" "x" = "slide/x"%string
                  /\ Py.join "slide" "/x" = "/x"%string
                  /\ Py.join EmptyString "x" = "x"%string.
Proof. repeat split; reflexivity. Qed.
Example relpath_ex :
  Py.relpath "/home/u" "ds004146/sub-01/anat" "ds004146" = Some "sub-01/anat"%string
  /\ Py.relpath "/home/u" "ds004146" "ds004146" = Some "."%string
  /\ Py.relpath "/home/u" "a/b" "a/c/d" = Some "../../b"%string.
Proof. repeat split; reflexivity. Qed.
Example format_ex :
  Py.format_03d 0 = "000"%string /\ Py.format_03d 7 = "007"%string
  /\ Py.format_03d 42 = "042"%string /\ Py.format_03d 123 = "123"%string
  /\ Py.format_03d 1000 = "1000"%string.
Proof. repeat split; reflexivity. Qed.

(* ===================================================================== *)
(** * More on the normalisation *)
(* ===================================================================== *)

(** X1.  The normalisation keeps the order of the samples: a sample that is
    not brighter than another one before is not brighter after, in every
    well-formed volume. *)
Theorem normalize_monotone (a : Np.ndarray) (min_val max_val : Z) :
  Np.volume_ok a ->
  Np.amin a = Some min_val ->
  Np.amax a = Some max_val ->
  forall i j v1 v2,
    Np.data a !! i = Some v1 -> Np.data a !! j = Some v2 -> v1 <= v2 ->
    exists o1 o2,
      Np.data (Np.normalize a min_val max_val) !! i = Some o1
      /\ Np.data (Np.normalize a min_val max_val) !! j = Some o2
      /\ o1 <= o2.
Proof.
  intros Hok Hmn Hmx i j v1 v2 H1 H2 Hle.
  rewrite (normalize_lookup a _ _ i v1 H1).
  rewrite (normalize_lookup a _ _ j v2 H2).
  eexists. eexists. split; [reflexivity|]. split; [reflexivity|].
  destruct (Np.range_positive (Np.dt a) min_val max_val) eqn:P; [|lia].
  rewrite range_positive_diff in P.
  destruct (Np.diff (Np.dt a) max_val min_val) as [d|b|] eqn:Hd;
    [| |discriminate P].
  - (* a finite difference of the extrema *)
    assert (Hpos : (0 < d)%Q).
    { simpl in P. destruct (d ?= 0)%Q eqn:C; try discriminate P.
      apply (proj2 (Qgt_alt _ _)), C. }
    destruct (operands a _ _ d Hok Hmn Hmx Hd Hpos)
      as (_ & _ & _ & Hall & Hmono & _).
    pose proof (lookup_in _ _ _ H1) as I1.
    pose proof (lookup_in _ _ _ H2) as I2.
    destruct (Hall v1 I1) as (_ & E1 & _ & _ & B1).
    destruct (Hall v2 I2) as (_ & E2 & _ & _ & B2).
    destruct (rescale_fin _ _ _ v1 _ d E1 Hd B1 Hpos) as (_ & _ & -> & _).
    destruct (rescale_fin _ _ _ v2 _ d E2 Hd B2 Hpos) as (_ & _ & -> & _).
    apply Qfloor_resp_le. unfold stretch.
    apply stretch_mono;
      [apply format_of_ok | apply B1 | apply Hmono; assumption
      | apply B2 | exact Hpos].
  - (* an infinite one: every sample becomes 0 *)
    rewrite !(rescale_inf _ _ _ _ b Hd). lia.
Qed.

Lemma ex_vol_small_ok : Np.volume_ok ex_vol_small.
Proof. volume_ok_tac. Qed.

Lemma normalize_monotone_witness :
  exists o1 o2,
    Np.data (Np.normalize ex_vol_small 0 4) !! 1%nat = Some o1
    /\ Np.data (Np.normalize ex_vol_small 0 4) !! 3%nat = Some o2
    /\ o1 <= o2.
Proof.
  apply (normalize_monotone ex_vol_small 0 4 ex_vol_small_ok eq_refl eq_refl
           1%nat 3%nat 1 2); [reflexivity | reflexivity | lia].
Defined.

(** X3.  A volume of an integer sample type whose samples already span 0
    to 255 keeps its samples. *)
Theorem normalize_full_range_id (a : Np.ndarray) :
  Np.is_float (Np.dt a) = false ->
  Np.volume_ok a ->
  Np.amin a = Some 0 ->
  Np.amax a = Some 255 ->
  Np.data (Np.normalize a 0 255) = Np.data a.
Proof.
  intros Ef Hok Hmn Hmx. apply list_eq. intros i.
  destruct (Np.data a !! i) as [v|] eqn:Hv.
  - assert (Hr : range_ok (Np.dt a) 0 255).
    { unfold range_ok. rewrite Ef. split; [lia|]. intros _.
      destruct (amax_spec _ _ Hmx) as [I2 _].
      pose proof (volume_words a 255 Hok I2). lia. }
    destruct (range_ok_diff a _ _ Hok Hmn Hmx Hr) as (d & Hd & Hpos).
    destruct (normalize_sample a _ _ d i v Hok Hmn Hmx Hd Hpos Hv)
      as (r & Ho & _ & _ & _ & _ & _ & _ & Hex).
    rewrite Ho, (Hex Ef ltac:(vm_compute; reflexivity)). f_equal.
    rewrite Z.sub_0_r, Z.mul_comm. apply Z.div_mul. lia.
  - apply lookup_ge_None. rewrite normalize_length.
    apply lookup_ge_None. exact Hv.
Qed.

Lemma normalize_full_range_id_witness :
  Np.data (Np.normalize ex_vol_bytes 0 255) = Np.data ex_vol_bytes.
Proof.
  apply (normalize_full_range_id ex_vol_bytes);
    [reflexivity | volume_ok_tac | reflexivity | reflexivity].
Defined.

(* ===================================================================== *)
(** * The slices hold the volume *)
(* ===================================================================== *)

Section Voxels.

(** Lists laid end to end, all of the same length. *)
Lemma blocks_length {A} (g : nat -> list A) (c : nat) :
  (forall y, length (g y) = c) ->
  forall r s, length (flat_map g (seq s r)) = (r * c)%nat.
Proof.
  intros Hg r. induction r as [|r IH]; intros s; [reflexivity|].
  simpl. rewrite length_app, Hg, IH. reflexivity.
Qed.

Lemma blocks_lookup {A} (g : nat -> list A) (c : nat) :
  (forall y, length (g y) = c) ->
  forall r s y x, (y < r)%nat -> (x < c)%nat ->
    flat_map g (seq s r) !! (y * c + x)%nat = g (s + y)%nat !! x.
Proof.
  intros Hg r. induction r as [|r IH]; intros s y x Hy Hx; [lia|].
  simpl. destruct y as [|y].
  - rewrite lookup_app_l by (rewrite Hg; simpl; lia).
    simpl. rewrite Nat.add_0_r. reflexivity.
  - rewrite lookup_app_r by (rewrite Hg; simpl; lia).
    rewrite Hg. replace (S y * c + x - c)%nat with (y * c + x)%nat by (simpl; lia).
    rewrite IH by lia. f_equal. f_equal. lia.
Qed.

Lemma map_seq_lookup {A} (h : nat -> A) c x :
  (x < c)%nat -> map h (seq 0 c) !! x = Some (h x).
Proof.
  intros Hx. rewrite list_lookup_fmap, lookup_seq_lt by lia. reflexivity.
Qed.

Lemma tabulate2_lookup r c f y x :
  (y < r)%nat -> (x < c)%nat ->
  Np.pixels (Np.tabulate2 r c f) !! (y * c + x)%nat = Some (f y x).
Proof.
  intros Hy Hx. simpl.
  rewrite (blocks_lookup (fun y => map (fun x => f y x) (seq 0 c)) c)
    by (try (intros; rewrite length_map, length_seq; reflexivity); lia).
  simpl. apply map_seq_lookup. exact Hx.
Qed.

Lemma get_lookup a i j k :
  length (Np.data a) = (Np.depth a * Np.height a * Np.width a)%nat ->
  (i < Np.depth a)%nat -> (j < Np.height a)%nat -> (k < Np.width a)%nat ->
  Np.data a !! ((i * Np.height a + j) * Np.width a + k)%nat
  = Some (Np.get a i j k).
Proof.
  intros Hlen Hi Hj Hk. unfold Np.get.
  destruct (Np.data a !! ((i * Np.height a + j) * Np.width a + k)%nat)
    as [v|] eqn:E.
  - rewrite (nth_lookup_Some _ _ 0 _ E). reflexivity.
  - exfalso. apply lookup_ge_None in E. rewrite Hlen in E.
    assert (H1 : (i * Np.height a + j < Np.depth a * Np.height a)%nat) by nia.
    assert (H2 : ((i * Np.height a + j) * Np.width a + k
                  < Np.depth a * Np.height a * Np.width a)%nat) by nia.
    lia.
Qed.

(** X5.  The axial slices of an array, put one after the other in the order
    of their indices, are the buffer of the array: the slicing loses and
    adds nothing. *)
Theorem axial_slices_cover (a : Np.ndarray) :
  length (Np.data a) = (Np.depth a * Np.height a * Np.width a)%nat ->
  flat_map (fun i => Np.pixels (Np.axial a i)) (seq 0 (Np.depth a))
  = Np.data a.
Proof.
  intros Hlen.
  assert (Hblock : forall i, length (Np.pixels (Np.axial a i))
                             = (Np.height a * Np.width a)%nat).
  { intros i. unfold Np.axial. apply tabulate2_length. }
  apply list_eq. intros n.
  destruct (lt_dec n (Np.depth a * Np.height a * Np.width a)) as [Hn|Hn].
  - assert (Hw : (0 < Np.width a)%nat) by nia.
    assert (Hh : (0 < Np.height a)%nat) by nia.
    remember (Np.height a * Np.width a)%nat as hw eqn:Ehw.
    assert (Hhw : (0 < hw)%nat) by nia.
    remember (n / hw)%nat as i eqn:Ei. remember (n mod hw)%nat as m eqn:Emod.
    remember (m / Np.width a)%nat as j eqn:Ej.
    remember (m mod Np.width a)%nat as k eqn:Ek.
    assert (En : n = (i * hw + m)%nat).
    { subst i m. rewrite Nat.mul_comm. apply Nat.div_mod. lia. }
    assert (Em : m = (j * Np.width a + k)%nat).
    { subst j k. rewrite Nat.mul_comm. apply Nat.div_mod. lia. }
    assert (Hm : (m < hw)%nat) by (subst m; apply Nat.mod_upper_bound; lia).
    assert (Hk : (k < Np.width a)%nat)
      by (subst k; apply Nat.mod_upper_bound; lia).
    assert (Hj : (j < Np.height a)%nat).
    { subst j. apply Nat.Div0.div_lt_upper_bound. nia. }
    assert (Hi : (i < Np.depth a)%nat).
    { subst i. apply Nat.Div0.div_lt_upper_bound. nia. }
    clear Ei Emod Ej Ek.
    pose proof (tabulate2_lookup (Np.height a) (Np.width a)
                  (fun j k => Np.get a i j k) j k Hj Hk) as Hp.
    rewrite <- Em in Hp.
    pose proof (get_lookup a i j k Hlen Hi Hj Hk) as Hg.
    replace ((i * Np.height a + j) * Np.width a + k)%nat with n in Hg by nia.
    rewrite Hg, En.
    rewrite (blocks_lookup (fun i => Np.pixels (Np.axial a i)) hw Hblock)
      by assumption.
    exact Hp.
  - rewrite (proj2 (lookup_ge_None _ _)).
    + symmetry. apply lookup_ge_None. lia.
    + rewrite (blocks_length _ _ Hblock). nia.
Qed.

Lemma axial_slices_cover_witness :
  flat_map (fun i => Np.pixels (Np.axial ex_vol_small i))
           (seq 0 (Np.depth ex_vol_small))
  = Np.data ex_vol_small.
Proof. apply (axial_slices_cover ex_vol_small). reflexivity. Defined.

End Voxels.
(* ===================================================================== *)
(** * What a call of the slicer leaves behind *)
(* ===================================================================== *)

Lemma saves_of_in tr p img : In (p, img) (saves_of tr) <-> In (EvSave p img) tr.
Proof.
  induction tr as [|e tr IH]; simpl; [tauto|].
  destruct e; simpl; rewrite IH; intuition congruence.
Qed.

Lemma planes_saves_nodup np_image base :
  NoDup (map fst (saves_of (flat_map (plane_events np_image base) default_planes))).
Proof.
  unfold default_planes. cbn [flat_map].
  rewrite !saves_of_app, !saves_of_plane_events. simpl.
  rewrite !app_nil_r. apply three_planes_nodup.
Qed.

Lemma prefix_saves_nodup np_image base pre :
  pre `prefix_of` flat_map (plane_events np_image base) default_planes ->
  NoDup (map fst (saves_of pre)).
Proof.
  intros [rest E]. pose proof (planes_saves_nodup np_image base) as H.
  rewrite E, saves_of_app, map_app in H. apply NoDup_app in H. apply H.
Qed.

(** X6.  Whatever happens in a call of [slice_image] for the three planes,
    also when it stops part-way on an error, no file is written twice and
    every image written is in the file system, as written, when the call
    returns: nothing is rolled back. *)
Theorem slices_saved_stay (ds : dataset) (input_path base : string) (w : world) :
  let w' := snd (slice_image ds input_path base default_planes w) in
  exists delta,
    trace w' = trace w ++ delta
    /\ NoDup (map fst (saves_of delta))
    /\ (forall p img, In (EvSave p img) delta -> files w' !! p = Some img).
Proof.
  intros w'. subst w'.
  destruct (slice_image ds input_path base default_planes w) as [r w'] eqn:E.
  cbn [snd].
  destruct (slice_image_run _ _ _ _ _ _ _ E) as (_ & delta & T & Hs & _).
  destruct (sound_slice_image ds input_path base default_planes _ _ _ E)
    as (delta' & T' & F & _).
  assert (delta' = delta) by (rewrite T in T'; apply app_inv_head in T'; auto).
  subst delta'. exists delta. split; [exact T|].
  assert (Hnd : NoDup (map fst (saves_of delta))).
  { destruct Hs as [a mn mx Hr Hmn Hmx| |a|a mn mx pre e Hr Hmn Hmx Hp].
    - rewrite saves_of_app. simpl. rewrite app_nil_r. apply planes_saves_nodup.
    - simpl. constructor.
    - simpl. constructor.
    - rewrite saves_of_app. simpl. rewrite app_nil_r.
      eapply prefix_saves_nodup, Hp. }
  split; [exact Hnd|].
  intros p img Hin. rewrite F. apply apply_saves_lookup; [exact Hnd|].
  apply saves_of_in, Hin.
Qed.

(* ===================================================================== *)
(** * More on the Walker *)
(* ===================================================================== *)

(** X7.  No file is both a FLAIR match and a DWI match, in whatever
    directory it is: the two suffixes exclude each other. *)
Theorem flair_dwi_exclusive (root filename : string) :
  is_flair root filename && is_dwi root filename = false.
Proof.
  destruct (is_flair root filename) eqn:Ef; [|reflexivity].
  destruct (is_dwi root filename) eqn:Ed; [|reflexivity].
  exfalso. apply is_flair_spec in Ef. destruct Ef as (_ & s1 & E1).
  apply is_dwi_spec in Ed. destruct Ed as (_ & s2 & E2).
  assert (E : (s1 +:+ "_FLAI") +:+ "R.nii.gz" = (s2 +:+ "_dw") +:+ "i.nii.gz").
  { rewrite !str_app_assoc. rewrite E1 in E2. exact E2. }
  apply str_app_inj_tail in E; [|reflexivity].
  destruct E as [_ E]. discriminate E.
Qed.

Lemma for_each_skip {A} (body : A -> M unit) l w :
  (forall x, In x l -> body x w = (Ok tt, w)) ->
  for_each l body w = (Ok tt, w).
Proof.
  induction l as [|x l IH]; intros H; [reflexivity|].
  simpl. unfold bind. rewrite (H x) by (left; reflexivity).
  apply IH. intros y Hy. apply H. right. exact Hy.
Qed.

(** X8.  A dataset in which the walk meets no FLAIR and no DWI file is
    processed without any output: the run returns normally, prints its
    three messages, and makes no directory and no file. *)
Theorem no_match_no_output (ds : dataset) (input_root output_root : string)
        (w : world) :
  os_path_isdir ds input_root = true ->
  matched_files (os_walk ds input_root) = [] ->
  process_dataset ds input_root output_root w
  = (Ok tt, {| dirs := dirs w; files := files w;
               trace := trace w ++ [EvStart input_root; EvOutputTo output_root;
                                    EvComplete] |}).
Proof.
  intros Hdir Hnone. unfold process_dataset. rewrite Hdir. simpl.
  unfold bind at 1. simpl. unfold bind at 1. simpl. unfold bind.
  rewrite for_each_skip.
  - unfold print. simpl. rewrite <- !app_assoc. reflexivity.
  - intros [[root sd] fnames] Hin. apply for_each_skip. intros f Hf.
    unfold process_file.
    destruct (is_flair root f || is_dwi root f) eqn:Em; [|reflexivity].
    exfalso. apply orb_true_iff in Em.
    assert (H : In (Py.join root f) (matched_files (os_walk ds input_root))).
    { apply matched_files_in. exists root, sd, fnames, f. auto. }
    rewrite Hnone in H. destruct H.
Qed.

Lemma no_match_no_output_witness :
  process_dataset ex_ds_none "ds" "slide" empty_world
  = (Ok tt, {| dirs := dirs empty_world; files := files empty_world;
               trace := trace empty_world
                        ++ [EvStart "ds"; EvOutputTo "slide"; EvComplete] |}).
Proof.
  apply (no_match_no_output ex_ds_none "ds" "slide" empty_world);
    vm_compute; reflexivity.
Defined.

Lemma folder_nonempty output_root rel filename :
  slice_output_folder output_root rel filename <> EmptyString.
Proof.
  unfold slice_output_folder.
  set (b := Py.replace filename ".nii.gz" EmptyString +:+ "_slices").
  assert (Hb : b <> EmptyString) by (apply str_app_nonempty; discriminate).
  clearbody b. set (a := Py.join output_root rel). unfold Py.join.
  destruct (Py.startswith b Py.sep_str || String.eqb a EmptyString);
    [exact Hb|].
  destruct (Py.endswith a Py.sep_str); repeat apply str_app_nonempty; exact Hb.
Qed.

(** X9.  The folder of a matched file is made before the file is read: a
    file that does not load leaves its folder behind, empty, next to the
    report of the error, and the Walker goes on. *)
Theorem unreadable_file_leaves_folder (ds : dataset)
        (input_root output_root root filename rel : string) (w : world) :
  is_flair root filename = true \/ is_dwi root filename = true ->
  Py.relpath (cwd ds) root input_root = Some rel ->
  read_image ds (Py.join root filename) = None ->
  existsb (is_file w)
          (ancestors (slice_output_folder output_root rel filename)) = false ->
  process_file ds input_root output_root root filename w
  = (Ok tt,
     {| dirs := dirs w ∪ list_to_set
                  (ancestors (slice_output_folder output_root rel filename));
        files := files w;
        trace := trace w
                 ++ [EvFound (Py.join root filename);
                     EvMakedirs (slice_output_folder output_root rel filename);
                     EvError (Py.join root filename)
                             (RuntimeError (Py.join root filename))] |}).
Proof.
  intros Hm Hrel Hread Hfree.
  erewrite process_file_dispatch; [|exact Hm|exact Hrel|].
  2:{ apply makedirs_ok; [apply folder_nonempty | exact Hfree]. }
  match goal with
  | |- slice_image ?d ?p ?b ?pl ?w1 = _ =>
      rewrite (slice_image_reports d p b pl w1 (RuntimeError p) w1)
  end.
  - simpl. rewrite <- !app_assoc. reflexivity.
  - unfold slice_image_body, sitk_read. rewrite Hread. reflexivity.
Qed.

Lemma unreadable_file_leaves_folder_witness :
  process_file ex_ds_two "ds" "slide" "ds/anat" "a_FLAIR.nii.gz" empty_world
  = (Ok tt,
     {| dirs := dirs empty_world ∪ list_to_set
                  (ancestors (slice_output_folder "slide" "anat" "a_FLAIR.nii.gz"));
        files := files empty_world;
        trace := trace empty_world
                 ++ [EvFound (Py.join "ds/anat" "a_FLAIR.nii.gz");
                     EvMakedirs (slice_output_folder "slide" "anat" "a_FLAIR.nii.gz");
                     EvError (Py.join "ds/anat" "a_FLAIR.nii.gz")
                             (RuntimeError (Py.join "ds/anat" "a_FLAIR.nii.gz"))] |}).
Proof.
  apply (unreadable_file_leaves_folder ex_ds_two "ds" "slide" "ds/anat"
           "a_FLAIR.nii.gz" "anat" empty_world);
    [left; reflexivity | reflexivity | reflexivity | reflexivity].
Defined.

(* ===================================================================== *)
(** * The name of the folder *)
(* ===================================================================== *)

(** The suffix does not overlap itself. *)
Lemma suffix_no_overlap t :
  String.prefix ".nii.gz" (t +:+ ".nii.gz") = true ->
  t = EmptyString \/ String.prefix ".nii.gz" t = true.
Proof.
  intros H. destruct t as [|c0 t]; [left; reflexivity|]. right.
  revert H. rewrite str_app_cons. cbn [String.prefix].
  destruct (ascii_dec "." c0); [|intros C; discriminate C].
  do 6 (destruct t as [|? t];
        [rewrite str_app_nil_l; intros C; vm_compute in C; discriminate C|];
        rewrite str_app_cons; cbn [String.prefix];
        destruct (ascii_dec _ _); [|intros C; discriminate C]).
  intros _. destruct t; reflexivity.
Qed.

Lemma replace_single_suffix stem :
  occurs ".nii.gz" stem = false ->
  Py.replace (stem +:+ ".nii.gz") ".nii.gz" EmptyString = stem.
Proof.
  unfold Py.replace. induction stem as [|c s IH]; intros H.
  - reflexivity.
  - cbn [occurs] in H. apply orb_false_iff in H. destruct H as [Hp Ho].
    rewrite str_app_cons.
    cbn [Py.replace_go].
    destruct (String.prefix ".nii.gz" (String c (s +:+ ".nii.gz"))) eqn:Ep.
    + rewrite <- str_app_cons in Ep. apply suffix_no_overlap in Ep.
      destruct Ep as [C|C]; [discriminate | congruence].
    + rewrite IH by exact Ho. reflexivity.
Qed.

Lemma substring_prefix p s :
  String.substring 0 (String.length p) (p +:+ s) = p.
Proof.
  induction p as [|c p IH]; [destruct s; reflexivity|].
  rewrite str_app_cons. simpl. rewrite IH. reflexivity.
Qed.

(** X10.  For a file name with no [.nii.gz] before its final suffix, the
    folder is named by what stands before the suffix, followed by
    [_slices]: here the program does what the specification says. *)
Theorem folder_name_single_suffix (output_root relative_path stem : string) :
  occurs ".nii.gz" stem = false ->
  slice_output_folder output_root relative_path (stem +:+ ".nii.gz")
  = Py.join (Py.join output_root relative_path) (stem +:+ "_slices")
  /\ slice_output_folder output_root relative_path (stem +:+ ".nii.gz")
     = spec_slice_output_folder output_root relative_path (stem +:+ ".nii.gz").
Proof.
  intros H. unfold slice_output_folder, spec_slice_output_folder.
  rewrite (replace_single_suffix stem H). split; [reflexivity|].
  unfold spec_strip_suffix.
  rewrite (proj2 (endswith_spec (stem +:+ ".nii.gz") ".nii.gz"))
    by (exists stem; reflexivity).
  rewrite str_length_app.
  replace (String.length stem + String.length ".nii.gz"
           - String.length ".nii.gz")%nat
    with (String.length stem) by lia.
  rewrite substring_prefix. reflexivity.
Qed.

Lemma folder_name_single_suffix_witness :
  slice_output_folder "slide" "sub-01/anat" ("sub-01_FLAIR" +:+ ".nii.gz")
  = Py.join (Py.join "slide" "sub-01/anat") ("sub-01_FLAIR" +:+ "_slices")
  /\ slice_output_folder "slide" "sub-01/anat" ("sub-01_FLAIR" +:+ ".nii.gz")
     = spec_slice_output_folder "slide" "sub-01/anat"
         ("sub-01_FLAIR" +:+ ".nii.gz").
Proof.
  apply (folder_name_single_suffix "slide" "sub-01/anat" "sub-01_FLAIR").
  vm_compute. reflexivity.
Defined.

(* ===================================================================== *)
(** * The order of the slice files *)
(* ===================================================================== *)

Lemma ltb_trans a b c :
  String.ltb a b = true -> String.ltb b c = true -> String.ltb a c = true.
Proof.
  unfold String.ltb. intros H1 H2.
  destruct (String.compare a b) eqn:E1; try discriminate.
  destruct (String.compare b c) eqn:E2; try discriminate.
  apply OrderedTypeEx.String_as_OT.cmp_lt in E1, E2.
  pose proof (OrderedTypeEx.String_as_OT.lt_trans _ _ _ E1 E2) as H.
  apply OrderedTypeEx.String_as_OT.cmp_lt in H.
  unfold OrderedTypeEx.String_as_OT.cmp in H. rewrite H. reflexivity.
Qed.

Lemma ascending_next (f : nat -> string) n : forall s,
  ascending (map f (seq s n)) = true ->
  forall i, (s <= i)%nat -> (S i < s + n)%nat ->
    String.ltb (f i) (f (S i)) = true.
Proof.
  induction n as [|n IH]; intros s H i Hs Hi; [lia|].
  cbn [seq map ascending] in H. apply andb_true_iff in H. destruct H as [Hx Hl].
  destruct (Nat.eq_dec i s) as [->|Hne].
  - destruct n as [|n]; [lia|]. exact Hx.
  - apply (IH (S s) Hl); lia.
Qed.

Lemma ascending_seq (f : nat -> string) n :
  ascending (map f (seq 0 n)) = true ->
  forall i j, (i < j)%nat -> (j < n)%nat -> String.ltb (f i) (f j) = true.
Proof.
  intros H i j. induction j as [|j IH]; intros Hij Hj; [lia|].
  pose proof (ascending_next f n 0 H j) as Hnext.
  destruct (Nat.eq_dec i j) as [->|Hne]; [apply Hnext; lia|].
  apply (ltb_trans _ (f j)); [apply IH; lia | apply Hnext; lia].
Qed.

(** X11.  Up to a thousand slices per plane, the names of the slice files
    sort, as strings, in the order of the indices, so that a listing of a
    plane directory shows the slices in order.  The padding to three digits
    goes no further: [slice_1000.png] sorts before [slice_999.png]. *)
Theorem slice_names_sorted :
  (forall i j, (i < j)%nat -> (j < 1000)%nat ->
     String.ltb (slice_name i) (slice_name j) = true)
  /\ String.ltb (slice_name 1000) (slice_name 999) = true.
Proof.
  split; [|vm_compute; reflexivity].
  intros i j Hij Hj.
  apply (ascending_seq slice_name 1000); [vm_compute; reflexivity | lia | lia].
Qed.

(* ===================================================================== *)
(** * Every matched file is accounted for *)
(* ===================================================================== *)

Lemma reports_of_app a b : reports_of (a ++ b) = reports_of a ++ reports_of b.
Proof.
  induction a as [|e a IH]; simpl; [reflexivity|].
  destruct e; simpl; rewrite ?IH; reflexivity.
Qed.

Lemma reports_of_planes np_image base planes pre :
  pre `prefix_of` flat_map (plane_events np_image base) planes ->
  reports_of pre = [].
Proof.
  intros [rest E].
  assert (H : forall e, In e pre ->
                (exists p, e = EvMakedirs p) \/ (exists p img, e = EvSave p img)).
  { intros e He.
    assert (Hin : In e (flat_map (plane_events np_image base) planes))
      by (rewrite E; apply in_or_app; left; exact He).
    apply in_flat_map in Hin. destruct Hin as (plane & _ & Hin).
    eapply plane_events_kind, Hin. }
  clear E. induction pre as [|e pre IH]; [reflexivity|].
  destruct (H e (or_introl eq_refl)) as [(p & ->)|(p & img & ->)]; simpl;
    apply IH; intros e' He'; apply H; right; exact He'.
Qed.

Lemma slicer_events_reports ds input_path base planes delta :
  slicer_events ds input_path base planes delta -> reports_of delta = [None].
Proof.
  intros Hs. destruct Hs as [a mn mx Hr Hmn Hmx| |a|a mn mx pre e Hr Hmn Hmx Hp].
  - rewrite reports_of_app.
    rewrite (reports_of_planes (Np.normalize a mn mx) base planes _ (reflexivity _)).
    reflexivity.
  - reflexivity.
  - reflexivity.
  - rewrite reports_of_app, (reports_of_planes _ _ _ _ Hp). reflexivity.
Qed.

Lemma tracks_reports_slice_image ds input_path base planes :
  tracks reports_of (slice_image ds input_path base planes) [None].
Proof.
  intros w r w' H.
  destruct (slice_image_run _ _ _ _ _ _ _ H) as (_ & delta & T & Hs & _).
  exists delta. split; [exact T|].
  rewrite (slicer_events_reports _ _ _ _ _ Hs).
  split; [reflexivity|]. reflexivity.
Qed.

Lemma tracks_reports_process_file ds input_root output_root root filename :
  tracks reports_of (process_file ds input_root output_root root filename)
         (flat_map (fun p => [Some p; None]) (found_file root filename)).
Proof.
  unfold process_file, found_file.
  destruct (is_flair root filename || is_dwi root filename).
  2:{ apply (tracks_ret reports_of). reflexivity. }
  change (flat_map (fun p => [Some p; None]) [Py.join root filename])
    with (reports_of [EvFound (Py.join root filename)] ++ ([] ++ ([] ++ [None]))).
  apply (tracks_bind reports_of reports_of_app);
    [apply (tracks_print reports_of)|]. intros _.
  apply (tracks_bind reports_of reports_of_app).
  { unfold os_path_relpath. destruct (Py.relpath _ _ _).
    - apply (tracks_ret reports_of). reflexivity.
    - apply (tracks_raise reports_of). reflexivity. }
  intros rel. apply (tracks_bind reports_of reports_of_app).
  { apply (tracks_makedirs reports_of). reflexivity. }
  intros _. apply tracks_reports_slice_image.
Qed.

Lemma flat_map_flat_map {A B C} (g : B -> list C) (h : A -> list B) l :
  flat_map g (flat_map h l) = flat_map (fun x => flat_map g (h x)) l.
Proof.
  induction l as [|x l IH]; simpl; [reflexivity|].
  rewrite flat_map_app, IH. reflexivity.
Qed.

Lemma tracks_reports_walk ds input_root output_root listing :
  tracks reports_of
         (for_each listing
                   (fun '(root, _, fnames) =>
                      for_each fnames (process_file ds input_root output_root root)))
         (flat_map (fun p => [Some p; None]) (matched_files listing)).
Proof.
  unfold matched_files. rewrite flat_map_flat_map.
  apply (tracks_for_each reports_of eq_refl reports_of_app).
  intros [[root sd] fnames]. rewrite <- found_files_filter, flat_map_flat_map.
  apply (tracks_for_each reports_of eq_refl reports_of_app).
  intros f. apply tracks_reports_process_file.
Qed.

(** X12.  In the messages of a run, every matched file is announced and,
    before the next one is announced, closed by exactly one report of the
    slicer, success or error; a run that returns has done so for every
    matched file of the walk, in its order, and one that raises for the
    files before the one it stopped at.  Without an input directory there
    is no such message at all. *)
Theorem every_match_reported (ds : dataset) (input_root output_root : string)
        (w : world) :
  exists delta,
    trace (snd (process_dataset ds input_root output_root w)) = trace w ++ delta
    /\ reports_of delta
       `prefix_of` (if os_path_isdir ds input_root
                    then flat_map (fun p => [Some p; None])
                                  (matched_files (os_walk ds input_root))
                    else [])
    /\ (fst (process_dataset ds input_root output_root w) = Ok tt ->
        reports_of delta
        = if os_path_isdir ds input_root
          then flat_map (fun p => [Some p; None])
                        (matched_files (os_walk ds input_root))
          else []).
Proof.
  assert (Ht : tracks reports_of (process_dataset ds input_root output_root)
                      (if os_path_isdir ds input_root
                       then flat_map (fun p => [Some p; None])
                                     (matched_files (os_walk ds input_root))
                       else [])).
  { unfold process_dataset. destruct (os_path_isdir ds input_root); simpl.
    - change (flat_map (fun p => [Some p; None])
                       (matched_files (os_walk ds input_root)))
        with ([] ++ ([] ++ (flat_map (fun p => [Some p; None])
                                     (matched_files (os_walk ds input_root))))).
      apply (tracks_bind reports_of reports_of_app);
        [apply (tracks_print reports_of)|]. intros _.
      apply (tracks_bind reports_of reports_of_app);
        [apply (tracks_print reports_of)|]. intros _.
      rewrite <- (app_nil_r (flat_map _ (matched_files _))).
      apply (tracks_bind reports_of reports_of_app);
        [apply tracks_reports_walk|]. intros _.
      apply (tracks_print reports_of).
    - apply (tracks_print reports_of). }
  destruct (process_dataset ds input_root output_root w) as [r w'] eqn:E.
  destruct (Ht _ _ _ E) as (delta & T & P & Q).
  exists delta. simpl. split; [exact T|]. split; [exact P|].
  intros ->. apply (Q tt). reflexivity.
Qed.

(* ===================================================================== *)
(** * What a run leaves untouched *)
(* ===================================================================== *)

Section Emits.

Context (Q : event -> Prop).

Lemma emits_ret {A} (a : A) : emits Q (ret a).
Proof.
  intros w r w' [= <- <-]. exists []. rewrite app_nil_r.
  split; [reflexivity | constructor].
Qed.

Lemma emits_print e : Q e -> emits Q (print e).
Proof.
  intros He w r w' [= <- <-]. exists [e].
  split; [reflexivity|]. repeat constructor. exact He.
Qed.

Lemma emits_bind {A B} (c : M A) (k : A -> M B) :
  emits Q c -> (forall a, emits Q (k a)) -> emits Q (bind c k).
Proof.
  intros Hc Hk w r w' H.
  destruct (bind_run _ _ _ _ _ H) as [(a & w1 & H1 & H2)|(e & H1 & ->)].
  - destruct (Hc _ _ _ H1) as (d1 & T1 & Q1).
    destruct (Hk a _ _ _ H2) as (d2 & T2 & Q2).
    exists (d1 ++ d2). rewrite T2, T1, <- app_assoc.
    split; [reflexivity|]. apply Forall_app. auto.
  - destruct (Hc _ _ _ H1) as (d1 & T1 & Q1). exists d1. auto.
Qed.

Lemma emits_for_each {A} (body : A -> M unit) l :
  (forall x, In x l -> emits Q (body x)) -> emits Q (for_each l body).
Proof.
  induction l as [|x l IH]; intros H; simpl.
  - apply emits_ret.
  - apply emits_bind; [apply H; left; reflexivity|].
    intros _. apply IH. intros y Hy. apply H. right. exact Hy.
Qed.

End Emits.

Lemma emits_process_file ds input_root output_root root subdirs fnames filename :
  In (root, subdirs, fnames) (os_walk ds input_root) ->
  In filename fnames ->
  emits (in_layout ds input_root output_root)
        (process_file ds input_root output_root root filename).
Proof.
  intros Hroot Hf.
  destruct (is_flair root filename || is_dwi root filename) eqn:Em.
  2:{ unfold process_file. rewrite Em. apply emits_ret. }
  apply orb_true_iff in Em.
  assert (Hfolder : forall rel,
             Py.relpath (cwd ds) root input_root = Some rel ->
             slice_folder_of ds input_root output_root
                             (slice_output_folder output_root rel filename)).
  { intros rel Hrel. exists root, subdirs, fnames, filename, rel. auto. }
  intros w r w' H.
  destruct (process_file_layout ds input_root output_root root filename w)
    as (delta & T & Hd & Hs).
  rewrite H in T. simpl in T. exists delta. split; [exact T|].
  apply List.Forall_forall. intros e He. destruct e; simpl; try exact I.
  - destruct (Hd _ He) as (rel & Hrel & Hq).
    exists (slice_output_folder output_root rel filename).
    split; [apply Hfolder, Hrel | exact Hq].
  - destruct (Hs _ _ He) as (rel & plane & i & Hrel & Hpl & Hp).
    exists (slice_output_folder output_root rel filename), plane, i.
    split; [apply Hfolder, Hrel | auto].
Qed.

Lemma emits_process_dataset ds input_root output_root :
  emits (in_layout ds input_root output_root)
        (process_dataset ds input_root output_root).
Proof.
  unfold process_dataset. destruct (os_path_isdir ds input_root); simpl.
  2:{ apply emits_print. exact I. }
  apply emits_bind; [apply emits_print; exact I|]. intros _.
  apply emits_bind; [apply emits_print; exact I|]. intros _.
  apply emits_bind; [|intros _; apply emits_print; exact I].
  apply emits_for_each. intros [[root sd] fnames] Hin.
  apply emits_for_each. intros f Hf.
  eapply emits_process_file; eassumption.
Qed.

Lemma apply_saves_other l : forall (m : gmap string Np.image) p,
  ~ In p (map fst l) -> apply_saves l m !! p = m !! p.
Proof.
  induction l as [|[q img] l IH]; intros m p Hp; [reflexivity|].
  simpl in *. rewrite IH by tauto.
  apply lookup_insert_ne. intros ->. tauto.
Qed.

Lemma made_dirs_from tr q :
  q ∈ made_dirs tr -> exists p, In (EvMakedirs p) tr /\ In q (ancestors p).
Proof.
  induction tr as [|e tr IH]; simpl; intros H; [set_solver|].
  destruct e; try (destruct (IH H) as (p & Hp & Hq); exists p; auto).
  apply elem_of_union in H. destruct H as [H|H].
  - exists path. split; [left; reflexivity|].
    apply elem_of_list_to_set in H. apply list_elem_of_In. exact H.
  - destruct (IH H) as (p & Hp & Hq). exists p. auto.
Qed.

(** X13.  A run of [process_dataset] writes nowhere but into the folders
    of the matched files.  Every directory and every file that was there
    before is there after; a file is left as it was unless it is a slice
    in a plane directory of such a folder; and every new directory is such
    a folder, a plane directory in it, or one of their ancestors.  No path
    becomes both a directory and a file. *)
Theorem writes_only_slices (ds : dataset) (input_root output_root : string)
        (w : world) :
  let w' := snd (process_dataset ds input_root output_root w) in
  dirs w ⊆ dirs w'
  /\ dom (files w) ⊆ dom (files w')
  /\ (forall p,
        files w' !! p = files w !! p
        \/ exists folder plane i,
             slice_folder_of ds input_root output_root folder
             /\ In plane default_planes
             /\ p = Py.join (Py.join folder plane) (slice_name i))
  /\ (forall q, q ∈ dirs w' ->
        q ∈ dirs w
        \/ exists folder,
             slice_folder_of ds input_root output_root folder
             /\ (In q (ancestors folder)
                 \/ exists plane, In plane default_planes
                      /\ In q (ancestors (Py.join folder plane))))
  /\ (fs_ok w -> fs_ok w').
Proof.
  intros w'. subst w'.
  destruct (process_dataset ds input_root output_root w) as [r w'] eqn:E.
  cbn [snd].
  destruct (sound_process_dataset ds input_root output_root _ _ _ E)
    as (delta & T & F & D & K & _).
  destruct (emits_process_dataset ds input_root output_root _ _ _ E)
    as (delta' & T' & HQ).
  assert (delta' = delta) by (rewrite T in T'; apply app_inv_head in T'; auto).
  subst delta'. rewrite List.Forall_forall in HQ.
  split; [rewrite D; set_solver|].
  split; [rewrite F; apply apply_saves_dom|].
  split; [|split; [|exact K]].
  - intros p. rewrite F.
    destruct (in_dec string_dec p (map fst (saves_of delta))) as [Hin|Hout].
    + right. apply in_map_iff in Hin. destruct Hin as ([p' img] & Ep & Hin).
      simpl in Ep. subst p'. apply saves_of_in in Hin.
      exact (HQ _ Hin).
    + left. apply apply_saves_other, Hout.
  - intros q Hq. rewrite D in Hq. apply elem_of_union in Hq.
    destruct Hq as [Hq|Hq]; [left; exact Hq|]. right.
    apply made_dirs_from in Hq. destruct Hq as (p & Hp & Hanc).
    destruct (HQ _ Hp) as (folder & Hfolder & [->|(plane & Hpl & ->)]);
      exists folder; split; try exact Hfolder.
    + left. exact Hanc.
    + right. exists plane. auto.
Qed.

(* ===================================================================== *)
(** * The output tree mirrors the input tree *)
(* ===================================================================== *)

Section Mirror.

Lemma split_nonempty s : Py.split s <> [].
Proof.
  induction s as [|c s IH]; cbn [Py.split]; [discriminate|].
  destruct (Ascii.eqb c Py.sep); [discriminate|].
  destruct (Py.split s); discriminate.
Qed.

Lemma split_app_sep s t :
  Py.split (s +:+ (Py.sep_str +:+ t)) = Py.split s ++ Py.split t.
Proof.
  induction s as [|c s IH]; [reflexivity|].
  rewrite str_app_cons. cbn [Py.split]. rewrite IH.
  destruct (Ascii.eqb c Py.sep); [reflexivity|].
  destruct (Py.split s) eqn:E; [|reflexivity].
  exfalso. eapply split_nonempty, E.
Qed.

Lemma split_no_sep d : has_sep d = false -> Py.split d = [d].
Proof.
  induction d as [|c d IH]; cbn [has_sep Py.split]; intros H; [reflexivity|].
  apply orb_false_iff in H. destruct H as [-> H]. rewrite (IH H). reflexivity.
Qed.

Lemma normpath_app b l1 : forall acc l2,
  Py.normpath_comps b acc (l1 ++ l2)
  = Py.normpath_comps b (rev (Py.normpath_comps b acc l1)) l2.
Proof.
  induction l1 as [|c l1 IH]; intros acc l2.
  - cbn [app Py.normpath_comps]. rewrite rev_involutive. reflexivity.
  - cbn [app Py.normpath_comps].
    destruct (String.eqb c EmptyString || String.eqb c "."); [apply IH|].
    destruct (negb (String.eqb c "..")
              || negb b && match acc with [] => true | _ => false end
              || match acc with top :: _ => String.eqb top ".." | [] => false end);
      [apply IH|].
    destruct acc; apply IH.
Qed.

Lemma simple_name_spec d :
  simple_name d = true ->
  has_sep d = false /\ String.eqb d EmptyString = false
  /\ String.eqb d "." = false /\ String.eqb d ".." = false.
Proof.
  unfold simple_name. rewrite !andb_true_iff, !negb_true_iff. tauto.
Qed.

Lemma normpath_simple b acc d :
  simple_name d = true -> Py.normpath_comps b acc [d] = rev acc ++ [d].
Proof.
  intros H. apply simple_name_spec in H. destruct H as (_ & H1 & H2 & H3).
  cbn [Py.normpath_comps]. rewrite H1, H2, H3. reflexivity.
Qed.

Lemma prefix_nil s : String.prefix EmptyString s = true.
Proof. destruct s; reflexivity. Qed.

Lemma startswith_app p y :
  p <> EmptyString ->
  Py.startswith (p +:+ y) Py.sep_str = Py.startswith p Py.sep_str.
Proof.
  intros Hp. destruct p as [|c p]; [contradiction|].
  rewrite str_app_cons. unfold Py.startswith, Py.sep_str.
  cbn [String.prefix]. destruct (ascii_dec "/" c); [|reflexivity].
  rewrite !prefix_nil. reflexivity.
Qed.

Lemma simple_rel d : simple_name d = true -> Py.startswith d Py.sep_str = false.
Proof.
  intros H. apply simple_name_spec in H. destruct H as (Hs & _).
  destruct d as [|c d]; [reflexivity|].
  cbn [has_sep] in Hs. apply orb_false_iff in Hs. destruct Hs as [Hc _].
  unfold Py.startswith, Py.sep_str. cbn [String.prefix].
  destruct (ascii_dec "/" c) as [<-|]; [discriminate Hc | reflexivity].
Qed.

Lemma join_cwd_app cwd_ top y :
  top <> EmptyString ->
  Py.join cwd_ (top +:+ y) = Py.join cwd_ top +:+ y.
Proof.
  intros Htop. unfold Py.join. rewrite (startswith_app top y Htop).
  destruct (Py.startswith top Py.sep_str || String.eqb cwd_ EmptyString);
    [reflexivity|].
  destruct (Py.endswith cwd_ Py.sep_str); rewrite !str_app_assoc; reflexivity.
Qed.

Lemma join_suffix a b : exists p, Py.join a b = p +:+ b.
Proof.
  unfold Py.join.
  destruct (Py.startswith b Py.sep_str || String.eqb a EmptyString).
  - exists EmptyString. reflexivity.
  - destruct (Py.endswith a Py.sep_str).
    + exists a. reflexivity.
    + exists (a +:+ Py.sep_str). rewrite str_app_assoc. reflexivity.
Qed.

(** One more name at the end of a path is one more component. *)
Lemma abs_comps_join cwd_ top d :
  top <> EmptyString -> simple_name d = true ->
  Py.abs_comps cwd_ (Py.join top d) = Py.abs_comps cwd_ top ++ [d].
Proof.
  intros Htop Hd. pose proof (simple_name_spec d Hd) as (Hsep & _).
  destruct (join_suffix cwd_ top) as [P EP].
  assert (Hp : Py.join cwd_ top <> EmptyString).
  { rewrite EP. apply str_app_nonempty, Htop. }
  unfold Py.abs_comps. cbv zeta.
  rewrite (join_rel top d (simple_rel d Hd)). unfold join_prefix.
  apply String.eqb_neq in Htop. rewrite Htop. apply String.eqb_neq in Htop.
  destruct (Py.endswith top Py.sep_str) eqn:Eend.
  - apply endswith_spec in Eend. destruct Eend as [s Es].
    rewrite (join_cwd_app cwd_ top d Htop), (startswith_app _ d Hp).
    set (b := Py.startswith (Py.join cwd_ top) Py.sep_str). clearbody b.
    assert (E0 : Py.join cwd_ top = (P +:+ s) +:+ (Py.sep_str +:+ EmptyString)).
    { rewrite EP, Es, !str_app_assoc. reflexivity. }
    assert (E1 : Py.join cwd_ top +:+ d = (P +:+ s) +:+ (Py.sep_str +:+ d)).
    { rewrite EP, Es, !str_app_assoc. reflexivity. }
    rewrite E1, E0, !split_app_sep, (split_no_sep d Hsep).
    rewrite !normpath_app, (normpath_simple _ _ d Hd), rev_involutive.
    cbn [Py.split Py.normpath_comps String.eqb orb].
    rewrite rev_involutive. reflexivity.
  - rewrite str_app_assoc.
    rewrite (join_cwd_app cwd_ top _ Htop), (startswith_app _ _ Hp).
    rewrite split_app_sep, (split_no_sep d Hsep).
    rewrite normpath_app, (normpath_simple _ _ d Hd), rev_involutive.
    reflexivity.
Qed.

Lemma path_of_snoc top names d :
  path_of top (names ++ [d]) = Py.join (path_of top names) d.
Proof. unfold path_of. rewrite fold_left_app. reflexivity. Qed.

Lemma path_of_nonempty names : forall top,
  top <> EmptyString -> path_of top names <> EmptyString.
Proof.
  induction names as [|d names IH]; intros top Htop; [exact Htop|].
  apply (IH (Py.join top d)), join_nonempty, Htop.
Qed.

Lemma abs_comps_path cwd_ names : forall top,
  top <> EmptyString -> Forall (fun d => simple_name d = true) names ->
  Py.abs_comps cwd_ (path_of top names) = Py.abs_comps cwd_ top ++ names.
Proof.
  induction names as [|d names IH]; intros top Htop Hall.
  - rewrite app_nil_r. reflexivity.
  - inversion Hall as [|? ? Hd Hrest]; subst.
    change (path_of top (d :: names)) with (path_of (Py.join top d) names).
    rewrite (IH _ (join_nonempty top d Htop) Hrest).
    rewrite (abs_comps_join cwd_ top d Htop Hd), <- app_assoc. reflexivity.
Qed.

Lemma common_len_app l k : Py.common_len l (l ++ k) = length l.
Proof.
  induction l as [|x l IH]; [destruct k; reflexivity|].
  cbn [app Py.common_len length]. rewrite String.eqb_refl, IH. reflexivity.
Qed.

(** The relative path of a directory below the start is the names that
    lead to it. *)
Lemma relpath_below cwd_ top names :
  top <> EmptyString -> Forall (fun d => simple_name d = true) names ->
  Py.relpath cwd_ (path_of top names) top = Some (rel_of names).
Proof.
  intros Htop Hall. unfold Py.relpath.
  pose proof (path_of_nonempty names top Htop) as Hne.
  apply String.eqb_neq in Hne. rewrite Hne. cbv zeta.
  rewrite (abs_comps_path cwd_ names top Htop Hall), common_len_app.
  rewrite Nat.sub_diag, drop_app_length. cbn [repeat app].
  destruct names; reflexivity.
Qed.

Lemma walk_tree_rel t : forall top names,
  walk_tree (path_of top names) t
  = map (fun '(ns, sd, fn) => (path_of top ns, sd, fn)) (walk_rel names t).
Proof.
  induction t as [fn sd IH] using tree_induction. intros top names.
  cbn [walk_tree walk_rel map]. f_equal.
  induction IH as [|[d t'] rest Hd Hrest IHrest]; [reflexivity|].
  cbn [flat_map]. rewrite map_app. f_equal; [|exact IHrest].
  cbn [fst snd] in *. rewrite <- path_of_snoc. apply Hd.
Qed.

Lemma walk_rel_simple t : forall names ns sd fn,
  tree_ok t = true -> Forall (fun d => simple_name d = true) names ->
  In (ns, sd, fn) (walk_rel names t) ->
  Forall (fun d => simple_name d = true) ns.
Proof.
  induction t as [fnames subdirs IH] using tree_induction.
  intros names ns sd fn Hok Hnames [E|Hin].
  - inversion E; subst. exact Hnames.
  - apply in_flat_map in Hin. destruct Hin as ([d t'] & Hd & Hin).
    cbn [tree_ok] in Hok. rewrite forallb_forall in Hok.
    specialize (Hok _ Hd). apply andb_true_iff in Hok.
    destruct Hok as [Hsimple Hsub].
    rewrite List.Forall_forall in IH.
    apply (IH (d, t') Hd (names ++ [d]) ns sd fn Hsub); [|exact Hin].
    apply Forall_app. split; [exact Hnames|]. repeat constructor. exact Hsimple.
Qed.

End Mirror.

(** X14.  In a dataset whose directories have ordinary names, the walk
    visits the directories by the names that lead to them from the input
    root, and the relative path the Walker computes for a directory is
    these names joined by separators ([.] for the input root itself),
    whatever the working directory and however the input root is written.
    So the folder of a matched file lies under the output root at the place
    its directory has under the input root. *)
Theorem output_mirrors_input (ds : dataset) (input_root output_root : string)
        (t : tree) :
  input_root <> EmptyString ->
  lookup_dir ds input_root = Some t ->
  tree_ok t = true ->
  os_walk ds input_root
  = map (fun '(ns, sd, fn) => (path_of input_root ns, sd, fn)) (walk_rel [] t)
  /\ (forall ns sd fn, In (ns, sd, fn) (walk_rel [] t) ->
        Py.relpath (cwd ds) (path_of input_root ns) input_root
        = Some (rel_of ns))
  /\ (forall folder,
        slice_folder_of ds input_root output_root folder <->
        exists ns sd fn filename,
          In (ns, sd, fn) (walk_rel [] t) /\ In filename fn
          /\ (is_flair (path_of input_root ns) filename = true
              \/ is_dwi (path_of input_root ns) filename = true)
          /\ folder = slice_output_folder output_root (rel_of ns) filename).
Proof.
  intros Hne Hdir Hok.
  assert (Hwalk : os_walk ds input_root
                  = map (fun '(ns, sd, fn) => (path_of input_root ns, sd, fn))
                        (walk_rel [] t)).
  { unfold os_walk. rewrite Hdir. apply (walk_tree_rel t input_root []). }
  assert (Hrel : forall ns sd fn, In (ns, sd, fn) (walk_rel [] t) ->
                   Py.relpath (cwd ds) (path_of input_root ns) input_root
                   = Some (rel_of ns)).
  { intros ns sd fn Hin. apply relpath_below; [exact Hne|].
    apply (walk_rel_simple t [] ns sd fn Hok); [constructor | exact Hin]. }
  split; [exact Hwalk|]. split; [exact Hrel|].
  intros folder. unfold slice_folder_of. rewrite Hwalk. split.
  - intros (root & sd & fn & f & rel & Hin & Hf & Hm & Hr & ->).
    apply in_map_iff in Hin. destruct Hin as ([[ns sd'] fn'] & E & Hin).
    inversion E; subst. rewrite (Hrel _ _ _ Hin) in Hr. inversion Hr; subst.
    exists ns, sd, fn, f. auto.
  - intros (ns & sd & fn & f & Hin & Hf & Hm & ->).
    exists (path_of input_root ns), sd, fn, f, (rel_of ns).
    split; [|split; [exact Hf|split; [exact Hm|split; [eapply Hrel, Hin|reflexivity]]]].
    apply in_map_iff. exists (ns, sd, fn). auto.
Qed.

Lemma output_mirrors_input_witness :
  Py.relpath (cwd ex_ds_one) (path_of "ds004146" ["sub-01"; "anat"]%string)
             "ds004146"
  = Some (rel_of ["sub-01"; "anat"]%string).
Proof.
  destruct (output_mirrors_input ex_ds_one "ds004146" "slide"
              (Dir [] [("sub-01"%string,
                        Dir [] [("anat"%string,
                                 Dir ["sub-01_FLAIR.nii.gz"%string] [])])]))
    as (_ & H & _);
    [discriminate | reflexivity | reflexivity |].
  apply (H _ [] ["sub-01_FLAIR.nii.gz"%string]).
  right. right. left. reflexivity.
Defined.

(** A name that is not empty stays among the components when a directory
    name is joined to the path. *)
Lemma split_join_simple top d x :
  top <> EmptyString -> simple_name d = true -> x <> EmptyString ->
  In x (Py.split top) -> In x (Py.split (Py.join top d)).
Proof.
  intros Htop Hd Hx Hin. pose proof (simple_name_spec d Hd) as (Hsep & _).
  rewrite (join_rel top d (simple_rel d Hd)). unfold join_prefix.
  apply String.eqb_neq in Htop. rewrite Htop.
  destruct (Py.endswith top Py.sep_str) eqn:Eend.
  - apply endswith_spec in Eend. destruct Eend as [s ->].
    assert (E0 : s +:+ Py.sep_str = s +:+ (Py.sep_str +:+ EmptyString))
      by reflexivity.
    assert (E1 : (s +:+ Py.sep_str) +:+ d = s +:+ (Py.sep_str +:+ d))
      by (rewrite str_app_assoc; reflexivity).
    rewrite E0, split_app_sep in Hin. rewrite E1, split_app_sep.
    apply in_app_or in Hin. apply in_or_app.
    destruct Hin as [Hin|[C|[]]]; [left; exact Hin | congruence].
  - rewrite str_app_assoc, split_app_sep. apply in_or_app. left. exact Hin.
Qed.

Lemma split_path_of x names : forall top,
  top <> EmptyString -> Forall (fun d => simple_name d = true) names ->
  x <> EmptyString ->
  In x (Py.split top) -> In x (Py.split (path_of top names)).
Proof.
  induction names as [|d names IH]; intros top Htop Hall Hx Hin; [exact Hin|].
  inversion Hall as [|? ? Hd Hrest]; subst.
  apply (IH (Py.join top d)); [apply join_nonempty, Htop | exact Hrest | exact Hx|].
  apply split_join_simple; assumption.
Qed.

(** X15.  What makes a directory an [anat] or a [dwi] directory is a
    component anywhere in its path: every directory below such a directory
    is one too, at any depth, and so is every directory of the walk when the
    component is in the input root itself.  A file that would match in a
    directory matches in every directory below it. *)
Theorem match_below_component (top filename : string) (names : list string) :
  top <> EmptyString ->
  Forall (fun d => simple_name d = true) names ->
  (is_flair top filename = true ->
   is_flair (path_of top names) filename = true)
  /\ (is_dwi top filename = true ->
      is_dwi (path_of top names) filename = true).
Proof.
  intros Htop Hall. unfold is_flair, is_dwi.
  split; intros H; apply andb_true_iff in H; destruct H as [Hc He];
    apply andb_true_iff; (split; [|exact He]);
    apply contains_spec; apply contains_spec in Hc;
    (apply split_path_of; [exact Htop | exact Hall | discriminate | exact Hc]).
Qed.

Lemma match_below_component_witness :
  is_flair (path_of "ds/anat" ["derived"; "run-1"]%string) "a_FLAIR.nii.gz"
  = true.
Proof.
  destruct (match_below_component "ds/anat" "a_FLAIR.nii.gz"
              ["derived"; "run-1"]%string) as [H _];
    [discriminate | repeat constructor |].
  apply H. reflexivity.
Defined.

(* ===================================================================== *)
(** * The messages that frame a run *)
(* ===================================================================== *)

Lemma emits_raise (Q : event -> Prop) {A} e : emits Q (@raise A e).
Proof.
  intros w r w' [= <- <-]. exists []. rewrite app_nil_r.
  split; [reflexivity | constructor].
Qed.

Lemma emits_makedirs (Q : event -> Prop) p :
  Q (EvMakedirs p) -> emits Q (os_makedirs p).
Proof.
  intros Hq w r w' H. destruct (makedirs_run _ _ _ _ H)
    as [(_ & _ & _ & _ & _ & Ht)|(_ & -> & _)].
  - exists [EvMakedirs p]. split; [exact Ht|]. repeat constructor. exact Hq.
  - exists []. rewrite app_nil_r. split; [reflexivity | constructor].
Qed.

Lemma slicer_events_unframed ds input_path base planes delta :
  slicer_events ds input_path base planes delta ->
  Forall (fun e => e <> EvComplete) delta.
Proof.
  intros Hs.
  assert (Hflat : forall np_image pre,
             pre `prefix_of` flat_map (plane_events np_image base) planes ->
             Forall (fun e => e <> EvComplete) pre).
  { intros np_image pre [rest Hp]. apply List.Forall_forall. intros e He.
    assert (H : In e (flat_map (plane_events np_image base) planes))
      by (rewrite Hp; apply in_or_app; left; exact He).
    apply in_flat_map in H. destruct H as (plane & _ & H).
    apply plane_events_kind in H.
    destruct H as [(q & ->)|(q & img & ->)]; discriminate. }
  destruct Hs as [a mn mx Hr Hmn Hmx| |a|a mn mx pre e Hr Hmn Hmx Hp].
  - apply Forall_app. split; [eapply Hflat; reflexivity|].
    repeat constructor. discriminate.
  - repeat constructor. discriminate.
  - repeat constructor. discriminate.
  - apply Forall_app. split; [eapply Hflat, Hp|].
    repeat constructor. discriminate.
Qed.

Lemma emits_unframed_process_file ds input_root output_root root filename :
  emits (fun e => e <> EvComplete)
        (process_file ds input_root output_root root filename).
Proof.
  unfold process_file.
  destruct (is_flair root filename || is_dwi root filename);
    [|apply emits_ret].
  apply emits_bind; [apply emits_print; discriminate|]. intros _.
  apply emits_bind.
  { unfold os_path_relpath. destruct (Py.relpath _ _ _);
      [apply emits_ret | apply emits_raise]. }
  intros rel. apply emits_bind; [apply emits_makedirs; discriminate|].
  intros _ w r w' H.
  destruct (slice_image_run _ _ _ _ _ _ _ H) as (_ & delta & T & Hs & _).
  exists delta. split; [exact T|]. eapply slicer_events_unframed, Hs.
Qed.

(** X17.  A run on an input directory opens with its two messages and
    prints [Processing complete] exactly when it returns normally, once,
    as the last thing it does -- also when every file it handed to the
    slicer failed.  A run that raises does not print it. *)
Theorem completion_message_last (ds : dataset) (input_root output_root : string)
        (w : world) :
  os_path_isdir ds input_root = true ->
  exists mid,
    trace (snd (process_dataset ds input_root output_root w))
    = trace w ++ [EvStart input_root; EvOutputTo output_root] ++ mid
      ++ match fst (process_dataset ds input_root output_root w) with
         | Ok _ => [EvComplete]
         | Raise _ => []
         end
    /\ Forall (fun e => e <> EvComplete) mid.
Proof.
  intros Hdir.
  assert (Hem : emits (fun e => e <> EvComplete)
                      (for_each (os_walk ds input_root)
                         (fun '(root, _, fnames) =>
                            for_each fnames
                              (process_file ds input_root output_root root)))).
  { apply emits_for_each. intros [[root sd] fnames] _.
    apply emits_for_each. intros f _. apply emits_unframed_process_file. }
  destruct (process_dataset ds input_root output_root w) as [r w'] eqn:E.
  cbn [fst snd]. unfold process_dataset in E. rewrite Hdir in E. simpl in E.
  unfold bind at 1 in E. simpl in E. unfold bind at 1 in E. simpl in E.
  destruct (bind_run _ _ _ _ _ E) as [(a & w3 & H1 & H2)|(e & H1 & ->)].
  - destruct (Hem _ _ _ H1) as (mid & T & HQ). exists mid. split; [|exact HQ].
    unfold print in H2. inversion H2; subst. simpl. rewrite T. simpl.
    rewrite <- !app_assoc. reflexivity.
  - destruct (Hem _ _ _ H1) as (mid & T & HQ). exists mid. split; [|exact HQ].
    rewrite T. simpl. rewrite <- !app_assoc, app_nil_r. reflexivity.
Qed.

Lemma completion_message_last_witness :
  exists mid,
    trace (snd (process_dataset ex_ds_two "ds" "slide" ex_world_blocked))
    = trace ex_world_blocked ++ [EvStart "ds"; EvOutputTo "slide"] ++ mid
      ++ match fst (process_dataset ex_ds_two "ds" "slide" ex_world_blocked) with
         | Ok _ => [EvComplete]
         | Raise _ => []
         end
    /\ Forall (fun e => e <> EvComplete) mid.
Proof.
  apply (completion_message_last ex_ds_two "ds" "slide" ex_world_blocked).
  reflexivity.
Defined.
